(** * YourPersonaChecker: scoring and classification engine

    A shallow embedding of the quiz engine of the repository
    ([core.js], its refactored revision, and the three revisions of
    [app.js]) together with the properties stated about it.

    Number model.  JavaScript numbers are IEEE 754 doubles.  The
    modules [Math], [Core], [CoreRefactored], [App], [AppLegacy] and
    those of the tools and views read them as the real numbers of the
    Standard Library: [+], [-], [*], [/] are exact, there is no NaN and
    no infinity, and [Math.pow], [Math.sign], [Math.abs], [Math.round],
    [Math.floor], [Math.max] and [Math.min] are given their mathematical
    meaning on the arguments the program gives them.  That reading is
    faithful to the control flow and to every bound that leaves a
    margin; it is not faithful to the last bit.  On doubles a
    contribution that is added and taken back does not always leave the
    sum as it was, and a value that is halfway between two integers
    over the reals may fall on the other side.  Where a property
    depends on that, the code is read a second time: the session over
    an arithmetic that is a parameter (module [Session]), instantiated
    with the doubles of the kernel ([Arith.binary64]) and with the
    reals rounded after every operation ([Arith.rounded]), and the
    normalizer on doubles ([App64.normalizeScore]). *)

From Stdlib Require Import Floats Reals Lra Lia ZArith List Sorted Permutation.
From stdpp Require Import gmap list fin_maps strings functions.
Import ListNotations.

Local Open Scope R_scope.

(** ** The JavaScript [Math] object, over the reals *)

Module Math.

(** [Math.sign(x)]: -1, 0 or +1. *)
Definition sign (x : R) : R :=
  match total_order_T x 0 with
  | inleft (left _) => -1
  | inleft (right _) => 0
  | inright _ => 1
  end.

(** [Math.abs(x)]. *)
Definition abs (x : R) : R := Rabs x.

(** [Math.pow(x, y)] for a base [x >= 0] and an exponent [y > 0], the
    only arguments the scorer passes: [0 ** y] is [0], and a positive
    base is raised with the real power function. *)
Definition pow (x y : R) : R :=
  if Req_dec_T x 0 then 0 else Rpower x y.

(** [Math.floor(x)], as an integer: [up x] is the least integer
    strictly above [x]. *)
Definition floorZ (x : R) : Z := (up x - 1)%Z.

(** [Math.round(x)]: the nearest integer, halves rounded up, that is
    [floor (x + 0.5)]. *)
Definition roundZ (x : R) : Z := floorZ (x + / 2).

Definition round (x : R) : R := IZR (roundZ x).

(** [Math.max(a, b)] and [Math.min(a, b)]. *)
Definition max (a b : R) : R := Rmax a b.
Definition min (a b : R) : R := Rmin a b.

(** [Number.isInteger(x)]. *)
Definition isInteger (x : R) : bool :=
  if Req_dec_T x (IZR (floorZ x)) then true else false.

End Math.

(** ** The console

    [console.error] and [console.warn] are the only effects of the core:
    a computation that may log returns its value together with the
    messages it printed, in order. *)

Inductive console_msg : Type :=
  | InvalidLikertValue (value : R)   (* [calculateScore] Invalid Likert value *)
  | ShuffleBudgetExhausted.          (* the sequencer's warning *)

Definition Console (A : Type) : Type := (A * list console_msg)%type.

Definition ret {A} (a : A) : Console A := (a, []).

Definition console_error {A} (m : console_msg) (a : A) : Console A := (a, [m]).

Definition console_warn {A} (m : console_msg) (a : A) : Console A := (a, [m]).

Definition value_of {A} (c : Console A) : A := fst c.

Definition logged {A} (c : Console A) : list console_msg := snd c.

(** ** Cognitive functions and the type table *)

(** The eight keys of [FUNCTIONS]. *)
Inductive func : Type := Ni | Ne | Si | Se | Ti | Te | Fi | Fe.

#[global] Instance func_eq_dec : EqDecision func.
Proof. solve_decision. Defined.

(** [COGNITIVE_STACKS], the same literal in both revisions of [core.js]:
    an object, kept as the list of its entries in insertion order, the
    order [Object.entries] yields. *)
Definition COGNITIVE_STACKS : list (string * list func) :=
  [ ("INTJ", [Ni; Te; Fi; Se]);
    ("INTP", [Ti; Ne; Si; Fe]);
    ("ENTJ", [Te; Ni; Se; Fi]);
    ("ENTP", [Ne; Ti; Fe; Si]);
    ("INFJ", [Ni; Fe; Ti; Se]);
    ("INFP", [Fi; Ne; Si; Te]);
    ("ENFJ", [Fe; Ni; Se; Ti]);
    ("ENFP", [Ne; Fi; Te; Si]);
    ("ISTJ", [Si; Te; Fi; Ne]);
    ("ISFJ", [Si; Fe; Ti; Ne]);
    ("ESTJ", [Te; Si; Ne; Fi]);
    ("ESFJ", [Fe; Si; Ne; Ti]);
    ("ISTP", [Ti; Se; Ni; Fe]);
    ("ISFP", [Fi; Se; Ni; Te]);
    ("ESTP", [Se; Ti; Fe; Ni]);
    ("ESFP", [Se; Fi; Te; Ni]) ]%string.

(** A [functionScores] object as the classifier receives it: a key may
    be missing. *)
Definition scores_object : Type := func -> option R.

(** [functionScores[func] || 0]: a missing key reads [undefined], and
    [undefined] and [0] are both falsy. *)
Definition or0 (x : option R) : R :=
  match x with
  | Some v => if Req_dec_T v 0 then 0 else v
  | None => 0
  end.

(** The inner loop of [determineMBTIType], the same in both revisions:
    [for (i = 0; i < stack.length; i++)
       totalScore += (functionScores[stack[i]] || 0) * weights[i]].
    The list [ws] holds [weights[i..]].  A stack longer than the weights
    reads [weights[i] = undefined] and the total is NaN, for which the
    number model has no value: [None]. *)
Fixpoint stackTotal (functionScores : scores_object) (stack : list func)
    (ws : list R) (totalScore : R) : option R :=
  match stack, ws with
  | [], _ => Some totalScore
  | f :: stack', w :: ws' =>
      stackTotal functionScores stack' ws' (totalScore + or0 (functionScores f) * w)
  | _ :: _, [] => None
  end.

(** The outer loop: one entry of [typeScores] per entry of the table, in
    the table's order. *)
Fixpoint typeScoresOf (functionScores : scores_object) (ws : list R)
    (stacks : list (string * list func)) : option (list (string * R)) :=
  match stacks with
  | [] => Some []
  | (type, stack) :: rest =>
      match stackTotal functionScores stack ws 0 with
      | None => None
      | Some totalScore =>
          match typeScoresOf functionScores ws rest with
          | None => None
          | Some l => Some ((type, totalScore) :: l)
          end
      end
  end.

(** [Array.prototype.sort(compare)]: a stable sort; [compare(a, b) > 0]
    puts [b] first, otherwise [a] stays before [b]. *)
Fixpoint sort_insert {A} (compare : A -> A -> R) (x : A) (l : list A) : list A :=
  match l with
  | [] => [x]
  | y :: l' =>
      if Rlt_dec 0 (compare x y) then y :: sort_insert compare x l'
      else x :: l
  end.

Definition Array_sort {A} (compare : A -> A -> R) (l : list A) : list A :=
  foldr (sort_insert compare) [] l.

(** The comparator [(a, b) => b[1] - a[1]]: descending scores. *)
Definition byScoreDesc (a b : string * R) : R := snd b - snd a.

(** ** [core.js] *)

Module Core.

(** [calculateScore(value, isReverse = false)]: no validation of
    [value]. *)
Definition calculateScore (value : R) (isReverse : bool) : R :=
  let actualValue := if isReverse then 6 - value else value in
  let base := actualValue - 3 in
  let weight := Math.sign base * Math.pow (Math.abs base) (12 / 10) in
  weight.

Definition weights : list R := [4; 2; 1; 5 / 10].

Record classification := {
  type : string;
  confidence : R;
  top2 : string * string;
  typeScores : list (string * R)
}.

(** [determineMBTIType(functionScores, COGNITIVE_STACKS)].  [None]
    stands for the run that does not return a number-valued result:
    the TypeError of [best[1]] or [second[1]] on a table of fewer than
    two types, or a NaN total. *)
Definition determineMBTIType (functionScores : scores_object)
    (stacks : list (string * list func)) : option classification :=
  match typeScoresOf functionScores weights stacks with
  | None => None
  | Some typeScores =>
      let sorted := Array_sort byScoreDesc typeScores in
      match sorted with
      | best :: second :: _ =>
          let confidence :=
            Math.round
              (100 * ((snd best - snd second)
                      / (Math.abs (snd best) + Math.abs (snd second)
                         + 1 / 1000000))) in
          Some {| type := fst best;
                  confidence := Math.max 0 (Math.min confidence 100);
                  top2 := (fst best, fst second);
                  typeScores := typeScores |}
      | _ => None
      end
  end.

End Core.

(** ** [core.js], refactored revision *)

Module CoreRefactored.

Definition JUNG_FUNCTION_WEIGHTS_DOMINANT : R := 4.
Definition JUNG_FUNCTION_WEIGHTS_AUXILIARY : R := 2.
Definition JUNG_FUNCTION_WEIGHTS_TERTIARY : R := 1.
Definition JUNG_FUNCTION_WEIGHTS_INFERIOR : R := 5 / 10.
Definition LIKERT_SCALE_MIDPOINT : R := 3.
Definition SCORE_EMPHASIS_EXPONENT : R := 12 / 10.
Definition LIKERT_SCALE_REVERSE_BASE : R := 6.
Definition SCORE_NORMALIZATION_MIN : R := -20.
Definition SCORE_NORMALIZATION_MAX : R := 20.
Definition SCORE_NORMALIZATION_OUTPUT_MIN : R := 0.
Definition SCORE_NORMALIZATION_OUTPUT_MAX : R := 100.
Definition CONFIDENCE_CALCULATION_EPSILON : R := 1 / 1000000.
Definition CONFIDENCE_BOUNDS_MIN : R := 0.
Definition CONFIDENCE_BOUNDS_MAX : R := 100.

(** [isValidLikertValue(value)]. *)
Definition isValidLikertValue (value : R) : bool :=
  Math.isInteger value
  && (if Rle_dec 1 value then true else false)
  && (if Rle_dec value 5 then true else false).

(** [calculateScore(value, isReverse = false)]: an invalid value is
    reported on the console and scored 0. *)
Definition calculateScore (value : R) (isReverse : bool) : Console R :=
  if negb (isValidLikertValue value) then
    console_error (InvalidLikertValue value) 0
  else
    let actualValue :=
      if isReverse then LIKERT_SCALE_REVERSE_BASE - value else value in
    let deviation := actualValue - LIKERT_SCALE_MIDPOINT in
    let emphasizedScore :=
      Math.sign deviation
      * Math.pow (Math.abs deviation) SCORE_EMPHASIS_EXPONENT in
    ret emphasizedScore.

(** [normalizeScore(rawScore)]: clamp, then round. *)
Definition normalizeScore (rawScore : R) : R :=
  let MIN := SCORE_NORMALIZATION_MIN in
  let MAX := SCORE_NORMALIZATION_MAX in
  let OUTPUT_MIN := SCORE_NORMALIZATION_OUTPUT_MIN in
  let OUTPUT_MAX := SCORE_NORMALIZATION_OUTPUT_MAX in
  let normalized :=
    ((rawScore - MIN) / (MAX - MIN)) * (OUTPUT_MAX - OUTPUT_MIN) + OUTPUT_MIN in
  Math.round (Math.max OUTPUT_MIN (Math.min OUTPUT_MAX normalized)).

Definition stackWeights : list R :=
  [ JUNG_FUNCTION_WEIGHTS_DOMINANT;
    JUNG_FUNCTION_WEIGHTS_AUXILIARY;
    JUNG_FUNCTION_WEIGHTS_TERTIARY;
    JUNG_FUNCTION_WEIGHTS_INFERIOR ].

Record classification := {
  type : string;
  confidence : R;
  top2 : string * option string;   (* the second is [null] on a one-type table *)
  typeScores : list (string * R)
}.

(** [determineMBTIType(functionScores, COGNITIVE_STACKS)].  The guard
    on a [functionScores] that is not an object has no counterpart:
    [scores_object] holds objects only.  [None] stands for the
    TypeError of destructuring [sortedTypes[0]] on an empty table, or a
    NaN total. *)
Definition determineMBTIType (functionScores : scores_object)
    (stacks : list (string * list func)) : option classification :=
  match typeScoresOf functionScores stackWeights stacks with
  | None => None
  | Some typeScores =>
      let sortedTypes := Array_sort byScoreDesc typeScores in
      match sortedTypes with
      | [] => None
      | (firstType, firstScore) :: rest =>
          let '(secondType, secondScore) :=
            match rest with
            | (t, s) :: _ => (Some t, s)
            | [] => (None, 0)
            end in
          let scoreDifference := firstScore - secondScore in
          let scoreSum :=
            Math.abs firstScore + Math.abs secondScore
            + CONFIDENCE_CALCULATION_EPSILON in
          let rawConfidence := 100 * (scoreDifference / scoreSum) in
          let confidence :=
            Math.max CONFIDENCE_BOUNDS_MIN
              (Math.min CONFIDENCE_BOUNDS_MAX (Math.round rawConfidence)) in
          Some {| type := firstType;
                  confidence := confidence;
                  top2 := (firstType, secondType);
                  typeScores := typeScores |}
      end
  end.

End CoreRefactored.

(** ** The question bank

    [data.js] is not part of the sources: the bank is a parameter of
    everything below.  A question is [{ id, text, type, reverse }];
    [type] is one of the eight function names and [reverse] may be
    absent. *)

Module Question.
Record t := {
  id : nat;
  text : string;
  type : func;
  reverse : option bool
}.
End Question.

Abbreviation question := Question.t.

(** ** Question sequencer ([app.js]) *)

Module Sequencer.

(** [Math.random()] is an oracle: its [k]-th call returns [rng k], and
    the number of calls made so far is threaded through. *)
Definition random_source : Type := nat -> R.

(** [[a[i], a[j]] = [a[j], a[i]]]: both reads, then [a[i] = ..], then
    [a[j] = ..].  Under the contract of [Math.random] both indices are
    in range; out of range the array is left as it is. *)
Definition swap {A} (a : list A) (i j : nat) : list A :=
  match a !! i, a !! j with
  | Some x, Some y => <[j := x]> (<[i := y]> a)
  | _, _ => a
  end.

(** The loop [for (i = shuffled.length - 1; i > 0; i--)] of
    [fisherYatesShuffle], entered at index [i] with [k] random numbers
    already drawn. *)
Fixpoint fisherYatesLoop {A} (rng : random_source) (i : nat)
    (shuffled : list A) (k : nat) : list A * nat :=
  match i with
  | O => (shuffled, k)
  | S i' =>
      let j := Z.to_nat (Math.floorZ (rng k * INR (i + 1))) in
      fisherYatesLoop rng i' (swap shuffled i j) (S k)
  end.

(** [fisherYatesShuffle(array)]: works on a copy. *)
Definition fisherYatesShuffle {A} (rng : random_source) (array : list A)
    (k : nat) : list A * nat :=
  let shuffled := array in
  fisherYatesLoop rng (length shuffled - 1) shuffled k.

(** The inner check: [shuffled[i].type === shuffled[i - 1].type] for
    some [i >= 1]. *)
Fixpoint hasConsecutive (shuffled : list question) : bool :=
  match shuffled with
  | prev :: rest =>
      match rest with
      | cur :: _ =>
          if decide (Question.type cur = Question.type prev) then true
          else hasConsecutive rest
      | [] => false
      end
  | [] => false
  end.

Definition maxAttempts : nat := 1000.

(** What a run of the sequencer did: the array it returned, how many
    iterations of the attempt loop ran, whether the fallback shuffle
    after the loop produced the result, and how many random numbers
    were drawn.  Only [shuffled] is returned by the code; the rest is
    bookkeeping of the model. *)
Record run := {
  shuffled : list question;
  attempts : nat;
  usedFallback : bool;
  randomCalls : nat
}.

(** The loop [for (attempt = 0; attempt < maxAttempts; attempt++)]
    with [remaining = maxAttempts - attempt], followed by the fallback. *)
Fixpoint attemptLoop (rng : random_source) (questions : list question)
    (remaining attempt k : nat) : Console run :=
  match remaining with
  | O =>
      let '(fallback, k') := fisherYatesShuffle rng questions k in
      console_warn ShuffleBudgetExhausted
        {| shuffled := fallback; attempts := attempt;
           usedFallback := true; randomCalls := k' |}
  | S remaining' =>
      let '(candidate, k') := fisherYatesShuffle rng questions k in
      if hasConsecutive candidate then
        attemptLoop rng questions remaining' (S attempt) k'
      else
        ret {| shuffled := candidate; attempts := S attempt;
               usedFallback := false; randomCalls := k' |}
  end.

(** [shuffleQuestionsWithConstraints(questions)].  The older revision
    of [app.js] that has it is the same function without the
    [console.warn]. *)
Definition shuffleQuestionsWithConstraints (rng : random_source)
    (questions : list question) : Console run :=
  attemptLoop rng questions maxAttempts 0 0.

End Sequencer.

(** ** Session, current [app.js]

    Parameters: [questions] is the shuffled bank the module holds, and
    [calculateScore] the scorer imported from [core.js] (either
    revision, as a function to the number it returns). *)

Module App.

(** An entry of [state.answers]: [{ value, isReverse }]. *)
Record answer := { value : R; isReverse : bool }.

Record state := {
  currentQuestion : nat;
  answers : gmap nat answer;
  functionScores : func -> R;
  showResult : bool
}.

(** [createDefaultState()]: every call builds new objects, so no two
    states share [answers] or [functionScores]; they are values of the
    record. *)
Definition createDefaultState : state :=
  {| currentQuestion := 0;
     answers := ∅;
     functionScores := fun _ => 0;
     showResult := false |}.

Definition SCORE_MIN : R := -20.
Definition SCORE_MAX : R := 20.

(** [normalizeScore(rawScore)]: round, then clamp. *)
Definition normalizeScore (rawScore : R) : R :=
  Math.max 0
    (Math.min 100
       (Math.round (((rawScore - SCORE_MIN) / (SCORE_MAX - SCORE_MIN)) * 100))).

(** The callbacks [handleAnswer] hands to [nextStep]. *)
Inductive callback : Type :=
  | NextQuestion   (* [() => state.currentQuestion++] *)
  | ShowResult.    (* [() => state.showResult = true] *)

(** The module's variables [state] and [isProcessing], and the
    transitions scheduled with [setTimeout] that have not run yet. *)
Record world := {
  st : state;
  isProcessing : bool;
  timers : list callback
}.

Definition initial : world :=
  {| st := createDefaultState; isProcessing := false; timers := [] |}.

(** Lines 142 to 166 of [handleAnswer]: the update of [state] for an
    answer [value] to [question].  This is the only writer of
    [state.answers], so an old entry is always an object and the test
    [typeof oldAnswerData === 'object'] takes its first branch. *)
Definition recordAnswer (calculateScore : R -> bool -> R)
    (question : question) (value : R) (s : state) : state :=
  let funcType := Question.type question in
  let isReverse := default false (Question.reverse question) in
  let oldAnswer := answers s !! Question.id question in
  let scores1 :=
    match oldAnswer with
    | Some oldAnswerData =>
        let oldScore := calculateScore (App.value oldAnswerData) isReverse in
        <[funcType := functionScores s funcType - oldScore]> (functionScores s)
    | None => functionScores s
    end in
  let delta := calculateScore value isReverse in
  let answers' :=
    <[Question.id question := {| value := value; isReverse := isReverse |}]>
      (answers s) in
  {| currentQuestion := currentQuestion s;
     answers := answers';
     functionScores := <[funcType := scores1 funcType + delta]> scores1;
     showResult := showResult s |}.

(** [window.handleAnswer(value, event)].  With no question at
    [state.currentQuestion] the read of [question.type] throws after
    [isProcessing] was set, and nothing else happens. *)
Definition handleAnswer (questions : list question)
    (calculateScore : R -> bool -> R) (value : R) (w : world) : world :=
  if isProcessing w then w
  else
    match questions !! currentQuestion (st w) with
    | None => {| st := st w; isProcessing := true; timers := timers w |}
    | Some question =>
        let s := recordAnswer calculateScore question value (st w) in
        let cb :=
          if (currentQuestion s <? length questions - 1)%nat
          then NextQuestion else ShowResult in
        {| st := s; isProcessing := true; timers := timers w ++ [cb] |}
    end.

Definition runCallback (cb : callback) (s : state) : state :=
  match cb with
  | NextQuestion =>
      {| currentQuestion := S (currentQuestion s); answers := answers s;
         functionScores := functionScores s; showResult := showResult s |}
  | ShowResult =>
      {| currentQuestion := currentQuestion s; answers := answers s;
         functionScores := functionScores s; showResult := true |}
  end.

(** The oldest scheduled [nextStep] runs: the callback acts on the
    state the variable [state] holds at that time, then
    [isProcessing = false]. *)
Definition timerFires (w : world) : world :=
  match timers w with
  | [] => w
  | cb :: rest =>
      {| st := runCallback cb (st w); isProcessing := false; timers := rest |}
  end.

(** [window.goBack()]. *)
Definition goBack (w : world) : world :=
  if (0 <? currentQuestion (st w))%nat && negb (isProcessing w) then
    {| st := {| currentQuestion := currentQuestion (st w) - 1;
                answers := answers (st w);
                functionScores := functionScores (st w);
                showResult := showResult (st w) |};
       isProcessing := isProcessing w; timers := timers w |}
  else w.

(** [window.reset()]: [state = createDefaultState()]. *)
Definition reset (w : world) : world :=
  {| st := createDefaultState; isProcessing := isProcessing w;
     timers := timers w |}.

(** What can happen to a session. *)
Inductive event : Type :=
  | Answer (value : R)
  | TimerFires
  | GoBack
  | Reset.

Definition step (questions : list question)
    (calculateScore : R -> bool -> R) (w : world) (e : event) : world :=
  match e with
  | Answer value => handleAnswer questions calculateScore value w
  | TimerFires => timerFires w
  | GoBack => goBack w
  | Reset => reset w
  end.

Definition run (questions : list question)
    (calculateScore : R -> bool -> R) (es : list event) : world :=
  fold_left (step questions calculateScore) es initial.

End App.

(** ** Session, older revisions of [app.js]

    The two older revisions share [handleAnswer], [goBack] and [reset].
    They keep one constant [defaultState] and start and reset with the
    spread copy [{ ...defaultState }], which copies the four fields: the
    numbers and booleans by value, the nested [answers] and
    [functionScores] objects by reference.  The objects live in a heap
    and a state holds their addresses. *)

Module AppLegacy.

Abbreviation loc := nat.

Inductive object : Type :=
  | AnswersObject (entries : gmap nat R)   (* question id to value *)
  | ScoresObject (scores : func -> R).

Abbreviation heap := (gmap loc object).

Record state := {
  currentQuestion : nat;
  answers : loc;
  functionScores : loc;
  showResult : bool
}.

(** The two object literals nested in [defaultState] are allocated
    once, when the module is loaded. *)
Definition answers_loc : loc := 0%nat.
Definition scores_loc : loc := 1%nat.

Definition initial_heap : heap :=
  <[answers_loc := AnswersObject ∅]>
    (<[scores_loc := ScoresObject (fun _ => 0)]> ∅).

Definition defaultState : state :=
  {| currentQuestion := 0;
     answers := answers_loc;
     functionScores := scores_loc;
     showResult := false |}.

(** [{ ...o }]: a new object with the fields of [o]. *)
Definition spread (o : state) : state :=
  {| currentQuestion := currentQuestion o;
     answers := answers o;
     functionScores := functionScores o;
     showResult := showResult o |}.

Inductive callback : Type :=
  | NextQuestion
  | ShowResult.

Record world := {
  objects : heap;
  st : state;
  isProcessing : bool;
  timers : list callback
}.

Definition initial : world :=
  {| objects := initial_heap; st := spread defaultState;
     isProcessing := false; timers := [] |}.

(** Reading [state.answers] and [state.functionScores] through the
    heap. *)
Definition answersOf (h : heap) (s : state) : option (gmap nat R) :=
  match h !! answers s with
  | Some (AnswersObject m) => Some m
  | _ => None
  end.

Definition scoresOf (h : heap) (s : state) : option (func -> R) :=
  match h !! functionScores s with
  | Some (ScoresObject f) => Some f
  | _ => None
  end.

(** The state update of [handleAnswer]; [calculateScore(x)] leaves
    [isReverse] at its default [false].  The writes go to the objects
    the state points to. *)
Definition recordAnswer (calculateScore : R -> bool -> R)
    (question : question) (value : R) (h : heap) (s : state) : heap :=
  match answersOf h s, scoresOf h s with
  | Some entries, Some scores =>
      let funcType := Question.type question in
      let oldAnswer := entries !! Question.id question in
      let scores1 :=
        match oldAnswer with
        | Some old =>
            <[funcType := scores funcType - calculateScore old false]> scores
        | None => scores
        end in
      let delta := calculateScore value false in
      let entries' := <[Question.id question := value]> entries in
      let scores2 := <[funcType := scores1 funcType + delta]> scores1 in
      <[functionScores s := ScoresObject scores2]>
        (<[answers s := AnswersObject entries']> h)
  | _, _ => h
  end.

Definition handleAnswer (questions : list question)
    (calculateScore : R -> bool -> R) (value : R) (w : world) : world :=
  if isProcessing w then w
  else
    match questions !! currentQuestion (st w) with
    | None =>
        {| objects := objects w; st := st w; isProcessing := true;
           timers := timers w |}
    | Some question =>
        let h := recordAnswer calculateScore question value (objects w) (st w) in
        let cb :=
          if (currentQuestion (st w) <? length questions - 1)%nat
          then NextQuestion else ShowResult in
        {| objects := h; st := st w; isProcessing := true;
           timers := timers w ++ [cb] |}
    end.

Definition runCallback (cb : callback) (s : state) : state :=
  match cb with
  | NextQuestion =>
      {| currentQuestion := S (currentQuestion s); answers := answers s;
         functionScores := functionScores s; showResult := showResult s |}
  | ShowResult =>
      {| currentQuestion := currentQuestion s; answers := answers s;
         functionScores := functionScores s; showResult := true |}
  end.

Definition timerFires (w : world) : world :=
  match timers w with
  | [] => w
  | cb :: rest =>
      {| objects := objects w; st := runCallback cb (st w);
         isProcessing := false; timers := rest |}
  end.

Definition goBack (w : world) : world :=
  if (0 <? currentQuestion (st w))%nat && negb (isProcessing w) then
    {| objects := objects w;
       st := {| currentQuestion := currentQuestion (st w) - 1;
                answers := answers (st w);
                functionScores := functionScores (st w);
                showResult := showResult (st w) |};
       isProcessing := isProcessing w; timers := timers w |}
  else w.

(** [window.reset()]: [state = { ...defaultState }]. *)
Definition reset (w : world) : world :=
  {| objects := objects w; st := spread defaultState;
     isProcessing := isProcessing w; timers := timers w |}.

Inductive event : Type :=
  | Answer (value : R)
  | TimerFires
  | GoBack
  | Reset.

Definition step (questions : list question)
    (calculateScore : R -> bool -> R) (w : world) (e : event) : world :=
  match e with
  | Answer value => handleAnswer questions calculateScore value w
  | TimerFires => timerFires w
  | GoBack => goBack w
  | Reset => reset w
  end.

Definition run (questions : list question)
    (calculateScore : R -> bool -> R) (es : list event) : world :=
  fold_left (step questions calculateScore) es initial.

(** The inline display value of [updateSidePanel] in the revision that
    has no [normalizeScore]: [Math.max(0, Math.round((val + 10) * 5))]. *)
Definition sidePanelValue (val : R) : R :=
  Math.max 0 (Math.round ((val + 10) * 5)).

End AppLegacy.

(** ** The specification's notions *)

(** The item score as the specification words it, on an integer Likert
    value: [value' = 6 - value] when reversed, [deviation = value' - 3],
    [score = sign(deviation) * |deviation| ^ 1.2]. *)
Definition deviation_of (value : Z) (isReversed : bool) : Z :=
  ((if isReversed then 6 - value else value) - 3)%Z.

Definition ItemScore_spec (value : Z) (isReversed : bool) : R :=
  let deviation := deviation_of value isReversed in
  IZR (Z.sgn deviation)
  * (if Z.eq_dec deviation 0%Z then 0
     else Rpower (IZR (Z.abs deviation)) (12 / 10)).

(** The dimension of the question an answer is keyed by. *)
Definition dimensionOf (questions : list question) (i : nat) : option func :=
  Question.type <$> find (fun q => Nat.eqb (Question.id q) i) questions.

(** The sum, over the recorded answers whose question has dimension
    [d], of the item score of the stored value and stored flag. *)
Definition answersTotal (calculateScore : R -> bool -> R)
    (questions : list question) (recorded : gmap nat App.answer) (d : func) : R :=
  map_fold
    (fun i a acc =>
       if decide (dimensionOf questions i = Some d)
       then acc + calculateScore (App.value a) (App.isReverse a)
       else acc)
    0 recorded.

(** [clamp(x, lo, hi)]. *)
Definition clamp (x lo hi : R) : R := Rmax lo (Rmin hi x).

(** The scorers of the two revisions of [core.js], as the functions
    [app.js] calls. *)
Definition scoreCore : R -> bool -> R := Core.calculateScore.

Definition scoreRefactored : R -> bool -> R :=
  fun value isReverse => value_of (CoreRefactored.calculateScore value isReverse).

(** A three-question bank for examples. *)
Definition sampleBank : list question :=
  [ {| Question.id := 1; Question.text := "q1"; Question.type := Ni;
       Question.reverse := None |};
    {| Question.id := 2; Question.text := "q2"; Question.type := Te;
       Question.reverse := Some true |};
    {| Question.id := 3; Question.text := "q3"; Question.type := Ni;
       Question.reverse := Some false |} ].

(** The total of a stack as the specification words it:
    [sum over position of scoreVector[stack[position]] * weight[position]]. *)
Fixpoint weightedSum (scoreOf : func -> R) (stack : list func)
    (weight : list R) : R :=
  match stack, weight with
  | f :: stack', w :: weight' => scoreOf f * w + weightedSum scoreOf stack' weight'
  | _, _ => 0
  end.

Definition specWeights : list R := [4; 2; 1; 5 / 10].

(** Scores ranked in descending order. *)
Definition geScore (a b : string * R) : Prop := snd b <= snd a.

(** The sixteen totals as the specification words them; a missing
    dimension counts 0. *)
Definition totalsOf (scoreVector : scores_object)
    (stacks : list (string * list func)) : list (string * R) :=
  map (fun e => (fst e, weightedSum (fun f => default 0 (scoreVector f)) (snd e)
                          specWeights))
    stacks.

(** The raw confidence of the specification, before clamping and
    rounding. *)
Definition rawConfidence (top second : R) : R :=
  100 * ((top - second) / (Rabs top + Rabs second + 1 / 1000000)).

(** The mock vector of [smoke-test.js]. *)
Definition mockScores : scores_object :=
  fun f =>
    Some (match f with
          | Ni => 15 | Ne => -5 | Si => -10 | Se => -15
          | Ti => 10 | Te => 5 | Fi => -5 | Fe => 0
          end).

(** The all-zero vector of a fresh session. *)
Definition zeroScores : scores_object := fun _ => Some 0.

(** The accumulator invariant of the specification:
    [ScoreVector[d]] is the sum of the item scores of the recorded
    answers of dimension [d]. *)
Definition ScoreInvariant (calculateScore : R -> bool -> R)
    (questions : list question) (s : App.state) : Prop :=
  forall d : func,
    App.functionScores s d
    = answersTotal calculateScore questions (App.answers s) d.

(** Every recorded answer belongs to a question of the bank and carries
    that question's reversal flag. *)
Definition AnswersWellFormed (questions : list question) (s : App.state) : Prop :=
  forall i a,
    App.answers s !! i = Some a ->
    exists q, In q questions /\ Question.id q = i
              /\ App.isReverse a = default false (Question.reverse q).

(** The older session holds its two objects at the two addresses
    allocated for [defaultState], with contents [entries] and [scores]. *)
Definition LegacyShape (w : AppLegacy.world) (entries : gmap nat R)
    (scores : func -> R) : Prop :=
  AppLegacy.answers (AppLegacy.st w) = AppLegacy.answers_loc
  /\ AppLegacy.functionScores (AppLegacy.st w) = AppLegacy.scores_loc
  /\ AppLegacy.objects w !! AppLegacy.answers_loc
     = Some (AppLegacy.AnswersObject entries)
  /\ AppLegacy.objects w !! AppLegacy.scores_loc
     = Some (AppLegacy.ScoresObject scores).

(** The update of the two objects by the older [handleAnswer]. *)
Definition legacyEntries (q : question) (value : R) (entries : gmap nat R) :
    gmap nat R :=
  <[Question.id q := value]> entries.

Definition legacyScores (calculateScore : R -> bool -> R) (q : question)
    (value : R) (entries : gmap nat R) (scores : func -> R) : func -> R :=
  let scores1 :=
    match entries !! Question.id q with
    | Some old =>
        <[Question.type q := scores (Question.type q) - calculateScore old false]>
          scores
    | None => scores
    end in
  <[Question.type q := scores1 (Question.type q) + calculateScore value false]>
    scores1.


(** ** Further notions used to state properties of the session *)

(** One answered question after the other: each answer followed by its
    scheduled transition. *)
Definition answerInTurn (values : list R) : list App.event :=
  flat_map (fun v => [App.Answer v; App.TimerFires]) values.

(** The number of questions of the bank that measure function [d]. *)
Definition questionsOf (questions : list question) (d : func) : nat :=
  length (filter (fun q => Question.type q = d) questions).

(** The sum over the bank, question by question, of the item scores of
    the answers recorded for function [d]. *)
Definition bankTotal (calculateScore : R -> bool -> R)
    (questions : list question) (recorded : gmap nat App.answer) (d : func) : R :=
  foldr
    (fun q acc =>
       (if decide (Question.type q = d) then
          match recorded !! Question.id q with
          | Some a => calculateScore (App.value a) (App.isReverse a)
          | None => 0
          end
        else 0) + acc)
    0 questions.

(** The position is a valid index, and at most one transition is
    pending, only while [isProcessing] is set; a pending step forward
    has room to step. *)
Definition PositionInvariant (questions : list question) (w : App.world) : Prop :=
  (App.currentQuestion (App.st w) < length questions)%nat
  /\ (App.timers w = []
      \/ exists cb, App.timers w = [cb] /\ App.isProcessing w = true
                    /\ (cb = App.NextQuestion ->
                        (S (App.currentQuestion (App.st w)) < length questions)%nat)).


(** ** Helpers of the refactored [core.js] *)

Module CoreTools.

(** What the helpers print with [console.error]. *)
Inductive tool_msg : Type :=
  | InvalidType (targetType : string)   (* [generateMockScores] Invalid type *)
  | InvalidInput.                       (* [getDetailedFunctionScores] Invalid input *)

(** [COGNITIVE_STACKS[name]] for a key of the table itself: the stack
    under the key.  The names the table inherits are added in
    [propertyOf]. *)
Definition stackOf (name : string) : option (list func) :=
  snd <$> find (fun e => bool_decide (fst e = name)) COGNITIVE_STACKS.

(** [mockScores[stack[k]] = v]: with no function at position [k] the key
    written is not one of the eight. *)
Definition assignAt (stack : list func) (k : nat) (v : R) (m : func -> R) :
    func -> R :=
  match stack !! k with
  | Some f => <[f := v]> m
  | None => m
  end.

(** The names every object inherits from [Object.prototype]: the
    properties the language gives it, those of its Annex B included. *)
Definition ObjectPrototype : list string :=
  [ "constructor"; "hasOwnProperty"; "isPrototypeOf"; "propertyIsEnumerable";
    "toLocaleString"; "toString"; "valueOf"; "__proto__";
    "__defineGetter__"; "__defineSetter__"; "__lookupGetter__";
    "__lookupSetter__" ]%string.

(** [name in COGNITIVE_STACKS], with the value [COGNITIVE_STACKS[name]]
    when it holds.  The operator [in] also finds the inherited names;
    their values (functions, and the prototype itself) have nothing at
    the indices 0 to 3, like the empty stack. *)
Definition propertyOf (name : string) : option (list func) :=
  match stackOf name with
  | Some stack => Some stack
  | None => if bool_decide (name ∈ ObjectPrototype) then Some [] else None
  end.

(** [generateMockScores(targetType)]: [null] and an error for a name
    that [in] does not find.  The result is given on the eight function
    keys; an assignment through an index that holds no function writes
    the key [undefined] beside them. *)
Definition generateMockScores (targetType : string) :
    option (func -> R) * list tool_msg :=
  match propertyOf targetType with
  | None => (None, [InvalidType targetType])
  | Some stack =>
      let mockScores : func -> R := fun _ => 0 in
      let mockScores := assignAt stack 0 15 mockScores in
      let mockScores := assignAt stack 1 10 mockScores in
      let mockScores := assignAt stack 2 5 mockScores in
      let mockScores := assignAt stack 3 (-5) mockScores in
      (Some mockScores, [])
  end.

(** [FUNCTIONS]: the same literal in both revisions of [core.js]. *)
Record functionInfo := {
  infoName : string;
  infoFullName : string;
  infoDescription : string
}.

Definition FUNCTIONS (f : func) : functionInfo :=
  match f with
  | Ni => {| infoName := "Ni"; infoFullName := "内向的直観";
             infoDescription := "洞察と未来予測" |}
  | Ne => {| infoName := "Ne"; infoFullName := "外向的直観";
             infoDescription := "可能性の探求" |}
  | Si => {| infoName := "Si"; infoFullName := "内向的感覚";
             infoDescription := "経験と伝統" |}
  | Se => {| infoName := "Se"; infoFullName := "外向的感覚";
             infoDescription := "現在の体験" |}
  | Ti => {| infoName := "Ti"; infoFullName := "内向的思考";
             infoDescription := "論理的分析" |}
  | Te => {| infoName := "Te"; infoFullName := "外向的思考";
             infoDescription := "効率的実行" |}
  | Fi => {| infoName := "Fi"; infoFullName := "内向的感情";
             infoDescription := "個人的価値" |}
  | Fe => {| infoName := "Fe"; infoFullName := "外向的感情";
             infoDescription := "調和と共感" |}
  end.

(** [Number(x.toFixed(2))]: the nearest multiple of 0.01, a tie going
    away from zero ([toFixed] works on the absolute value and takes the
    larger candidate).  Below [1e21] in size, where [toFixed] prints
    fixed-point digits. *)
Definition toFixed2 (x : R) : R :=
  Math.sign x * (IZR (Math.floorZ (Math.abs x * 100 + / 2)) / 100).

(** One element of the result of [getDetailedFunctionScores].  The
    field [percentile] is the text of this number followed by the
    percent sign. *)
Record detail := {
  name : string;
  fullName : string;
  description : string;
  rawScore : R;
  normalizedScore : R;
  percentile : R;
  interpretation : string
}.

(** The callback of [map]: the entry [[funcName, rawScore]] of a
    function of the table. *)
Definition detailOf (entry : func * R) : detail :=
  let '(funcName, raw) := entry in
  let normalized := CoreRefactored.normalizeScore raw in
  let interpretation :=
    if Rle_dec 75 normalized then "非常に強い"
    else if Rle_dec 60 normalized then "強い"
    else if Rle_dec 40 normalized then "平均的"
    else if Rle_dec 25 normalized then "弱い"
    else "非常に弱い" in
  {| name := infoName (FUNCTIONS funcName);
     fullName := infoFullName (FUNCTIONS funcName);
     description := infoDescription (FUNCTIONS funcName);
     rawScore := toFixed2 raw;
     normalizedScore := normalized;
     percentile := normalized;
     interpretation := interpretation |}.

(** The comparator [(a, b) => b.normalizedScore - a.normalizedScore]. *)
Definition byNormalizedDesc (a b : detail) : R :=
  normalizedScore b - normalizedScore a.

(** [getDetailedFunctionScores(functionScores)]: the argument is either
    not an object ([None]) or an object given by its entries in
    insertion order. *)
Definition getDetailedFunctionScores (functionScores : option (list (func * R))) :
    list detail * list tool_msg :=
  match functionScores with
  | None => ([], [InvalidInput])
  | Some entries => (Array_sort byNormalizedDesc (map detailOf entries), [])
  end.

(** Values a key of an arbitrary object may hold, as far as
    [validateFunctionScores] tells them apart. *)
Inductive jsval : Type :=
  | JsNumber (x : R)              (* a finite number *)
  | JsNaN
  | JsInfinity (negative : bool)
  | JsNotNumber.                  (* [typeof] is not ['number'] *)

Inductive validation_error : Type :=
  | NotAnObject
  | MissingFunction (f : func)
  | NotANumber (f : func) (v : jsval)
  | NotFinite (f : func) (v : jsval).

Record validation := { isValid : bool; errors : list validation_error }.

Definition requiredFunctions : list func := [Ni; Ne; Si; Se; Ti; Te; Fi; Fe].

(** The body of the loop over [requiredFunctions]: at most one error
    for a function. *)
Definition checkFunction (fields : func -> option jsval) (f : func) :
    list validation_error :=
  match fields f with
  | None => [MissingFunction f]
  | Some JsNotNumber => [NotANumber f JsNotNumber]
  | Some JsNaN => [NotFinite f JsNaN]
  | Some (JsInfinity s) => [NotFinite f (JsInfinity s)]
  | Some (JsNumber _) => []
  end.

(** [validateFunctionScores(functionScores)]: [None] is an argument
    that is not an object. *)
Definition validateFunctionScores (functionScores : option (func -> option jsval)) :
    validation :=
  match functionScores with
  | None => {| isValid := false; errors := [NotAnObject] |}
  | Some fields =>
      let errors := flat_map (checkFunction fields) requiredFunctions in
      {| isValid := (length errors =? 0)%nat; errors := errors |}
  end.

End CoreTools.

(** A complete score object, every key present. *)
Definition scoresObject (scores : func -> R) : scores_object :=
  fun f => Some (scores f).

(** ** What the current [app.js] computes for display

    The rendering functions write markup; their models return the data
    that the markup interpolates. *)

Module AppView.

(** [mbtiDescriptions], the same literal in both revisions of
    [core.js]. *)
Definition mbtiDescriptions : list (string * (string * string)) :=
  [ ("INTJ", ("建築家", "戦略的思考と革新的な洞察力を持つ完璧主義者。"));
    ("INTP", ("論理学者", "知的好奇心に満ちた思考家。"));
    ("ENTJ", ("指揮官", "明確なビジョンを持ち組織を導くリーダー。"));
    ("ENTP", ("討論者", "創造的な発想で新しい可能性を追求する革新者。"));
    ("INFJ", ("提唱者", "理想主義で深い洞察を持つビジョナリー。"));
    ("INFP", ("仲介者", "誠実で情熱的な理想主義者。"));
    ("ENFJ", ("主人公", "人々を鼓舞し導くカリスマ的リーダー。"));
    ("ENFP", ("運動家", "自由で創造的、熱意あふれる探求者。"));
    ("ISTJ", ("管理者", "責任感が強く信頼できる実務家。"));
    ("ISFJ", ("擁護者", "温かく献身的な保護者。"));
    ("ESTJ", ("幹部", "組織化と効率を重んじる実践的リーダー。"));
    ("ESFJ", ("領事官", "社交的で思いやりのある世話役。"));
    ("ISTP", ("巨匠", "現実的で即応力のある問題解決者。"));
    ("ISFP", ("冒険家", "柔軟で芸術的な探求者。"));
    ("ESTP", ("起業家", "大胆で行動的な実践家。"));
    ("ESFP", ("エンターテイナー", "陽気で社交的なパフォーマー。")) ]%string.

(** [mbtiDescriptions[type]]. *)
Definition descriptionOf (type : string) : option (string * string) :=
  snd <$> find (fun e => bool_decide (fst e = type)) mbtiDescriptions.

Definition MIN_ANSWERS_FOR_PROVISIONAL : nat := 8.

(** [progressPercent()]. *)
Definition progressPercent (questions : list question) (s : App.state) : R :=
  if (length questions <=? 1)%nat then 100
  else
    Math.round
      ((INR (App.currentQuestion s) / (INR (length questions) - 1)) * 100).

(** [Object.entries(state.functionScores)]: the keys in the order of
    the literal of [createDefaultState]. *)
Definition scoreEntries (s : App.state) : list (func * R) :=
  map (fun f => (f, App.functionScores s f)) [Ni; Ne; Si; Se; Ti; Te; Fi; Fe].

(** The comparator [(a, b) => b.value - a.value]. *)
Definition byValueDesc (a b : func * R) : R := snd b - snd a.

(** [sortedScores], as [updateSidePanel] and [renderResult] build it. *)
Definition sortedScores (s : App.state) : list (func * R) :=
  Array_sort byValueDesc
    (map (fun e => (fst e, App.normalizeScore (snd e))) (scoreEntries s)).

(** What [updateSidePanel] shows. *)
Inductive panel : Type :=
  | AwaitingAnswers (progressPercent : R) (sortedScores : list (func * R))
      (answeredCount total : nat)
  | Provisional (provisionalType provisionalName : string)
      (progressPercent : R) (sortedScores : list (func * R)).

(** [updateSidePanel()], given that the panel element exists.  [None]
    stands for a TypeError: the classifier throwing, or a type without
    description. *)
Definition updateSidePanel (questions : list question) (s : App.state) :
    option panel :=
  let answeredCount := size (App.answers s) in
  let progressPercent :=
    Math.round
      ((INR (App.currentQuestion s)
        / Math.max 1 (INR (length questions) - 1)) * 100) in
  let sortedScores := sortedScores s in
  if (answeredCount <? MIN_ANSWERS_FOR_PROVISIONAL)%nat then
    Some (AwaitingAnswers progressPercent sortedScores answeredCount
            (length questions))
  else
    match Core.determineMBTIType (scoresObject (App.functionScores s))
            COGNITIVE_STACKS with
    | None => None
    | Some provisionalResult =>
        match descriptionOf (Core.type provisionalResult) with
        | None => None
        | Some provisionalDesc =>
            Some (Provisional (Core.type provisionalResult) (fst provisionalDesc)
                    progressPercent sortedScores)
        end
    end.

(** What [renderResult] interpolates into the result screen. *)
Record resultView := {
  mbtiType : string;
  typeName : string;
  typeDescription : string;
  shownConfidence : R;
  confidenceMessage : string;
  (** the "Alternative Type" card: type, name, description *)
  secondaryCard : option (string * string * string);
  (** one item per function of the stack: the rank label
      [['Primary', ...][index]] and [FUNCTIONS[f]] *)
  stackItems : list (option string * CoreTools.functionInfo);
  (** one card per function: key, value, [FUNCTIONS[key]] *)
  scoreCards : list (func * R * CoreTools.functionInfo)
}.

Definition rankLabels : list string :=
  ["Primary"; "Auxiliary"; "Tertiary"; "Inferior"]%string.

(** [renderResult(container)].  [None] stands for a TypeError: the
    classifier throwing, [desc.name] or [secondDesc.name] on a type
    without description, or [COGNITIVE_STACKS[mbtiType].map] on a type
    without stack. *)
Definition renderResult (s : App.state) : option resultView :=
  match Core.determineMBTIType (scoresObject (App.functionScores s))
          COGNITIVE_STACKS with
  | None => None
  | Some result =>
      let mbtiType := Core.type result in
      let confidence := Core.confidence result in
      let top2 := Core.top2 result in
      let desc := descriptionOf mbtiType in
      let secondDesc := descriptionOf (snd top2) in
      let confidenceMessage :=
        if Rle_dec 30 confidence
        then "診断結果に高い信頼性があります"%string
        else "複数のタイプの特性を持っています。次点タイプも参考にしてください"%string in
      let sortedScores :=
        Array_sort (fun a b => snd (fst b) - snd (fst a))
          (map (fun e => (fst e, App.normalizeScore (snd e),
                          CoreTools.FUNCTIONS (fst e)))
             (scoreEntries s)) in
      match desc with
      | None => None
      | Some desc =>
          let secondary :=
            if Rlt_dec confidence 30 then
              match secondDesc with
              | None => None
              | Some secondDesc =>
                  Some (Some (snd top2, fst secondDesc, snd secondDesc))
              end
            else Some None in
          match secondary, CoreTools.stackOf mbtiType with
          | Some secondaryCard, Some stack =>
              Some {| mbtiType := mbtiType;
                      typeName := fst desc;
                      typeDescription := snd desc;
                      shownConfidence := confidence;
                      confidenceMessage := confidenceMessage;
                      secondaryCard := secondaryCard;
                      stackItems :=
                        imap (fun index f =>
                                (rankLabels !! index, CoreTools.FUNCTIONS f))
                          stack;
                      scoreCards := sortedScores |}
          | _, _ => None
          end
      end
  end.

End AppView.

(** ** Question sequencer: the candidates of a run

    [fisherYatesShuffle] draws [length - 1] random numbers, so the
    candidate of attempt [n] (counted from 0; attempt 1000 is the
    fallback shuffle) starts at draw [n * (length - 1)]. *)
Definition candidateAt (rng : Sequencer.random_source)
    (questions : list question) (n : nat) : list question :=
  fst (Sequencer.fisherYatesShuffle rng questions (n * (length questions - 1))).

(** No two neighbours of the list have the same function. *)
Definition NoAdjacentSameType (l : list question) : Prop :=
  forall (i : nat) (a b : question),
    l !! i = Some a -> l !! S i = Some b -> Question.type b <> Question.type a.

(** The contract of [Math.random]: a number in [0, 1). *)
Definition RandomContract (rng : Sequencer.random_source) : Prop :=
  forall k : nat, 0 <= rng k < 1.

(** ** Keyboard navigation of the answer buttons, current [app.js]

    [options] stands for the buttons [.option] of the page in document
    order, each by [parseInt(btn.dataset.value)], [None] for [NaN].
    Indices are integers, [findIndex] answering [-1] when nothing
    matches. *)

Module AppKeys.

Inductive key : Type :=
  | ArrowUp | ArrowLeft | ArrowDown | ArrowRight
  | Enter | Space | Home | End_
  | OtherKey.

(** What the handler does after the [switch]. *)
Inductive outcome : Type :=
  | NotHandled                    (* [default: return], the event is left alone *)
  | Answered (value : Z)          (* [handleAnswer(currentValue, event)] *)
  | FocusMoved (nextIndex : nat)  (* [options[nextIndex].focus()], tabindex 0 there, -1 elsewhere *)
  | NoMove.                       (* [preventDefault()] and nothing else *)

Fixpoint findIndexFrom {A} (p : A -> bool) (l : list A) (i : Z) : Z :=
  match l with
  | [] => (-1)%Z
  | x :: l' => if p x then i else findIndexFrom p l' (i + 1)%Z
  end.

Definition findIndex {A} (p : A -> bool) (l : list A) : Z :=
  findIndexFrom p l 0%Z.

(** [options[nextIndex]]: [undefined] outside the array. *)
Definition at_index {A} (l : list A) (i : Z) : option A :=
  if (0 <=? i)%Z then l !! Z.to_nat i else None.

(** [if (nextIndex !== currentIndex && options[nextIndex]) ...]. *)
Definition move (options : list (option Z)) (currentIndex nextIndex : Z) :
    outcome :=
  if Z.eq_dec nextIndex currentIndex then NoMove
  else
    match at_index options nextIndex with
    | Some _ => FocusMoved (Z.to_nat nextIndex)
    | None => NoMove
    end.

Definition handleKeyboardNavigation (options : list (option Z)) (k : key)
    (currentValue : Z) : outcome :=
  let currentIndex :=
    findIndex (fun btn => bool_decide (btn = Some currentValue)) options in
  let length := Z.of_nat (length options) in
  match k with
  | ArrowUp | ArrowLeft =>
      move options currentIndex (Z.max 0 (currentIndex - 1))
  | ArrowDown | ArrowRight =>
      move options currentIndex (Z.min (length - 1) (currentIndex + 1))
  | Enter | Space => Answered currentValue
  | Home => move options currentIndex 0%Z
  | End_ => move options currentIndex (length - 1)%Z
  | OtherKey => NotHandled
  end.

(** The buttons that [renderQuestion] writes: [[1, 2, 3, 4, 5]]. *)
Definition renderedOptions : list (option Z) :=
  [Some 1; Some 2; Some 3; Some 4; Some 5]%Z.

End AppKeys.

(** ** The diagnostic report of the refactored [core.js] *)

Module CoreReport.

(** [functionScores[f]] on an object given by its entries. *)
Definition entryOf (entries : list (func * R)) : scores_object :=
  fun f => snd <$> find (fun e => bool_decide (fst e = f)) entries.

(** [table[name]] on an object given by its entries; the key [null]
    of a missing runner-up is under no name. *)
Definition lookupName {A} (table : list (string * A)) (name : option string) :
    option A :=
  match name with
  | Some n => snd <$> find (fun e => bool_decide (fst e = n)) table
  | None => None
  end.

(** An element of [report.typeScores]. *)
Record ranked := {
  rank : nat;
  rankedType : string;
  score : R;
  rankedDescription : string
}.

(** An element of [report.stackAnalysis.breakdown]; [None] is
    [undefined] for [position], [rawScore] and [weight], and [NaN] for
    the two scores computed from an [undefined]. *)
Record breakdownItem := {
  position : option string;
  itemFunction : func;
  itemFullName : string;
  itemRawScore : option R;
  itemNormalizedScore : option R;
  weight : option R;
  weightedScore : option R
}.

(** The report, its nested objects flattened: [result],
    [functionScores], [typeScores], [stackAnalysis] and
    [confidenceAnalysis] in this order.  The field [confidence] of
    [result] is the text of the number followed by the percent sign. *)
Record report := {
  timestamp : string;
  determinedType : string;
  confidence : R;
  secondBestType : option string;
  functionScores : list CoreTools.detail;
  typeScores : list ranked;
  stack : list func;
  breakdown : list breakdownItem;
  interpretation : string;
  firstTypeScore : option R;
  secondTypeScore : option R;
  scoreDifference : option R
}.

Definition positions : list string :=
  ["主機能"; "補助機能"; "第三機能"; "劣等機能"]%string.

(** [generateDiagnosticReport(functionScores, COGNITIVE_STACKS)] on an
    object of scores given by its entries; [now] is what
    [new Date().toISOString()] answers.  [None] stands for a TypeError:
    the classifier throwing, or [COGNITIVE_STACKS[result.type].map] on
    a type without stack. *)
Definition generateDiagnosticReport (now : string)
    (functionScores : list (func * R)) (COGNITIVE_STACKS : list (string * list func)) :
    option report :=
  match CoreRefactored.determineMBTIType (entryOf functionScores)
          COGNITIVE_STACKS with
  | None => None
  | Some result =>
      let detailedScores :=
        fst (CoreTools.getDetailedFunctionScores (Some functionScores)) in
      let first :=
        lookupName (CoreRefactored.typeScores result)
          (Some (fst (CoreRefactored.top2 result))) in
      let second :=
        lookupName (CoreRefactored.typeScores result)
          (snd (CoreRefactored.top2 result)) in
      match lookupName COGNITIVE_STACKS (Some (CoreRefactored.type result)) with
      | None => None
      | Some resultStack =>
          Some
            {| timestamp := now;
               determinedType := CoreRefactored.type result;
               confidence := CoreRefactored.confidence result;
               secondBestType := snd (CoreRefactored.top2 result);
               functionScores := detailedScores;
               typeScores :=
                 imap (fun index e =>
                         {| rank := index + 1;
                            rankedType := fst e;
                            score := CoreTools.toFixed2 (snd e);
                            rankedDescription :=
                              default ""%string
                                (fst <$> AppView.descriptionOf (fst e)) |})
                   (Array_sort byScoreDesc (CoreRefactored.typeScores result));
               stack := resultStack;
               breakdown :=
                 imap (fun index f =>
                         {| position := positions !! index;
                            itemFunction := f;
                            itemFullName :=
                              CoreTools.infoFullName (CoreTools.FUNCTIONS f);
                            itemRawScore := entryOf functionScores f;
                            itemNormalizedScore :=
                              CoreRefactored.normalizeScore
                                <$> entryOf functionScores f;
                            weight := CoreRefactored.stackWeights !! index;
                            weightedScore :=
                              match entryOf functionScores f,
                                    CoreRefactored.stackWeights !! index with
                              | Some s, Some w => Some (CoreTools.toFixed2 (s * w))
                              | _, _ => None
                              end |})
                   resultStack;
               interpretation :=
                 if Rle_dec 30 (CoreRefactored.confidence result)
                 then "診断結果に高い信頼性があります"%string
                 else "複数タイプの特性を持っています。次点タイプも参考にしてください"%string;
               firstTypeScore := first;
               secondTypeScore := second;
               scoreDifference :=
                 match first, second with
                 | Some a, Some b => Some (CoreTools.toFixed2 (a - b))
                 | _, _ => None
                 end |}
      end
  end.

End CoreReport.

(** ** The question screen and [render], current [app.js] *)

Module AppScreen.

Definition SCORE_LABELS : list (Z * string) :=
  [ (1, "全くそう思わない"); (2, "あまりそう思わない"); (3, "どちらともいえない");
    (4, "ややそう思う"); (5, "とてもそう思う") ]%Z%string.

(** [currentValue === v]; [currentValue] is [undefined] with no saved
    answer. *)
Definition sameValue (currentValue : option R) (v : Z) : bool :=
  match currentValue with
  | Some x => if Req_dec_T x (IZR v) then true else false
  | None => false
  end.

(** One answer button: [data-value], the class [selected] (and
    [aria-checked]), the label and [tabindex]. *)
Record optionView := {
  optionValue : Z;
  selected : bool;
  label : option string;
  tabindex : Z
}.

Record questionView := {
  questionNumber : nat;
  questionCount : nat;
  questionText : string;
  reverseMark : bool;
  options : list optionView;
  progress : R;
  funcCards : list (func * R);
  backButton : bool
}.

(** [renderQuestion(container)]: what the markup interpolates.  [None]
    stands for the TypeError of [q.id] with no question at the current
    position. *)
Definition renderQuestion (questions : list question) (s : App.state) :
    option questionView :=
  match questions !! App.currentQuestion s with
  | None => None
  | Some q =>
      let savedAnswer := App.answers s !! Question.id q in
      let currentValue := App.value <$> savedAnswer in
      Some
        {| questionNumber := App.currentQuestion s + 1;
           questionCount := length questions;
           questionText := Question.text q;
           reverseMark := default false (Question.reverse q);
           options :=
             imap (fun index v =>
                     {| optionValue := v;
                        selected := sameValue currentValue v;
                        label :=
                          snd <$> find (fun e => Z.eqb (fst e) v) SCORE_LABELS;
                        tabindex :=
                          if sameValue currentValue v then 0%Z
                          else
                            match currentValue, index with
                            | None, O => 0%Z
                            | _, _ => (-1)%Z
                            end |})
               [1; 2; 3; 4; 5]%Z;
           progress := AppView.progressPercent questions s;
           funcCards :=
             map (fun e => (fst e, App.normalizeScore (snd e)))
               (AppView.scoreEntries s);
           backButton := (0 <? App.currentQuestion s)%nat |}
  end.

(** What [render] puts on the page. *)
Inductive screen : Type :=
  | ResultScreen (result : AppView.resultView)
  | QuestionScreen (question : questionView) (sidePanel : AppView.panel).

(** [render()], given that the elements [#app] and [.summary] exist.
    The deferred pass over the buttons removes [selected] where the
    saved value differs from the button's, which is where
    [renderQuestion] has not set it. *)
Definition render (questions : list question) (s : App.state) : option screen :=
  if App.showResult s then ResultScreen <$> AppView.renderResult s
  else
    match renderQuestion questions s with
    | None => None
    | Some question =>
        match AppView.updateSidePanel questions s with
        | None => None
        | Some sidePanel => Some (QuestionScreen question sidePanel)
        end
    end.

End AppScreen.

(** ** The session over the arithmetic of the machine

    [handleAnswer] updates a score with [-=] and [+=] on JavaScript
    numbers, which are IEEE 754 binary64 values: every sum and
    difference is rounded to the nearest double.  Module [App] above
    reads the two operators as the exact operations of the reals.  Here
    the same code is given over an arithmetic that is a parameter, so
    that it can also be read over the doubles themselves and over the
    reals with a rounding after each operation. *)

Module Arith.

Record t := {
  num : Type;
  zero : num;
  add : num -> num -> num;
  sub : num -> num -> num
}.

(** The reals with the result of every operation rounded by [rnd]. *)
Definition rounded (rnd : R -> R) : t :=
  {| num := R; zero := 0;
     add := fun x y => rnd (x + y);
     sub := fun x y => rnd (x - y) |}.

(** The doubles: the kernel's binary64 numbers, whose addition and
    subtraction round to nearest, ties to even, as those of JavaScript
    do. *)
Definition binary64 : t :=
  {| num := float; zero := 0%float;
     add := PrimFloat.add; sub := PrimFloat.sub |}.

End Arith.

(** [Math] and the scorer of [core.js] on doubles. *)
Module Math64.

(** [Math.sign(x)]: [x] itself for a zero or NaN. *)
Definition sign (x : float) : float :=
  if PrimFloat.ltb x 0 then (-1)%float
  else if PrimFloat.ltb 0 x then 1%float
  else x.

Definition abs (x : float) : float := PrimFloat.abs x.

(** [Math.pow(x, 1.2)].  ECMAScript leaves the function to the
    implementation as an approximation; these are the doubles it
    returns on the three bases that the answers 1 to 5 give rise to:
    [0] and [1] are exact, and at [2] the double just below the real
    [2 ^ 1.2], which prints as 2.2973967099940698.  Other bases are not
    tabulated. *)
Definition pow_1_2 (x : float) : float :=
  if PrimFloat.eqb x 0 then 0%float
  else if PrimFloat.eqb x 1 then 1%float
  else if PrimFloat.eqb x 2 then 0x1.2611186bae674p+1%float
  else nan.

(** An integer below [2 ^ 53] in size as a double, exactly. *)
Definition ofZ (k : Z) : float :=
  if (k <? 0)%Z then PrimFloat.opp (PrimFloat.of_uint63 (Uint63.of_Z (- k)))
  else PrimFloat.of_uint63 (Uint63.of_Z k).

(** [Math.round(x)]: the integer nearest to [x], the greater of the two
    when [x] is halfway.  A finite double is [n * 2 ^ e] for integers
    [n] and [e]: with [e >= 0] it is an integer already, and otherwise
    [floor (x + 1/2)] is computed on the integers, without rounding.
    Zeros, infinities and NaN are returned as they are.  (JavaScript
    gives [-0] where this gives [0], for [x] in [[-0.5, 0)].) *)
Definition round (x : float) : float :=
  match Prim2SF x with
  | S754_finite s m e =>
      if (0 <=? e)%Z then x
      else
        let n := if s then Z.neg m else Z.pos m in
        ofZ ((2 * n + 2 ^ (- e)) / 2 ^ (1 - e))
  | _ => x
  end.

(** [Math.max(a, b)] and [Math.min(a, b)]: NaN if either is NaN. *)
Definition max (a b : float) : float :=
  if PrimFloat.is_nan a || PrimFloat.is_nan b then nan
  else if PrimFloat.ltb a b then b else a.

Definition min (a b : float) : float :=
  if PrimFloat.is_nan a || PrimFloat.is_nan b then nan
  else if PrimFloat.ltb b a then b else a.

End Math64.

Module Core64.

(** [calculateScore(value, isReverse = false)] of [core.js] on
    doubles. *)
Definition calculateScore (value : float) (isReverse : bool) : float :=
  let actualValue := if isReverse then PrimFloat.sub 6 value else value in
  let base := PrimFloat.sub actualValue 3 in
  let weight :=
    PrimFloat.mul (Math64.sign base) (Math64.pow_1_2 (Math64.abs base)) in
  weight.

End Core64.

(** [normalizeScore] of the current [app.js] on doubles: the
    subtraction, the division and the multiplication each round. *)
Module App64.

Definition SCORE_MIN : float := (-20)%float.
Definition SCORE_MAX : float := 20%float.

Definition normalizeScore (rawScore : float) : float :=
  Math64.max 0
    (Math64.min 100
       (Math64.round
          (PrimFloat.mul
             (PrimFloat.div (PrimFloat.sub rawScore SCORE_MIN)
                (PrimFloat.sub SCORE_MAX SCORE_MIN))
             100))).

End App64.

(** [handleAnswer], [nextStep], [goBack] and [reset] of the current
    [app.js], as in [App], over an arithmetic [A]. *)
Module Session.

Section WithArith.

Context (A : Arith.t).

(** An entry of [state.answers]: [{ value, isReverse }]. *)
Record answer := { value : Arith.num A; isReverse : bool }.

Record state := {
  currentQuestion : nat;
  answers : gmap nat answer;
  functionScores : func -> Arith.num A;
  showResult : bool
}.

(** [createDefaultState()]. *)
Definition createDefaultState : state :=
  {| currentQuestion := 0;
     answers := ∅;
     functionScores := fun _ => Arith.zero A;
     showResult := false |}.

Record world := {
  st : state;
  isProcessing : bool;
  timers : list App.callback
}.

Definition initial : world :=
  {| st := createDefaultState; isProcessing := false; timers := [] |}.

(** [oldAnswerData.value]. *)
Definition stored (oldAnswerData : answer) : Arith.num A := value oldAnswerData.

Variable calculateScore : Arith.num A -> bool -> Arith.num A.

(** Lines 142 to 166 of [handleAnswer]:
    [state.functionScores[funcType] -= oldScore] when the question
    already has an answer, then
    [state.functionScores[funcType] += delta]. *)
Definition recordAnswer (question : question) (value : Arith.num A)
    (s : state) : state :=
  let funcType := Question.type question in
  let isReverse := default false (Question.reverse question) in
  let oldAnswer := answers s !! Question.id question in
  let scores1 :=
    match oldAnswer with
    | Some oldAnswerData =>
        let oldScore := calculateScore (stored oldAnswerData) isReverse in
        <[funcType := Arith.sub A (functionScores s funcType) oldScore]>
          (functionScores s)
    | None => functionScores s
    end in
  let delta := calculateScore value isReverse in
  let answers' :=
    <[Question.id question := {| value := value; isReverse := isReverse |}]>
      (answers s) in
  {| currentQuestion := currentQuestion s;
     answers := answers';
     functionScores :=
       <[funcType := Arith.add A (scores1 funcType) delta]> scores1;
     showResult := showResult s |}.

Variable questions : list question.

Definition handleAnswer (value : Arith.num A) (w : world) : world :=
  if isProcessing w then w
  else
    match questions !! currentQuestion (st w) with
    | None => {| st := st w; isProcessing := true; timers := timers w |}
    | Some question =>
        let s := recordAnswer question value (st w) in
        let cb :=
          if (currentQuestion s <? length questions - 1)%nat
          then App.NextQuestion else App.ShowResult in
        {| st := s; isProcessing := true; timers := timers w ++ [cb] |}
    end.

Definition runCallback (cb : App.callback) (s : state) : state :=
  match cb with
  | App.NextQuestion =>
      {| currentQuestion := S (currentQuestion s); answers := answers s;
         functionScores := functionScores s; showResult := showResult s |}
  | App.ShowResult =>
      {| currentQuestion := currentQuestion s; answers := answers s;
         functionScores := functionScores s; showResult := true |}
  end.

Definition timerFires (w : world) : world :=
  match timers w with
  | [] => w
  | cb :: rest =>
      {| st := runCallback cb (st w); isProcessing := false; timers := rest |}
  end.

Definition goBack (w : world) : world :=
  if (0 <? currentQuestion (st w))%nat && negb (isProcessing w) then
    {| st := {| currentQuestion := currentQuestion (st w) - 1;
                answers := answers (st w);
                functionScores := functionScores (st w);
                showResult := showResult (st w) |};
       isProcessing := isProcessing w; timers := timers w |}
  else w.

Definition reset (w : world) : world :=
  {| st := createDefaultState; isProcessing := isProcessing w;
     timers := timers w |}.

Inductive event : Type :=
  | Answer (value : Arith.num A)
  | TimerFires
  | GoBack
  | Reset.

Definition step (w : world) (e : event) : world :=
  match e with
  | Answer value => handleAnswer value w
  | TimerFires => timerFires w
  | GoBack => goBack w
  | Reset => reset w
  end.

Definition run (es : list event) : world :=
  fold_left step es initial.

End WithArith.

Arguments value {A} _.
Arguments stored {A} _.
Arguments isReverse {A} _.
Arguments currentQuestion {A} _.
Arguments answers {A} _.
Arguments functionScores {A} _.
Arguments showResult {A} _.
Arguments st {A} _.
Arguments isProcessing {A} _.
Arguments timers {A} _.
Arguments Answer {A} _.
Arguments TimerFires {A}.
Arguments GoBack {A}.
Arguments Reset {A}.

End Session.

(** ** Notions used to state how rounding affects the scores *)



(** A bank of eight questions of one function, none reversed: the
    number of questions per function that the comment on [SCORE_MIN]
    assumes. *)
Definition bankOfEight : list question :=
  map (fun i => {| Question.id := i; Question.text := "q";
                   Question.type := Ni; Question.reverse := None |})
    [1; 2; 3; 4; 5; 6; 7; 8]%nat.




(** A rounding of relative error at most [u]: for binary64 addition
    and subtraction [u] is [2 ^ -53], short of overflow. *)
Definition RoundsWithin (u : R) (rnd : R -> R) : Prop :=
  forall x : R, Rabs (rnd x - x) <= u * Rabs x.

(** The error that [k] roundings of relative error [u] can add up to
    on quantities of size at most [M]. *)
Definition roundingError (u : R) (k : nat) (M : R) : R :=
  ((1 + u) ^ k - 1) * M.

(** A session over rounded reals, read in [App]. *)
Definition toAppAnswer {rnd : R -> R} (a : Session.answer (Arith.rounded rnd)) :
    App.answer :=
  {| App.value := Session.value a; App.isReverse := Session.isReverse a |}.

Definition toAppEvent {rnd : R -> R}
    (e : Session.event (Arith.rounded rnd)) : App.event :=
  match e with
  | Session.Answer value => App.Answer value
  | Session.TimerFires => App.TimerFires
  | Session.GoBack => App.GoBack
  | Session.Reset => App.Reset
  end.

(** Two sessions agree on everything but the scores. *)
Definition ShapeAgrees {rnd : R -> R} (ws : Session.world (Arith.rounded rnd))
    (wa : App.world) : Prop :=
  Session.currentQuestion (Session.st ws) = App.currentQuestion (App.st wa)
  /\ Session.showResult (Session.st ws) = App.showResult (App.st wa)
  /\ toAppAnswer <$> Session.answers (Session.st ws) = App.answers (App.st wa)
  /\ Session.isProcessing ws = App.isProcessing wa
  /\ Session.timers ws = App.timers wa.

(** The exact sum of the item scores of the recorded answers of
    function [d]. *)
Definition recordedTotal {rnd : R -> R} (calculateScore : R -> bool -> R)
    (questions : list question)
    (recorded : gmap nat (Session.answer (Arith.rounded rnd))) (d : func) : R :=
  answersTotal calculateScore questions (toAppAnswer <$> recorded) d.


(** The questions answered in turn, none of them twice: each answer
    followed by its transition. *)
Definition answeredInTurn {A : Arith.t} (values : list (Arith.num A)) :
    list (Session.event A) :=
  flat_map (fun v => [Session.Answer v; Session.TimerFires]) values.


(** The Likert values as doubles, and the sessions of [n] answers in
    turn over them. *)
Definition likert64 : list float := [1; 2; 3; 4; 5]%float.

Fixpoint valuesOfLength (n : nat) : list (list float) :=
  match n with
  | O => [[]]
  | S n' => flat_map (fun vs => map (fun v => v :: vs) likert64)
              (valuesOfLength n')
  end.

(** Recording [v] twice for question [q] gives the score that recording
    it once gives. *)
Definition sameTwice (q : question) (s : Session.state Arith.binary64)
    (v : float) : bool :=
  let record :=
    Session.recordAnswer Arith.binary64 Core64.calculateScore q in
  PrimFloat.eqb
    (Session.functionScores (record v (record v s)) (Question.type q))
    (Session.functionScores (record v s) (Question.type q)).

(** The same for every session of [n] answers in turn on
    [bankOfEight], for the question the session has reached and for the
    first question, which it has answered. *)
Definition sameTwiceAfter (n : nat) : bool :=
  forallb
    (fun vs =>
       let s := Session.st (Session.run Arith.binary64 Core64.calculateScore
                              bankOfEight (answeredInTurn vs)) in
       forallb
         (fun q => forallb (sameTwice q s) likert64)
         (match bankOfEight !! Session.currentQuestion s, bankOfEight !! 0%nat with
          | Some q, Some q0 => [q; q0]
          | _, _ => []
          end))
    (valuesOfLength n).

(** A rounding for examples: every result comes out an eighth too
    large in size. *)
Definition inflate (x : R) : R := x + x / 8.



(** ** The older sessions against the current one *)

(** A question without its reversal flag, as the banks of the older
    revisions have them, and a bank of such questions. *)
Definition withoutFlag (q : question) : question :=
  {| Question.id := Question.id q;
     Question.text := Question.text q;
     Question.type := Question.type q;
     Question.reverse := None |}.

Definition withoutFlags (questions : list question) : list question :=
  withoutFlag <$> questions.

(** An event of the older session as an event of the current one. *)
Definition currentEvent (e : AppLegacy.event) : App.event :=
  match e with
  | AppLegacy.Answer value => App.Answer value
  | AppLegacy.TimerFires => App.TimerFires
  | AppLegacy.GoBack => App.GoBack
  | AppLegacy.Reset => App.Reset
  end.

Definition currentCallback (cb : AppLegacy.callback) : App.callback :=
  match cb with
  | AppLegacy.NextQuestion => App.NextQuestion
  | AppLegacy.ShowResult => App.ShowResult
  end.

(** The older session [wl] and the current session [wa] are at the same
    point: same position and flags, same pending transitions, the same
    values recorded and the same scores. *)
Definition SamePoint (wl : AppLegacy.world) (wa : App.world) : Prop :=
  AppLegacy.currentQuestion (AppLegacy.st wl) = App.currentQuestion (App.st wa)
  /\ AppLegacy.showResult (AppLegacy.st wl) = App.showResult (App.st wa)
  /\ AppLegacy.isProcessing wl = App.isProcessing wa
  /\ map currentCallback (AppLegacy.timers wl) = App.timers wa
  /\ exists scores,
       LegacyShape wl (App.value <$> App.answers (App.st wa)) scores
       /\ forall d, scores d = App.functionScores (App.st wa) d.

(** * Properties *)

(** ** Facts about the [Math] model *)

Lemma floorZ_spec (x : R) : IZR (Math.floorZ x) <= x < IZR (Math.floorZ x) + 1.
Proof.
  unfold Math.floorZ. rewrite minus_IZR.
  destruct (archimed x) as [H1 H2]. lra.
Qed.

Lemma floorZ_unique (x : R) (z : Z) : IZR z <= x < IZR z + 1 -> Math.floorZ x = z.
Proof.
  intros [H1 H2]. destruct (floorZ_spec x) as [H3 H4].
  assert (Hlt1 : IZR (Math.floorZ x) < IZR (z + 1)) by (rewrite plus_IZR; lra).
  assert (Hlt2 : IZR z < IZR (Math.floorZ x + 1)) by (rewrite plus_IZR; lra).
  apply lt_IZR in Hlt1, Hlt2. lia.
Qed.

Lemma floorZ_IZR (z : Z) : Math.floorZ (IZR z) = z.
Proof. apply floorZ_unique. lra. Qed.

Lemma roundZ_IZR (z : Z) : Math.roundZ (IZR z) = z.
Proof. unfold Math.roundZ. apply floorZ_unique. lra. Qed.

Lemma round_IZR (z : Z) : Math.round (IZR z) = IZR z.
Proof. unfold Math.round. now rewrite roundZ_IZR. Qed.

Lemma floorZ_mono (x y : R) : x <= y -> (Math.floorZ x <= Math.floorZ y)%Z.
Proof.
  intros Hxy. destruct (floorZ_spec x) as [H1 _], (floorZ_spec y) as [_ H2].
  assert (Hlt : IZR (Math.floorZ x) < IZR (Math.floorZ y + 1))
    by (rewrite plus_IZR; lra).
  apply lt_IZR in Hlt. lia.
Qed.

Lemma roundZ_mono (x y : R) : x <= y -> (Math.roundZ x <= Math.roundZ y)%Z.
Proof. intros Hxy. unfold Math.roundZ. apply floorZ_mono. lra. Qed.

Lemma isInteger_IZR (z : Z) : Math.isInteger (IZR z) = true.
Proof.
  unfold Math.isInteger. rewrite floorZ_IZR.
  destruct (Req_dec_T (IZR z) (IZR z)); [reflexivity | contradiction].
Qed.

Lemma isInteger_true (x : R) : Math.isInteger x = true -> exists z : Z, x = IZR z.
Proof.
  unfold Math.isInteger. destruct (Req_dec_T x (IZR (Math.floorZ x))) as [E | _].
  - intros _. now exists (Math.floorZ x).
  - discriminate.
Qed.

Lemma sign_pos (x : R) : 0 < x -> Math.sign x = 1.
Proof.
  intros Hx. unfold Math.sign.
  destruct (total_order_T x 0) as [[Hlt | Heq] | Hgt]; lra.
Qed.

Lemma sign_neg (x : R) : x < 0 -> Math.sign x = -1.
Proof.
  intros Hx. unfold Math.sign.
  destruct (total_order_T x 0) as [[Hlt | Heq] | Hgt]; lra.
Qed.

Lemma sign_zero : Math.sign 0 = 0.
Proof.
  unfold Math.sign.
  destruct (total_order_T 0 0) as [[Hlt | Heq] | Hgt]; lra.
Qed.

Lemma pow_zero (y : R) : Math.pow 0 y = 0.
Proof.
  unfold Math.pow. destruct (Req_dec_T 0 0); [reflexivity | contradiction].
Qed.

Lemma pow_pos (x y : R) : 0 < x -> Math.pow x y = Rpower x y /\ 0 < Math.pow x y.
Proof.
  intros Hx. unfold Math.pow.
  destruct (Req_dec_T x 0) as [E | _]; [lra |].
  split; [reflexivity | apply exp_pos].
Qed.


Lemma sign_values (x : R) :
  (x < 0 /\ Math.sign x = -1) \/ (x = 0 /\ Math.sign x = 0) \/ (0 < x /\ Math.sign x = 1).
Proof.
  destruct (total_order_T x 0) as [[Hlt | Heq] | Hgt].
  - left. split; [assumption | now apply sign_neg].
  - right; left. subst. split; [reflexivity | apply sign_zero].
  - right; right. split; [assumption | now apply sign_pos].
Qed.

(** ** Item scorer *)

(** The score of [core.js] on any real: zero at the midpoint, otherwise
    the real power of the distance with the sign of the deviation. *)
Lemma core_calculateScore_cases (value : R) (isReverse : bool) :
  let base := (if isReverse then 6 - value else value) - 3 in
  (base < 0 /\ Core.calculateScore value isReverse = - Rpower (- base) (12 / 10))
  \/ (base = 0 /\ Core.calculateScore value isReverse = 0)
  \/ (0 < base /\ Core.calculateScore value isReverse = Rpower base (12 / 10)).
Proof.
  intros base. unfold Core.calculateScore. fold base.
  destruct (sign_values base) as [[Hb Hs] | [[Hb Hs] | [Hb Hs]]]; rewrite Hs.
  - left. split; [assumption |].
    unfold Math.abs. rewrite Rabs_left by assumption.
    destruct (pow_pos (- base) (12 / 10)) as [-> _]; lra.
  - right; left. split; [assumption |]. lra.
  - right; right. split; [assumption |].
    unfold Math.abs. rewrite Rabs_right by lra.
    destruct (pow_pos base (12 / 10)) as [-> _]; lra.
Qed.

Lemma isValidLikertValue_IZR (z : Z) :
  (1 <= z <= 5)%Z -> CoreRefactored.isValidLikertValue (IZR z) = true.
Proof.
  intros [H1 H5]. unfold CoreRefactored.isValidLikertValue.
  rewrite isInteger_IZR.
  apply IZR_le in H1, H5.
  destruct (Rle_dec 1 (IZR z)); [| contradiction].
  destruct (Rle_dec (IZR z) 5); [reflexivity | contradiction].
Qed.

Lemma isValidLikertValue_true (value : R) :
  CoreRefactored.isValidLikertValue value = true ->
  exists z : Z, value = IZR z /\ (1 <= z <= 5)%Z.
Proof.
  unfold CoreRefactored.isValidLikertValue. intros H.
  apply andb_prop in H as [H H5]. apply andb_prop in H as [Hi H1].
  apply isInteger_true in Hi as [z ->]. exists z. split; [reflexivity |].
  destruct (Rle_dec 1 (IZR z)) as [L1 | ]; [| discriminate].
  destruct (Rle_dec (IZR z) 5) as [L5 | ]; [| discriminate].
  apply le_IZR in L1, L5. lia.
Qed.

(** On a valid value the refactored scorer logs nothing and agrees
    with [core.js]. *)
Lemma refactored_valid (z : Z) (isReverse : bool) :
  (1 <= z <= 5)%Z ->
  CoreRefactored.calculateScore (IZR z) isReverse
  = ret (Core.calculateScore (IZR z) isReverse).
Proof.
  intros Hz. unfold CoreRefactored.calculateScore.
  rewrite isValidLikertValue_IZR by assumption. reflexivity.
Qed.

Lemma core_matches_spec (z : Z) (isReverse : bool) :
  (1 <= z <= 5)%Z ->
  Core.calculateScore (IZR z) isReverse = ItemScore_spec z isReverse.
Proof.
  intros Hz. unfold ItemScore_spec.
  assert (Hbase : (if isReverse then 6 - IZR z else IZR z) - 3
                  = IZR (deviation_of z isReverse)).
  { unfold deviation_of. destruct isReverse; rewrite !minus_IZR; reflexivity. }
  pose proof (core_calculateScore_cases (IZR z) isReverse) as Hc.
  cbv zeta in Hc. rewrite Hbase in Hc.
  set (d := deviation_of z isReverse) in *.
  destruct Hc as [[Hb ->] | [[Hb ->] | [Hb ->]]].
  - apply lt_IZR in Hb.
    destruct (Z.eq_dec d 0%Z) as [E | _]; [lia |].
    rewrite Z.sgn_neg by assumption. rewrite Z.abs_neq by lia.
    rewrite opp_IZR. lra.
  - apply eq_IZR in Hb. rewrite Hb. cbn. lra.
  - apply lt_IZR in Hb.
    destruct (Z.eq_dec d 0%Z) as [E | _]; [lia |].
    rewrite Z.sgn_pos by assumption. rewrite Z.abs_eq by lia. lra.
Qed.


(** The two nonzero magnitudes: [1 ^ 1.2 = 1] and [2 ^ 1.2], about 2.297. *)
Lemma Rpower_one (y : R) : Rpower 1 y = 1.
Proof. unfold Rpower. now rewrite ln_1, Rmult_0_r, exp_0. Qed.

Lemma Rpower_two_bounds : 2297 / 1000 < Rpower 2 (12 / 10) < 2298 / 1000.
Proof.
  set (c := Rpower 2 (12 / 10)).
  assert (Hc : 0 < c) by apply exp_pos.
  assert (H5 : c ^ 5 = 64).
  { rewrite <- (Rpower_pow 5 c Hc). unfold c. rewrite Rpower_mult.
    replace (12 / 10 * INR 5) with (INR 6) by (simpl; lra).
    rewrite Rpower_pow by lra. simpl. lra. }
  split.
  - destruct (Rlt_le_dec (2297 / 1000) c) as [H | H]; [exact H | exfalso].
    assert (Hle : c ^ 5 <= (2297 / 1000) ^ 5) by (apply pow_incr; lra).
    rewrite H5 in Hle. simpl in Hle. lra.
  - destruct (Rlt_le_dec c (2298 / 1000)) as [H | H]; [exact H | exfalso].
    assert (Hle : (2298 / 1000) ^ 5 <= c ^ 5) by (apply pow_incr; lra).
    rewrite H5 in Hle. simpl in Hle. lra.
Qed.

(** The five scores of [core.js], and reversal as the mirror image:
    the order and antisymmetry of the specification's first two testable
    properties. *)
Lemma core_calculateScore_table :
  Core.calculateScore 1 false = - Rpower 2 (12 / 10)
  /\ Core.calculateScore 2 false = -1
  /\ Core.calculateScore 3 false = 0
  /\ Core.calculateScore 4 false = 1
  /\ Core.calculateScore 5 false = Rpower 2 (12 / 10)
  /\ (forall value : R,
        Core.calculateScore value true = Core.calculateScore (6 - value) false).
Proof.
  assert (Hlow : forall v : R, v < 3 ->
             Core.calculateScore v false = - Rpower (3 - v) (12 / 10)).
  { intros v Hv.
    destruct (core_calculateScore_cases v false)
      as [[Hb E] | [[Hb E] | [Hb E]]]; cbv zeta in *; try lra.
    rewrite E. replace (- (v - 3)) with (3 - v) by lra. reflexivity. }
  assert (Hhigh : forall v : R, 3 < v ->
             Core.calculateScore v false = Rpower (v - 3) (12 / 10)).
  { intros v Hv.
    destruct (core_calculateScore_cases v false)
      as [[Hb E] | [[Hb E] | [Hb E]]]; cbv zeta in *; lra. }
  split; [rewrite Hlow by lra; replace (3 - 1) with 2 by lra; reflexivity |].
  split; [rewrite Hlow by lra; replace (3 - 2) with 1 by lra;
          now rewrite Rpower_one |].
  split; [destruct (core_calculateScore_cases 3 false)
            as [[Hb _] | [[_ E] | [Hb _]]]; cbv zeta in *; [lra | exact E | lra] |].
  split; [rewrite Hhigh by lra; replace (4 - 3) with 1 by lra;
          now rewrite Rpower_one |].
  split; [rewrite Hhigh by lra; replace (5 - 3) with 2 by lra; reflexivity |].
  intros value. reflexivity.
Qed.

(** C3.  On every integer Likert value in [1,5] and every reversal flag,
    both revisions of the item scorer return
    [sign(deviation) * |deviation| ^ 1.2] with
    [deviation = (reversed ? 6 - value : value) - 3]; the refactored one
    logs nothing; a deviation of 0 gives exactly 0, and the sign of the
    result is the sign of the deviation. *)
Theorem C3_item_score_formula (value : Z) (isReversed : bool) :
  (1 <= value <= 5)%Z ->
  Core.calculateScore (IZR value) isReversed = ItemScore_spec value isReversed
  /\ CoreRefactored.calculateScore (IZR value) isReversed
     = (ItemScore_spec value isReversed, [])
  /\ (deviation_of value isReversed = 0%Z ->
      Core.calculateScore (IZR value) isReversed = 0)
  /\ Math.sign (Core.calculateScore (IZR value) isReversed)
     = IZR (Z.sgn (deviation_of value isReversed)).
Proof.
  intros Hz.
  rewrite refactored_valid by assumption.
  rewrite core_matches_spec by assumption.
  split; [reflexivity |]. split; [reflexivity |].
  unfold ItemScore_spec.
  set (d := deviation_of value isReversed).
  destruct (Z.eq_dec d 0%Z) as [E | NE].
  - split; [intros _; lra |].
    rewrite E. cbn. rewrite Rmult_0_l. apply sign_zero.
  - split; [intros E; contradiction |].
    assert (Hp : 0 < Rpower (IZR (Z.abs d)) (12 / 10)) by apply exp_pos.
    destruct (Z.lt_total d 0) as [Hlt | [Heq | Hgt]]; [| contradiction |].
    + rewrite Z.sgn_neg by assumption. apply sign_neg.
      replace (IZR (-1)) with (-1) by reflexivity. lra.
    + rewrite Z.sgn_pos by lia. apply sign_pos.
      replace (IZR 1) with 1 by reflexivity. lra.
Qed.

Lemma C3_item_score_formula_witness :
  (1 <= 5 <= 5)%Z
  /\ Core.calculateScore (IZR 5) false = ItemScore_spec 5 false
  /\ CoreRefactored.calculateScore (IZR 5) false = (ItemScore_spec 5 false, [])
  /\ (deviation_of 5 false = 0%Z -> Core.calculateScore (IZR 5) false = 0)
  /\ Math.sign (Core.calculateScore (IZR 5) false)
     = IZR (Z.sgn (deviation_of 5 false)).
Proof.
  split; [lia |]. apply (C3_item_score_formula 5 false). lia.
Defined.

(** The refactored scorer on an invalid value: the error is reported and
    the score is exactly 0. *)
Lemma refactored_invalid_value (value : R) (isReverse : bool) :
  ~ (exists z : Z, value = IZR z /\ (1 <= z <= 5)%Z) ->
  CoreRefactored.calculateScore value isReverse = (0, [InvalidLikertValue value]).
Proof.
  intros Hinv. unfold CoreRefactored.calculateScore.
  destruct (CoreRefactored.isValidLikertValue value) eqn:Hv.
  - exfalso. apply Hinv. now apply isValidLikertValue_true.
  - reflexivity.
Qed.

(** C2, on [core.js].  The scorer of [core.js] does not validate: on the
    out-of-range value 7 it reports nothing and returns [4 ^ 1.2], which
    is not 0; the same on the non-integer 3.5, scored [0.5 ^ 1.2]. *)
Theorem C2_core_scores_invalid_value :
  Core.calculateScore 7 false = Rpower 4 (12 / 10)
  /\ Core.calculateScore 7 false <> 0
  /\ Core.calculateScore (35 / 10) false = Rpower (5 / 10) (12 / 10)
  /\ Core.calculateScore (35 / 10) false <> 0
  /\ CoreRefactored.calculateScore 7 false = (0, [InvalidLikertValue 7])
  /\ CoreRefactored.calculateScore (35 / 10) false
     = (0, [InvalidLikertValue (35 / 10)]).
Proof.
  assert (H7 : Core.calculateScore 7 false = Rpower 4 (12 / 10)).
  { destruct (core_calculateScore_cases 7 false) as [[Hb _] | [[Hb _] | [_ ->]]];
      [lra | lra |]. f_equal. lra. }
  assert (H35 : Core.calculateScore (35 / 10) false = Rpower (5 / 10) (12 / 10)).
  { destruct (core_calculateScore_cases (35 / 10) false)
      as [[Hb _] | [[Hb _] | [_ ->]]]; [lra | lra |]. f_equal. lra. }
  split; [exact H7 |]. split.
  { rewrite H7. apply Rgt_not_eq, exp_pos. }
  split; [exact H35 |]. split.
  { rewrite H35. apply Rgt_not_eq, exp_pos. }
  split.
  - apply refactored_invalid_value. intros [z [Hz Hr]].
    replace 7 with (IZR 7) in Hz by reflexivity. apply eq_IZR in Hz. lia.
  - apply refactored_invalid_value. intros [z [Hz Hr]].
    assert (H1 : IZR 3 < IZR z) by (rewrite <- Hz; simpl; lra).
    assert (H2 : IZR z < IZR 4) by (rewrite <- Hz; simpl; lra).
    apply lt_IZR in H1, H2. lia.
Qed.

(** ** Rounding and clamping *)

Lemma clamp_cases (x lo hi : R) :
  lo <= hi ->
  (x <= lo /\ clamp x lo hi = lo)
  \/ (lo <= x <= hi /\ clamp x lo hi = x)
  \/ (hi <= x /\ clamp x lo hi = hi).
Proof.
  intros Hlh. unfold clamp.
  destruct (Rle_dec x lo) as [Hxl | Hxl].
  - left. split; [assumption |].
    rewrite (Rmin_right hi x) by lra. now rewrite Rmax_left.
  - destruct (Rle_dec x hi) as [Hxh | Hxh].
    + right; left. split; [lra |].
      rewrite (Rmin_right hi x) by lra. rewrite Rmax_right; lra.
    + right; right. split; [lra |].
      rewrite (Rmin_left hi x) by lra. now rewrite Rmax_right.
Qed.

Lemma clamp_bounds (x lo hi : R) : lo <= hi -> lo <= clamp x lo hi <= hi.
Proof.
  intros Hlh.
  destruct (clamp_cases x lo hi Hlh) as [[H ->] | [[H ->] | [H ->]]]; lra.
Qed.

(** Rounding commutes with clamping to integer bounds: the two
    normalizers, and the two ways of writing the confidence, agree. *)
Lemma round_clamp (x : R) (lo hi : Z) :
  (lo <= hi)%Z ->
  clamp (Math.round x) (IZR lo) (IZR hi) = Math.round (clamp x (IZR lo) (IZR hi)).
Proof.
  intros Hlh. assert (Hlh' : IZR lo <= IZR hi) by now apply IZR_le.
  unfold Math.round.
  destruct (clamp_cases x (IZR lo) (IZR hi) Hlh') as [[H ->] | [[H ->] | [H ->]]].
  - rewrite roundZ_IZR.
    apply roundZ_mono in H. rewrite roundZ_IZR in H. apply IZR_le in H.
    destruct (clamp_cases (IZR (Math.roundZ x)) (IZR lo) (IZR hi) Hlh')
      as [[H' ->] | [[H' ->] | [H' ->]]]; lra.
  - destruct H as [H1 H2].
    apply roundZ_mono in H1, H2. rewrite roundZ_IZR in H1, H2.
    apply IZR_le in H1, H2.
    destruct (clamp_cases (IZR (Math.roundZ x)) (IZR lo) (IZR hi) Hlh')
      as [[H' ->] | [[H' ->] | [H' ->]]]; lra.
  - rewrite roundZ_IZR.
    apply roundZ_mono in H. rewrite roundZ_IZR in H. apply IZR_le in H.
    destruct (clamp_cases (IZR (Math.roundZ x)) (IZR lo) (IZR hi) Hlh')
      as [[H' ->] | [[H' ->] | [H' ->]]]; lra.
Qed.

Lemma round_clamp_range (x : R) (lo hi : Z) :
  (lo <= hi)%Z ->
  (lo <= Math.roundZ (clamp x (IZR lo) (IZR hi)) <= hi)%Z.
Proof.
  intros Hlh. assert (Hlh' : IZR lo <= IZR hi) by now apply IZR_le.
  destruct (clamp_bounds x (IZR lo) (IZR hi) Hlh') as [H1 H2].
  apply roundZ_mono in H1, H2. rewrite roundZ_IZR in H1, H2. lia.
Qed.

(** ** Score normalizer *)

Lemma app_normalizeScore_eq (rawScore : R) :
  App.normalizeScore rawScore
  = Math.round (clamp ((rawScore + 20) / 40 * 100) 0 100).
Proof.
  unfold App.normalizeScore, App.SCORE_MIN, App.SCORE_MAX, Math.max, Math.min.
  replace ((rawScore - -20) / (20 - -20) * 100) with ((rawScore + 20) / 40 * 100)
    by (unfold Rdiv; replace (20 - -20) with 40 by lra; lra).
  rewrite <- (round_clamp _ 0 100) by lia. reflexivity.
Qed.

Lemma refactored_normalizeScore_eq (rawScore : R) :
  CoreRefactored.normalizeScore rawScore
  = Math.round (clamp ((rawScore + 20) / 40 * 100) 0 100).
Proof.
  unfold CoreRefactored.normalizeScore, CoreRefactored.SCORE_NORMALIZATION_MIN,
    CoreRefactored.SCORE_NORMALIZATION_MAX,
    CoreRefactored.SCORE_NORMALIZATION_OUTPUT_MIN,
    CoreRefactored.SCORE_NORMALIZATION_OUTPUT_MAX, Math.max, Math.min.
  cbv zeta. unfold clamp. f_equal. f_equal. f_equal.
  unfold Rdiv. replace (20 - -20) with 40 by lra. lra.
Qed.

Lemma normalize_at (rawScore : R) (z : Z) :
  (0 <= z <= 100)%Z ->
  (rawScore + 20) / 40 * 100 = IZR z ->
  App.normalizeScore rawScore = IZR z.
Proof.
  intros Hz Hx. rewrite app_normalizeScore_eq, Hx.
  destruct Hz as [H0 H100]. apply IZR_le in H0, H100.
  destruct (clamp_cases (IZR z) 0 100) as [[H ->] | [[H ->] | [H ->]]];
    try lra; try apply round_IZR.
  - replace 0 with (IZR 0) by reflexivity. rewrite round_IZR. simpl. lra.
  - replace 100 with (IZR 100) by reflexivity. rewrite round_IZR. simpl. lra.
Qed.

(** C8.  [normalizeScore], in [app.js] (round, then clamp) and in the
    refactored [core.js] (clamp, then round), is
    [round (clamp ((raw + 20) / 40 * 100, 0, 100))]: an integer in
    [0,100] on every real, the rounded linear map on [-20, 20], 0 below
    and 100 above, with [normalize(-20) = 0], [normalize(0) = 50],
    [normalize(20) = 100], [normalize(-999) = 0], [normalize(999) = 100]. *)
Theorem C8_normalizeScore :
  (forall raw : R,
      exists z : Z,
        (0 <= z <= 100)%Z
        /\ App.normalizeScore raw = IZR z
        /\ CoreRefactored.normalizeScore raw = IZR z
        /\ z = Math.roundZ (clamp ((raw + 20) / 40 * 100) 0 100))
  /\ (forall raw : R, -20 <= raw <= 20 ->
        App.normalizeScore raw = Math.round ((raw + 20) / 40 * 100))
  /\ (forall raw : R, raw <= -20 -> App.normalizeScore raw = 0)
  /\ (forall raw : R, 20 <= raw -> App.normalizeScore raw = 100)
  /\ App.normalizeScore (-20) = 0
  /\ App.normalizeScore 0 = 50
  /\ App.normalizeScore 20 = 100
  /\ App.normalizeScore (-999) = 0
  /\ App.normalizeScore 999 = 100.
Proof.
  assert (Hlow : forall raw : R, raw <= -20 -> App.normalizeScore raw = 0).
  { intros raw Hr. rewrite app_normalizeScore_eq.
    destruct (clamp_cases ((raw + 20) / 40 * 100) 0 100)
      as [[H ->] | [[H ->] | [H ->]]]; try lra.
    - apply (round_IZR 0).
    - replace ((raw + 20) / 40 * 100) with 0 by lra. apply (round_IZR 0). }
  assert (Hhigh : forall raw : R, 20 <= raw -> App.normalizeScore raw = 100).
  { intros raw Hr. rewrite app_normalizeScore_eq.
    destruct (clamp_cases ((raw + 20) / 40 * 100) 0 100)
      as [[H ->] | [[H ->] | [H ->]]]; try lra.
    - replace ((raw + 20) / 40 * 100) with 100 by lra. apply (round_IZR 100).
    - apply (round_IZR 100). }
  split.
  { intros raw. exists (Math.roundZ (clamp ((raw + 20) / 40 * 100) 0 100)).
    split; [apply (round_clamp_range _ 0 100); lia |].
    split; [apply app_normalizeScore_eq |].
    split; [apply refactored_normalizeScore_eq | reflexivity]. }
  split.
  { intros raw Hr. rewrite app_normalizeScore_eq.
    destruct (clamp_cases ((raw + 20) / 40 * 100) 0 100)
      as [[H E] | [[H E] | [H E]]]; try lra; rewrite E; try reflexivity.
    - f_equal. lra.
    - f_equal. lra. }
  split; [exact Hlow |]. split; [exact Hhigh |].
  split; [apply Hlow; lra |].
  split; [apply (normalize_at 0 50); [lia | simpl; lra] |].
  split; [apply Hhigh; lra |].
  split; [apply Hlow; lra | apply Hhigh; lra].
Qed.

(** The display value of the older side panel is another map: it sends
    [-10, 10] onto [0, 100] and has no upper clamp. *)
Lemma legacy_sidePanelValue_unclamped : AppLegacy.sidePanelValue 20 = 150.
Proof.
  unfold AppLegacy.sidePanelValue, Math.max.
  replace ((20 + 10) * 5) with (IZR 150) by (simpl; lra).
  rewrite round_IZR. unfold Rmax.
  destruct (Rle_dec 0 (IZR 150)) as [_ | H]; [reflexivity |].
  exfalso. apply H. simpl. lra.
Qed.

(** ** Sorting *)

Section Sorting.

Context {A : Type} (compare : A -> A -> R).

Lemma sort_insert_perm (x : A) (l : list A) :
  Permutation (sort_insert compare x l) (x :: l).
Proof.
  induction l as [| y l IH]; simpl; [reflexivity |].
  destruct (Rlt_dec 0 (compare x y)); [| reflexivity].
  rewrite IH. apply perm_swap.
Qed.

Lemma Array_sort_perm (l : list A) : Permutation (Array_sort compare l) l.
Proof.
  induction l as [| x l IH]; simpl; [reflexivity |].
  fold (Array_sort compare l). rewrite sort_insert_perm. now constructor.
Qed.

End Sorting.

Lemma sort_insert_sorted (x : string * R) (l : list (string * R)) :
  StronglySorted geScore l ->
  StronglySorted geScore (sort_insert byScoreDesc x l).
Proof.
  induction 1 as [| y l Hs IH Hy]; simpl.
  - repeat constructor.
  - unfold byScoreDesc at 1.
    destruct (Rlt_dec 0 (snd y - snd x)) as [Hlt | Hge].
    + constructor; [exact IH |].
      eapply Permutation_Forall; [symmetry; apply sort_insert_perm |].
      constructor; [unfold geScore; lra | exact Hy].
    + constructor; [now constructor |].
      constructor; [unfold geScore; lra |].
      eapply Forall_impl; [| exact Hy].
      unfold geScore. intros z Hz. lra.
Qed.

Lemma Array_sort_sorted (l : list (string * R)) :
  StronglySorted geScore (Array_sort byScoreDesc l).
Proof.
  induction l as [| x l IH]; simpl; [constructor |].
  now apply sort_insert_sorted.
Qed.

(** The sort is stable: entries of equal score keep their order. *)
Lemma sort_insert_stable_head (x : string * R) (l : list (string * R)) :
  Forall (fun y => snd y <= snd x) l ->
  sort_insert byScoreDesc x l = x :: l.
Proof.
  destruct 1 as [| y l Hy _]; simpl; [reflexivity |].
  unfold byScoreDesc. destruct (Rlt_dec 0 (snd y - snd x)); [lra | reflexivity].
Qed.

(** ** Type classifier *)

Lemma stackTotal_weightedSum (fs : scores_object) (stack : list func)
    (ws : list R) (acc : R) :
  (length stack <= length ws)%nat ->
  stackTotal fs stack ws acc
  = Some (acc + weightedSum (fun f => or0 (fs f)) stack ws).
Proof.
  revert ws acc. induction stack as [| f stack IH]; intros ws acc Hlen; simpl.
  - f_equal. destruct ws; lra.
  - destruct ws as [| w ws]; simpl in Hlen; [lia |].
    rewrite IH by lia. f_equal. lra.
Qed.

Lemma or0_id (x : option R) : or0 x = default 0 x.
Proof.
  destruct x as [v |]; simpl; [| reflexivity].
  destruct (Req_dec_T v 0); congruence.
Qed.

Lemma typeScoresOf_spec (fs : scores_object) (ws : list R)
    (stacks : list (string * list func)) :
  Forall (fun e => (length (snd e) <= length ws)%nat) stacks ->
  typeScoresOf fs ws stacks
  = Some (map (fun e => (fst e, weightedSum (fun f => or0 (fs f)) (snd e) ws))
            stacks).
Proof.
  induction 1 as [| [t stack] stacks Hlen _ IH]; simpl; [reflexivity |].
  simpl in Hlen. rewrite stackTotal_weightedSum by assumption.
  rewrite IH, Rplus_0_l. reflexivity.
Qed.

Lemma weightedSum_ext (f g : func -> R) (stack : list func) (ws : list R) :
  (forall x, f x = g x) -> weightedSum f stack ws = weightedSum g stack ws.
Proof.
  intros Hfg. revert ws. induction stack as [| a stack IH]; intros [| w ws];
    simpl; try reflexivity.
  now rewrite Hfg, IH.
Qed.

Lemma typeScoresOf_totalsOf (fs : scores_object)
    (stacks : list (string * list func)) :
  Forall (fun e => (length (snd e) <= 4)%nat) stacks ->
  typeScoresOf fs Core.weights stacks = Some (totalsOf fs stacks).
Proof.
  intros Hlen. rewrite typeScoresOf_spec by exact Hlen.
  f_equal. unfold totalsOf. apply map_ext. intros [t stack]. simpl.
  f_equal. apply weightedSum_ext. intros x. apply or0_id.
Qed.

(** Both revisions of the classifier return the head of the sorted
    totals, the name next to it, and the same confidence. *)
Lemma determineMBTIType_ranked (fs : scores_object)
    (stacks : list (string * list func)) :
  Forall (fun e => (length (snd e) <= 4)%nat) stacks ->
  (2 <= length stacks)%nat ->
  exists best second rest,
    Array_sort byScoreDesc (totalsOf fs stacks) = best :: second :: rest
    /\ Core.determineMBTIType fs stacks
       = Some {| Core.type := fst best;
                 Core.confidence :=
                   clamp (Math.round (rawConfidence (snd best) (snd second))) 0 100;
                 Core.top2 := (fst best, fst second);
                 Core.typeScores := totalsOf fs stacks |}
    /\ CoreRefactored.determineMBTIType fs stacks
       = Some {| CoreRefactored.type := fst best;
                 CoreRefactored.confidence :=
                   clamp (Math.round (rawConfidence (snd best) (snd second))) 0 100;
                 CoreRefactored.top2 := (fst best, Some (fst second));
                 CoreRefactored.typeScores := totalsOf fs stacks |}.
Proof.
  intros Hlen H2.
  pose proof (Array_sort_perm byScoreDesc (totalsOf fs stacks)) as Hperm.
  assert (Hl : length (Array_sort byScoreDesc (totalsOf fs stacks)) = length stacks).
  { rewrite (Permutation_length Hperm). unfold totalsOf. apply length_map. }
  destruct (Array_sort byScoreDesc (totalsOf fs stacks))
    as [| best [| second rest]] eqn:Hsort; simpl in Hl; try lia.
  exists best, second, rest. split; [reflexivity |].
  unfold Core.determineMBTIType, CoreRefactored.determineMBTIType.
  change CoreRefactored.stackWeights with Core.weights.
  rewrite typeScoresOf_totalsOf by exact Hlen. rewrite Hsort.
  split.
  - do 2 f_equal. unfold clamp, Math.max, Math.min. f_equal. apply Rmin_comm.
  - destruct best as [firstType firstScore], second as [secondType secondScore].
    reflexivity.
Qed.

Lemma ranked_order (ts : list (string * R)) (best second : string * R)
    (rest : list (string * R)) :
  NoDup (map fst ts) ->
  Array_sort byScoreDesc ts = best :: second :: rest ->
  In best ts /\ In second ts /\ fst second <> fst best
  /\ (forall e, In e ts -> snd e <= snd best)
  /\ (forall e, In e ts -> fst e <> fst best -> snd e <= snd second).
Proof.
  intros Hnd Hsort.
  pose proof (Array_sort_perm byScoreDesc ts) as Hperm.
  pose proof (Array_sort_sorted ts) as Hsorted.
  rewrite Hsort in Hperm, Hsorted.
  assert (Hnd' : NoDup (map fst (best :: second :: rest))).
  { now rewrite Hperm. }
  apply StronglySorted_inv in Hsorted as [Htail Hbest].
  apply StronglySorted_inv in Htail as [_ Hsecond].
  rewrite Forall_forall in Hbest, Hsecond.
  split; [eapply Permutation_in; [exact Hperm | now left] |].
  split; [eapply Permutation_in; [exact Hperm | right; now left] |].
  split.
  { simpl in Hnd'. apply NoDup_cons_1_1 in Hnd' as Hnotin.
    intros E. apply Hnotin. rewrite <- E. now left. }
  split.
  - intros e He. apply (Permutation_in _ (Permutation_sym Hperm)) in He.
    destruct He as [<- | He]; [lra |]. now apply Hbest.
  - intros e He Hne. apply (Permutation_in _ (Permutation_sym Hperm)) in He.
    destruct He as [<- | [<- | He]]; [contradiction | lra |].
    now apply Hsecond.
Qed.

Lemma totalsOf_names (fs : scores_object) (stacks : list (string * list func)) :
  map fst (totalsOf fs stacks) = map fst stacks.
Proof. unfold totalsOf. rewrite map_map. reflexivity. Qed.

(** C6.  On a table of at least two types with distinct names and
    stacks of at most four functions (the sixteen-type table is one),
    both revisions of the classifier return the totals
    [sum of scoreVector[stack[position]] * weight[position]] with
    weights [4, 2, 1, 0.5]; the total of the returned type is at least
    every total, and the total of the runner-up, a different type, is at
    least the total of every type other than the returned one. *)
Theorem C6_classifier_ranking (scoreVector : scores_object)
    (stacks : list (string * list func)) :
  NoDup (map fst stacks) ->
  Forall (fun e => (length (snd e) <= 4)%nat) stacks ->
  (2 <= length stacks)%nat ->
  exists (r : Core.classification) (r' : CoreRefactored.classification)
         (topTotal runnerUpTotal : R),
    Core.determineMBTIType scoreVector stacks = Some r
    /\ CoreRefactored.determineMBTIType scoreVector stacks = Some r'
    /\ Core.typeScores r = totalsOf scoreVector stacks
    /\ CoreRefactored.typeScores r' = totalsOf scoreVector stacks
    /\ CoreRefactored.type r' = Core.type r
    /\ CoreRefactored.top2 r' = (Core.type r, Some (snd (Core.top2 r)))
    /\ fst (Core.top2 r) = Core.type r
    /\ snd (Core.top2 r) <> Core.type r
    /\ In (Core.type r, topTotal) (Core.typeScores r)
    /\ In (snd (Core.top2 r), runnerUpTotal) (Core.typeScores r)
    /\ (forall t x, In (t, x) (Core.typeScores r) -> x <= topTotal)
    /\ (forall t x, In (t, x) (Core.typeScores r) -> t <> Core.type r ->
                    x <= runnerUpTotal).
Proof.
  intros Hnd Hlen H2.
  destruct (determineMBTIType_ranked scoreVector stacks Hlen H2)
    as (best & second & rest & Hsort & Hcore & Hrefactored).
  rewrite <- (totalsOf_names scoreVector) in Hnd.
  destruct (ranked_order _ _ _ _ Hnd Hsort)
    as (Hbest & Hsecond & Hne & Htop & Hrunner).
  eexists _, _, (snd best), (snd second).
  split; [exact Hcore |]. split; [exact Hrefactored |]. simpl.
  repeat (split; [reflexivity |]).
  split; [exact Hne |].
  split; [now rewrite <- surjective_pairing |].
  split; [now rewrite <- surjective_pairing |].
  split.
  - intros t x Hin. apply (Htop (t, x) Hin).
  - intros t x Hin Ht. apply (Hrunner (t, x) Hin Ht).
Qed.

Lemma COGNITIVE_STACKS_wf :
  NoDup (map fst COGNITIVE_STACKS)
  /\ Forall (fun e => (length (snd e) <= 4)%nat) COGNITIVE_STACKS
  /\ (2 <= length COGNITIVE_STACKS)%nat.
Proof.
  split; [| split].
  - apply (bool_decide_unpack _). vm_compute. reflexivity.
  - repeat constructor.
  - simpl. lia.
Qed.

Lemma C6_classifier_ranking_witness :
  NoDup (map fst COGNITIVE_STACKS)
  /\ Forall (fun e => (length (snd e) <= 4)%nat) COGNITIVE_STACKS
  /\ (2 <= length COGNITIVE_STACKS)%nat
  /\ exists (r : Core.classification) (topTotal : R),
       Core.determineMBTIType mockScores COGNITIVE_STACKS = Some r
       /\ Core.typeScores r = totalsOf mockScores COGNITIVE_STACKS
       /\ In (Core.type r, topTotal) (Core.typeScores r)
       /\ (forall t x, In (t, x) (Core.typeScores r) -> x <= topTotal).
Proof.
  assert (Hnd : NoDup (map fst COGNITIVE_STACKS))
    by (apply (bool_decide_unpack _); vm_compute; reflexivity).
  assert (Hlen : Forall (fun e => (length (snd e) <= 4)%nat) COGNITIVE_STACKS)
    by (repeat constructor).
  assert (H2 : (2 <= length COGNITIVE_STACKS)%nat) by (simpl; lia).
  split; [exact Hnd |]. split; [exact Hlen |]. split; [exact H2 |].
  destruct (C6_classifier_ranking mockScores COGNITIVE_STACKS Hnd Hlen H2)
    as (r & r' & topTotal & runnerUpTotal & H).
  exists r, topTotal. tauto.
Defined.

Lemma rawConfidence_range (top second : R) :
  second <= top -> 0 <= rawConfidence top second < 100.
Proof.
  intros Hle. unfold rawConfidence.
  pose proof (Rabs_pos top) as Ht. pose proof (Rabs_pos second) as Hs.
  pose proof (Rle_abs top) as Ht'. 
  assert (Hs' : - second <= Rabs second)
    by (rewrite <- Rabs_Ropp; apply Rle_abs).
  set (den := Rabs top + Rabs second + 1 / 1000000).
  assert (Hden : 0 < den) by (unfold den; lra).
  assert (Hnum : top - second < den) by (unfold den; lra).
  assert (Hq0 : 0 <= (top - second) / den).
  { apply Rmult_le_pos; [lra |]. left. now apply Rinv_0_lt_compat. }
  assert (Hq1 : (top - second) / den < 1).
  { apply (Rmult_lt_reg_r den); [exact Hden |].
    unfold Rdiv. rewrite Rmult_assoc, Rinv_l by lra. lra. }
  lra.
Qed.


Lemma weightedSum_zero (stack : list func) (ws : list R) :
  weightedSum (fun _ => 0) stack ws = 0.
Proof.
  revert ws. induction stack as [| f stack IH]; intros [| w ws]; simpl;
    try reflexivity.
  rewrite IH. lra.
Qed.

Lemma totalsOf_zero (stacks : list (string * list func)) (t : string) (x : R) :
  In (t, x) (totalsOf zeroScores stacks) -> x = 0.
Proof.
  unfold totalsOf. rewrite in_map_iff. intros [[t' stack] [E _]].
  inversion E; subst. apply weightedSum_zero.
Qed.


(** The scenario of [smoke-test.js]: the sixteen totals of the mock
    vector, the winner [INFJ] strictly ahead, [INTJ] next, confidence 4. *)
Lemma mockScores_totals :
  totalsOf mockScores COGNITIVE_STACKS
  = [ ("INTJ", 575 / 10); ("INTP", 20); ("ENTJ", 325 / 10); ("ENTP", -5);
      ("INFJ", 625 / 10); ("INFP", -375 / 10); ("ENFJ", 20); ("ENFP", -30);
      ("ISTJ", -375 / 10); ("ISFJ", -325 / 10); ("ESTJ", -75 / 10);
      ("ESFJ", -20); ("ISTP", 25); ("ISFP", -325 / 10); ("ESTP", -325 / 10);
      ("ESFP", -575 / 10) ]%string.
Proof.
  unfold totalsOf, COGNITIVE_STACKS, specWeights, mockScores.
  cbn [map fst snd weightedSum from_option Datatypes.id].
  repeat (apply f_equal2; [apply f_equal; lra |]).
  reflexivity.
Qed.

Lemma smoke_test_classification :
  exists r : Core.classification,
    Core.determineMBTIType mockScores COGNITIVE_STACKS = Some r
    /\ Core.type r = "INFJ"%string
    /\ Core.top2 r = ("INFJ", "INTJ")%string
    /\ Core.confidence r = 4
    /\ In ("INFJ"%string, 625 / 10) (Core.typeScores r)
    /\ (forall t x, In (t, x) (Core.typeScores r) -> t <> "INFJ"%string ->
                    x < 625 / 10).
Proof.
  destruct COGNITIVE_STACKS_wf as (Hnd & Hlen & H2).
  destruct (determineMBTIType_ranked mockScores COGNITIVE_STACKS Hlen H2)
    as (best & second & rest & Hsort & Hcore & _).
  rewrite <- (totalsOf_names mockScores) in Hnd.
  destruct (ranked_order _ _ _ _ Hnd Hsort)
    as (Hbest & Hsecond & Hne & Htop & Hrunner).
  rewrite mockScores_totals in Hbest, Hsecond, Htop, Hrunner, Hcore.
  assert (Eb : best = ("INFJ"%string, 625 / 10)).
  { pose proof (Htop ("INFJ"%string, 625 / 10)) as H. simpl in H.
    assert (Hx : 625 / 10 <= snd best) by (apply H; tauto).
    simpl in Hbest.
    repeat (destruct Hbest as [<- | Hbest]; [simpl in Hx; try lra |]);
      try reflexivity; try contradiction. }
  subst best.
  assert (Es : second = ("INTJ"%string, 575 / 10)).
  { pose proof (Hrunner ("INTJ"%string, 575 / 10)) as H. simpl in H.
    assert (Hx : 575 / 10 <= snd second)
      by (apply H; [tauto | discriminate]).
    simpl in Hsecond, Hne.
    repeat (destruct Hsecond as [<- | Hsecond];
            [simpl in Hx, Hne; try lra; try congruence |]);
      try reflexivity; try contradiction. }
  subst second.
  eexists. split; [exact Hcore |]. simpl.
  split; [reflexivity |]. split; [reflexivity |]. split.
  - assert (Hr : Math.round (rawConfidence (625 / 10) (575 / 10)) = 4).
    { unfold Math.round, Math.roundZ. rewrite (floorZ_unique _ 4); [reflexivity |].
      unfold rawConfidence. rewrite !Rabs_right by lra.
      assert (Hd : 0 < 625 / 10 + 575 / 10 + 1 / 1000000) by lra.
      set (den := 625 / 10 + 575 / 10 + 1 / 1000000) in *.
      assert (E : 100 * ((625 / 10 - 575 / 10) / den) = 500 / den)
        by (field; lra).
      rewrite E.
      assert (L : 4 < 500 / den).
      { apply (Rmult_lt_reg_r den); [exact Hd |].
        unfold Rdiv. rewrite Rmult_assoc, Rinv_l by lra. unfold den. lra. }
      assert (U : 500 / den < 45 / 10).
      { apply (Rmult_lt_reg_r den); [exact Hd |].
        unfold Rdiv at 1. rewrite Rmult_assoc, Rinv_l by lra. unfold den. lra. }
      simpl. lra. }
    rewrite Hr.
    destruct (clamp_cases 4 0 100) as [[H _] | [[_ ->] | [H _]]]; lra.
  - split; [tauto |].
    intros t x Hin Ht. simpl in Hin.
    repeat (destruct Hin as [E | Hin]; [inversion E; subst; try lra; congruence |]).
    contradiction.
Qed.

(** Ties keep the table's order: on the all-zero vector of a fresh
    session the classifier answers the first two types of the table. *)
Lemma Array_sort_ties (l : list (string * R)) :
  (forall a b, In a l -> In b l -> snd a = snd b) ->
  Array_sort byScoreDesc l = l.
Proof.
  induction l as [| x l IH]; intros Heq; simpl; [reflexivity |].
  fold (Array_sort byScoreDesc l).
  rewrite IH by (intros a b Ha Hb; apply Heq; now right).
  apply sort_insert_stable_head. apply Forall_forall. intros y Hy.
  right. apply Heq; [now right | now left].
Qed.

Lemma zero_vector_classification :
  exists r : Core.classification,
    Core.determineMBTIType zeroScores COGNITIVE_STACKS = Some r
    /\ Core.type r = "INTJ"%string
    /\ Core.top2 r = ("INTJ", "INTP")%string
    /\ Core.confidence r = 0.
Proof.
  destruct COGNITIVE_STACKS_wf as (_ & Hlen & H2).
  destruct (determineMBTIType_ranked zeroScores COGNITIVE_STACKS Hlen H2)
    as (best & second & rest & Hsort & Hcore & _).
  rewrite Array_sort_ties in Hsort.
  2:{ intros [t x] [t' y] Ha Hb. simpl.
      apply totalsOf_zero in Ha, Hb. congruence. }
  assert (Hb : In best (totalsOf zeroScores COGNITIVE_STACKS))
    by (rewrite Hsort; now left).
  assert (Hs : In second (totalsOf zeroScores COGNITIVE_STACKS))
    by (rewrite Hsort; right; now left).
  destruct best as [tb xb], second as [ts xs].
  apply totalsOf_zero in Hb, Hs. subst xb xs.
  unfold totalsOf, COGNITIVE_STACKS in Hsort. cbn [map fst snd] in Hsort.
  assert (Eb : tb = "INTJ"%string) by (inversion Hsort; reflexivity).
  assert (Es : ts = "INTP"%string) by (inversion Hsort; reflexivity).
  subst tb ts. clear Hsort.
  eexists. split; [exact Hcore |]. simpl.
  split; [reflexivity |]. split; [reflexivity |].
  unfold rawConfidence.
  replace (100 * ((0 - 0) / (Rabs 0 + Rabs 0 + 1 / 1000000))) with 0
    by (unfold Rdiv; rewrite Rminus_diag, Rmult_0_l; lra).
  rewrite (round_IZR 0).
  destruct (clamp_cases 0 0 100) as [[_ ->] | [[_ ->] | [H _]]]; lra.
Qed.

(** ** Question sequencer *)

Section Sequencer.

Import Sequencer.

Lemma swap_perm {A} (a : list A) (i j : nat) : Permutation (swap a i j) a.
Proof.
  unfold swap.
  destruct (a !! i) as [x |] eqn:Hi; [| reflexivity].
  destruct (a !! j) as [y |] eqn:Hj; [| reflexivity].
  pose proof (lookup_lt_Some _ _ _ Hi) as Hil.
  pose proof (lookup_lt_Some _ _ _ Hj) as Hjl.
  apply Permutation_inj. split; [now rewrite !length_insert |].
  exists (fun k => if decide (k = i) then j else if decide (k = j) then i else k).
  split.
  - intros k1 k2. repeat case_decide; intros; subst; congruence.
  - intros k. destruct (decide (k = j)) as [-> | Hkj].
    + rewrite list_lookup_insert_eq by now rewrite length_insert.
      case_decide; subst; congruence.
    + rewrite list_lookup_insert_ne by congruence.
      destruct (decide (k = i)) as [-> | Hki].
      * rewrite list_lookup_insert_eq by assumption. congruence.
      * rewrite list_lookup_insert_ne by congruence. reflexivity.
Qed.

Lemma fisherYatesLoop_perm {A} (rng : random_source) (i : nat)
    (l : list A) (k : nat) :
  Permutation (fst (fisherYatesLoop rng i l k)) l
  /\ snd (fisherYatesLoop rng i l k) = (k + i)%nat.
Proof.
  revert l k. induction i as [| i IH]; intros l k; simpl.
  - split; [reflexivity | lia].
  - match goal with
    | |- context [fisherYatesLoop rng i ?l' ?k'] =>
        destruct (IH l' k') as [Hp Hk]
    end.
    split; [| lia]. rewrite Hp. apply swap_perm.
Qed.

Lemma fisherYatesShuffle_perm {A} (rng : random_source) (array : list A)
    (k : nat) :
  Permutation (fst (fisherYatesShuffle rng array k)) array
  /\ snd (fisherYatesShuffle rng array k) = (k + (length array - 1))%nat.
Proof. apply fisherYatesLoop_perm. Qed.

(** Under the contract of [Math.random] the index [j] drawn at step
    [i] is at most [i]. *)
Lemma random_index_in_range (r : R) (i : nat) :
  0 <= r < 1 ->
  (Z.to_nat (Math.floorZ (r * INR (i + 1))) <= i)%nat.
Proof.
  intros [H0 H1].
  assert (Hi : 0 < INR (i + 1)) by (apply lt_0_INR; lia).
  destruct (floorZ_spec (r * INR (i + 1))) as [Hf _].
  assert (Hlt : IZR (Math.floorZ (r * INR (i + 1))) < IZR (Z.of_nat (i + 1))).
  { rewrite <- INR_IZR_INZ. nra. }
  apply lt_IZR in Hlt. lia.
Qed.

Lemma attemptLoop_spec (rng : random_source) (questions : list question)
    (remaining attempt k : nat) :
  let c := attemptLoop rng questions remaining attempt k in
  let r := value_of c in
  Permutation (shuffled r) questions
  /\ (attempts r <= attempt + remaining)%nat
  /\ (usedFallback r = true ->
      attempts r = (attempt + remaining)%nat
      /\ logged c = [ShuffleBudgetExhausted]
      /\ randomCalls r
         = (k + (S remaining) * (length questions - 1))%nat)
  /\ (usedFallback r = false ->
      hasConsecutive (shuffled r) = false
      /\ (attempt < attempts r)%nat
      /\ logged c = []
      /\ randomCalls r
         = (k + (attempts r - attempt) * (length questions - 1))%nat).
Proof.
  revert attempt k. induction remaining as [| remaining IH]; intros attempt k.
  - cbn zeta. simpl attemptLoop.
    destruct (fisherYatesShuffle rng questions k) as [fallback k'] eqn:Hfy.
    pose proof (fisherYatesShuffle_perm rng questions k) as [Hp Hk].
    rewrite Hfy in Hp, Hk. simpl in Hp, Hk. simpl.
    split; [exact Hp |]. split; [lia |]. split; [| discriminate].
    intros _. split; [lia |]. split; [reflexivity | lia].
  - cbn zeta. simpl attemptLoop.
    destruct (fisherYatesShuffle rng questions k) as [candidate k'] eqn:Hfy.
    pose proof (fisherYatesShuffle_perm rng questions k) as [Hp Hk].
    rewrite Hfy in Hp, Hk. simpl in Hp, Hk.
    destruct (hasConsecutive candidate) eqn:Hc.
    + specialize (IH (S attempt) k'). cbn zeta in IH.
      destruct IH as (IHp & IHa & IHf & IHn).
      set (n := attempts (value_of (attemptLoop rng questions remaining
                                      (S attempt) k'))) in *.
      set (calls := randomCalls (value_of (attemptLoop rng questions remaining
                                             (S attempt) k'))) in *.
      split; [exact IHp |]. split; [lia |]. split.
      * intros Hf. destruct (IHf Hf) as (Ha & Hl & Hr).
        split; [lia |]. split; [exact Hl |]. lia.
      * intros Hf. destruct (IHn Hf) as (Hh & Ha & Hl & Hr).
        split; [exact Hh |]. split; [lia |]. split; [exact Hl |].
        replace (n - attempt)%nat with (S (n - S attempt)) by lia. lia.
    + simpl. split; [exact Hp |]. split; [lia |]. split; [discriminate |].
      intros _. split; [exact Hc |]. split; [lia |]. split; [reflexivity |].
      replace (S attempt - attempt)%nat with 1%nat by lia. lia.
Qed.

(** C9.  For every bank and every sequence of outcomes of
    [Math.random], the sequencer returns (it is a total function whose
    attempt loop counts down from 1000); it runs at most 1000
    iterations of the attempt loop, draws at most
    [1001 * (length - 1)] random numbers, and what it returns, whether
    from an attempt that met the constraint or from the fallback
    shuffle after the loop, is a permutation of its input, with the
    same multiset of ids. *)
Theorem C9_shuffle_terminates_permutes (rng : random_source)
    (questions : list question) :
  let c := shuffleQuestionsWithConstraints rng questions in
  let r := value_of c in
  Permutation (shuffled r) questions
  /\ Permutation (map Question.id (shuffled r)) (map Question.id questions)
  /\ (attempts r <= maxAttempts)%nat
  /\ (randomCalls r <= (maxAttempts + 1) * (length questions - 1))%nat
  /\ (usedFallback r = false ->
      hasConsecutive (shuffled r) = false /\ logged c = [])
  /\ (usedFallback r = true ->
      attempts r = maxAttempts /\ logged c = [ShuffleBudgetExhausted]).
Proof.
  intros c r. subst c r. unfold shuffleQuestionsWithConstraints.
  pose proof (attemptLoop_spec rng questions maxAttempts 0 0) as H.
  cbn zeta in H. destruct H as (Hp & Ha & Hf & Hn).
  split; [exact Hp |]. split; [now apply Permutation_map |].
  split; [lia |]. split.
  - destruct (usedFallback _) eqn:Hu.
    + destruct (Hf eq_refl) as (_ & _ & ->). lia.
    + destruct (Hn eq_refl) as (_ & _ & _ & ->). nia.
  - split.
    + intros Hu. destruct (Hn Hu) as (Hh & _ & Hl & _). now split.
    + intros Hu. destruct (Hf Hu) as (Hh & Hl & _). split; [lia | exact Hl].
Qed.

(** The fallback path is taken when no ordering meets the constraint,
    for instance on two questions of one function: all 1000 attempts
    fail and the result is the unconstrained shuffle after the loop. *)
Lemma attemptLoop_unsatisfiable (rng : random_source)
    (questions : list question) (remaining attempt k : nat) :
  (forall l, Permutation l questions -> hasConsecutive l = true) ->
  usedFallback (value_of (attemptLoop rng questions remaining attempt k)) = true.
Proof.
  intros Hall. revert attempt k.
  induction remaining as [| remaining IH]; intros attempt k; simpl.
  - destruct (fisherYatesShuffle rng questions k). reflexivity.
  - pose proof (fisherYatesShuffle_perm rng questions k) as [Hp _].
    destruct (fisherYatesShuffle rng questions k) as [candidate k'].
    simpl in Hp. rewrite (Hall candidate Hp). apply IH.
Qed.

Lemma fallback_example (rng : random_source) :
  let bank := [ {| Question.id := 1; Question.text := "q1"; Question.type := Ni;
                   Question.reverse := None |};
                {| Question.id := 3; Question.text := "q3"; Question.type := Ni;
                   Question.reverse := Some false |} ] in
  let r := value_of (shuffleQuestionsWithConstraints rng bank) in
  usedFallback r = true /\ attempts r = 1000%nat /\ Permutation (shuffled r) bank.
Proof.
  intros bank r.
  assert (Hall : forall l, Permutation l bank -> hasConsecutive l = true).
  { intros l Hl. apply Permutation_sym, Permutation_length_2_inv in Hl.
    destruct Hl as [-> | ->]; reflexivity. }
  pose proof (attemptLoop_unsatisfiable rng bank maxAttempts 0 0 Hall) as Hf.
  pose proof (attemptLoop_spec rng bank maxAttempts 0 0) as H.
  cbn zeta in H. destruct H as (Hp & _ & Hfb & _).
  destruct (Hfb Hf) as (Ha & _).
  subst r. unfold shuffleQuestionsWithConstraints.
  split; [exact Hf |]. split; [exact Ha | exact Hp].
Qed.

End Sequencer.

(** ** Session score accumulator, current [app.js], over the reals *)

Section Accumulator.

Variable calculateScore : R -> bool -> R.
Variable questions : list question.

Let entryScore (a : App.answer) : R :=
  calculateScore (App.value a) (App.isReverse a).

Let addEntry (d : func) (i : nat) (a : App.answer) (acc : R) : R :=
  if decide (dimensionOf questions i = Some d) then acc + entryScore a else acc.

Lemma addEntry_comm (d : func) (i j : nat) (a b : App.answer) (acc : R) :
  addEntry d i a (addEntry d j b acc) = addEntry d j b (addEntry d i a acc).
Proof. unfold addEntry. repeat case_decide; lra. Qed.

Lemma answersTotal_empty (d : func) :
  answersTotal calculateScore questions ∅ d = 0.
Proof. unfold answersTotal. apply map_fold_empty. Qed.

Lemma answersTotal_insert_fresh (m : gmap nat App.answer) (i : nat)
    (a : App.answer) (d : func) :
  m !! i = None ->
  answersTotal calculateScore questions (<[i := a]> m) d
  = addEntry d i a (answersTotal calculateScore questions m d).
Proof.
  intros Hnone. unfold answersTotal.
  rewrite map_fold_insert_L; [reflexivity | | exact Hnone].
  intros j1 j2 z1 z2 y _ _ _. apply (addEntry_comm d).
Qed.

Lemma answersTotal_delete (m : gmap nat App.answer) (i : nat)
    (a : App.answer) (d : func) :
  m !! i = Some a ->
  answersTotal calculateScore questions m d
  = addEntry d i a (answersTotal calculateScore questions (delete i m) d).
Proof.
  intros Hsome. unfold answersTotal.
  rewrite (map_fold_delete_L _ _ i a m); [reflexivity | | exact Hsome].
  intros j1 j2 z1 z2 y _ _ _. apply (addEntry_comm d).
Qed.

Lemma answersTotal_insert (m : gmap nat App.answer) (i : nat)
    (a : App.answer) (d : func) :
  answersTotal calculateScore questions (<[i := a]> m) d
  = addEntry d i a (answersTotal calculateScore questions (delete i m) d).
Proof.
  rewrite <- insert_delete_eq. apply answersTotal_insert_fresh.
  apply lookup_delete_eq.
Qed.

Hypothesis ids_unique : NoDup (map Question.id questions).

Lemma dimensionOf_in (q : question) :
  In q questions -> dimensionOf questions (Question.id q) = Some (Question.type q).
Proof.
  unfold dimensionOf. clear entryScore addEntry.
  induction questions as [| q0 qs IH]; intros Hin; [destruct Hin |].
  simpl in ids_unique. apply NoDup_cons_1_1 in ids_unique as Hnotin.
  simpl. destruct (Nat.eqb_spec (Question.id q0) (Question.id q)) as [E | NE].
  - destruct Hin as [-> | Hin]; [reflexivity |].
    exfalso. apply Hnotin. rewrite E. apply list_elem_of_In.
    now apply in_map.
  - destruct Hin as [-> | Hin]; [congruence |].
    apply IH; [| assumption].
    now apply NoDup_cons_1_2 in ids_unique.
Qed.

Lemma id_determines_question (q q' : question) :
  In q questions -> In q' questions ->
  Question.id q = Question.id q' -> q = q'.
Proof.
  clear entryScore addEntry.
  induction questions as [| q0 qs IH]; intros Hin Hin' E; [destruct Hin |].
  simpl in ids_unique. apply NoDup_cons_1_1 in ids_unique as Hnotin.
  pose proof (NoDup_cons_1_2 _ _ ids_unique) as Hnd.
  destruct Hin as [-> | Hin], Hin' as [-> | Hin'].
  - reflexivity.
  - exfalso. apply Hnotin. rewrite E. apply list_elem_of_In. now apply in_map.
  - exfalso. apply Hnotin. rewrite <- E. apply list_elem_of_In. now apply in_map.
  - now apply IH.
Qed.

(** Recording an answer keeps both invariants, on a first answer and
    on a revision. *)
Lemma recordAnswer_invariant (q : question) (value : R) (s : App.state) :
  In q questions ->
  AnswersWellFormed questions s ->
  ScoreInvariant calculateScore questions s ->
  AnswersWellFormed questions (App.recordAnswer calculateScore q value s)
  /\ ScoreInvariant calculateScore questions
       (App.recordAnswer calculateScore q value s).
Proof.
  intros Hq Hwf Hinv. split.
  - intros i a. unfold App.recordAnswer. simpl.
    destruct (decide (Question.id q = i)) as [<- | Hne].
    + rewrite lookup_insert_eq. intros [= <-]. exists q. simpl. auto.
    + rewrite lookup_insert_ne by exact Hne. apply Hwf.
  - intros d. unfold App.recordAnswer. simpl.
    rewrite answersTotal_insert. unfold addEntry, entryScore. simpl.
    rewrite (dimensionOf_in q Hq).
    destruct (App.answers s !! Question.id q) as [old |] eqn:Hold.
    + destruct (Hwf _ _ Hold) as (q' & Hq' & Hid & Hrev).
      assert (q' = q) by (now apply id_determines_question). subst q'.
      pose proof (answersTotal_delete _ _ _ d Hold) as Hdel.
      unfold addEntry, entryScore in Hdel.
      rewrite (dimensionOf_in q Hq), Hrev in Hdel.
      destruct (decide (Some (Question.type q) = Some d)) as [E | NE].
      * injection E as <-. rewrite !fn_lookup_insert.
        rewrite (Hinv (Question.type q)), Hdel. lra.
      * rewrite !fn_lookup_insert_ne by congruence.
        rewrite (Hinv d), Hdel. reflexivity.
    + rewrite (delete_id _ _ Hold).
      destruct (decide (Some (Question.type q) = Some d)) as [E | NE].
      * injection E as <-. rewrite fn_lookup_insert. now rewrite (Hinv _).
      * rewrite fn_lookup_insert_ne by congruence. apply Hinv.
Qed.

End Accumulator.

Section Session.

Variable calculateScore : R -> bool -> R.
Variable questions : list question.

Lemma createDefaultState_invariant :
  AnswersWellFormed questions App.createDefaultState
  /\ ScoreInvariant calculateScore questions App.createDefaultState.
Proof.
  split.
  - intros i a. simpl. rewrite lookup_empty. discriminate.
  - intros d. simpl. now rewrite answersTotal_empty.
Qed.

Lemma runCallback_data (cb : App.callback) (s : App.state) :
  App.answers (App.runCallback cb s) = App.answers s
  /\ App.functionScores (App.runCallback cb s) = App.functionScores s.
Proof. destruct cb; split; reflexivity. Qed.

Hypothesis ids_unique : NoDup (map Question.id questions).

(** Every event keeps the two invariants. *)
Lemma step_invariant (w : App.world) (e : App.event) :
  AnswersWellFormed questions (App.st w) ->
  ScoreInvariant calculateScore questions (App.st w) ->
  AnswersWellFormed questions (App.st (App.step questions calculateScore w e))
  /\ ScoreInvariant calculateScore questions
       (App.st (App.step questions calculateScore w e)).
Proof.
  intros Hwf Hinv. destruct e as [value | | |]; simpl.
  - unfold App.handleAnswer.
    destruct (App.isProcessing w); [now split |].
    destruct (questions !! App.currentQuestion (App.st w)) as [q |] eqn:Hq;
      simpl; [| now split].
    apply recordAnswer_invariant; try assumption.
    apply list_elem_of_In. eapply list_elem_of_lookup_2. exact Hq.
  - unfold App.timerFires. destruct (App.timers w) as [| cb rest]; simpl;
      [now split |].
    destruct (runCallback_data cb (App.st w)) as [Ha Hf].
    unfold AnswersWellFormed, ScoreInvariant. rewrite Ha, Hf. now split.
  - unfold App.goBack.
    destruct ((0 <? App.currentQuestion (App.st w))%nat
              && negb (App.isProcessing w)); now split.
  - apply createDefaultState_invariant.
Qed.

Lemma run_snoc (es : list App.event) (e : App.event) :
  App.run questions calculateScore (es ++ [e])
  = App.step questions calculateScore (App.run questions calculateScore es) e.
Proof. unfold App.run. now rewrite fold_left_app. Qed.

Lemma run_invariant (es : list App.event) :
  AnswersWellFormed questions (App.st (App.run questions calculateScore es))
  /\ ScoreInvariant calculateScore questions
       (App.st (App.run questions calculateScore es)).
Proof.
  induction es as [| e es IH] using rev_ind.
  - apply createDefaultState_invariant.
  - rewrite run_snoc. destruct IH as [Hwf Hinv]. now apply step_invariant.
Qed.

End Session.

Lemma sampleBank_ids_unique : NoDup (map Question.id sampleBank).
Proof. apply (bool_decide_unpack _). vm_compute. reflexivity. Qed.

(** [reset()] of the current [app.js]: whatever the session was, there
    is no answer afterwards, every function score is 0, the position is
    the first question and the result screen is off. *)
Lemma reset_current_clears (w : App.world) :
  App.answers (App.st (App.reset w)) = ∅
  /\ (forall d : func, App.functionScores (App.st (App.reset w)) d = 0)
  /\ App.currentQuestion (App.st (App.reset w)) = 0%nat
  /\ App.showResult (App.st (App.reset w)) = false.
Proof. repeat split. Qed.

(** C10.  [handleAnswer] on the question [q] at the current position
    leaves the score of every function other than [q]'s type and the
    answer entry of every other id as they were, and does not move the
    position; when it is ignored ([isProcessing]) or there is no current
    question, the state is unchanged. *)
Theorem C10_handleAnswer_frame (calculateScore : R -> bool -> R)
    (questions : list question) (value : R) (w : App.world) :
  let w' := App.handleAnswer questions calculateScore value w in
  (forall q,
      questions !! App.currentQuestion (App.st w) = Some q ->
      (forall d' : func, d' <> Question.type q ->
         App.functionScores (App.st w') d' = App.functionScores (App.st w) d')
      /\ (forall i : nat, i <> Question.id q ->
            App.answers (App.st w') !! i = App.answers (App.st w) !! i)
      /\ App.currentQuestion (App.st w') = App.currentQuestion (App.st w)
      /\ App.showResult (App.st w') = App.showResult (App.st w))
  /\ (questions !! App.currentQuestion (App.st w) = None -> App.st w' = App.st w)
  /\ (App.isProcessing w = true -> w' = w).
Proof.
  intros w'. subst w'. unfold App.handleAnswer.
  destruct (App.isProcessing w) eqn:Hp.
  - split; [| split; reflexivity]. intros q _. repeat split.
  - split; [| split; [| discriminate]].
    + intros q Hq. rewrite Hq. simpl. unfold App.recordAnswer. simpl.
      split; [| split; [| split; reflexivity]].
      * intros d' Hd. rewrite fn_lookup_insert_ne by congruence.
        destruct (App.answers (App.st w) !! Question.id q);
          [rewrite fn_lookup_insert_ne by congruence |]; reflexivity.
      * intros i Hi. now rewrite lookup_insert_ne by congruence.
    + intros Hq. rewrite Hq. reflexivity.
Qed.

(** ** Session, older revisions of [app.js] *)

Section Legacy.

Variable calculateScore : R -> bool -> R.
Variable questions : list question.

Lemma legacy_initial_shape :
  LegacyShape AppLegacy.initial ∅ (fun _ => 0).
Proof.
  unfold LegacyShape.
  split; [reflexivity |]. split; [reflexivity |].
  cbn [AppLegacy.objects AppLegacy.initial]. unfold AppLegacy.initial_heap.
  split.
  - apply lookup_insert_eq.
  - rewrite lookup_insert_ne by discriminate. apply lookup_insert_eq.
Qed.

Lemma legacy_recordAnswer_shape (q : question) (value : R)
    (w : AppLegacy.world) (entries : gmap nat R) (scores : func -> R) :
  LegacyShape w entries scores ->
  let h := AppLegacy.recordAnswer calculateScore q value
             (AppLegacy.objects w) (AppLegacy.st w) in
  h !! AppLegacy.answers_loc
  = Some (AppLegacy.AnswersObject (legacyEntries q value entries))
  /\ h !! AppLegacy.scores_loc
     = Some (AppLegacy.ScoresObject
               (legacyScores calculateScore q value entries scores)).
Proof.
  intros (Ha & Hf & Hma & Hms) h. subst h.
  unfold AppLegacy.recordAnswer, AppLegacy.answersOf, AppLegacy.scoresOf.
  rewrite Ha, Hf, Hma, Hms. split.
  - rewrite lookup_insert_ne by discriminate. apply lookup_insert_eq.
  - apply lookup_insert_eq.
Qed.

(** The older [handleAnswer] updates the two shared objects in place. *)
Lemma legacy_handleAnswer_shape (value : R) (w : AppLegacy.world)
    (entries : gmap nat R) (scores : func -> R) :
  LegacyShape w entries scores ->
  let w' := AppLegacy.handleAnswer questions calculateScore value w in
  match questions !! AppLegacy.currentQuestion (AppLegacy.st w) with
  | Some q =>
      if AppLegacy.isProcessing w then LegacyShape w' entries scores
      else LegacyShape w' (legacyEntries q value entries)
             (legacyScores calculateScore q value entries scores)
  | None => LegacyShape w' entries scores
  end.
Proof.
  intros Hs w'. subst w'. unfold AppLegacy.handleAnswer.
  destruct (questions !! AppLegacy.currentQuestion (AppLegacy.st w)) as [q |];
    destruct (AppLegacy.isProcessing w); try exact Hs.
  destruct (legacy_recordAnswer_shape q value w entries scores Hs) as [H1 H2].
  destruct Hs as (Ha & Hf & _ & _).
  unfold LegacyShape. simpl. auto.
Qed.

(** The older [reset] replaces the state object and nothing else: the
    new state points to the same two objects, whose contents are as
    they were. *)
Lemma legacy_reset_shape (w : AppLegacy.world) (entries : gmap nat R)
    (scores : func -> R) :
  LegacyShape w entries scores ->
  LegacyShape (AppLegacy.reset w) entries scores
  /\ AppLegacy.answersOf (AppLegacy.objects (AppLegacy.reset w))
       (AppLegacy.st (AppLegacy.reset w)) = Some entries
  /\ AppLegacy.scoresOf (AppLegacy.objects (AppLegacy.reset w))
       (AppLegacy.st (AppLegacy.reset w)) = Some scores
  /\ AppLegacy.currentQuestion (AppLegacy.st (AppLegacy.reset w)) = 0%nat.
Proof.
  intros (Ha & Hf & Hma & Hms).
  split; [unfold LegacyShape; simpl; auto |].
  unfold AppLegacy.answersOf, AppLegacy.scoresOf. simpl.
  rewrite Hma, Hms. auto.
Qed.

Lemma legacy_timerFires_shape (w : AppLegacy.world) (entries : gmap nat R)
    (scores : func -> R) :
  LegacyShape w entries scores ->
  LegacyShape (AppLegacy.timerFires w) entries scores.
Proof.
  intros Hs. unfold AppLegacy.timerFires.
  destruct (AppLegacy.timers w) as [| [|] rest]; exact Hs.
Qed.

Lemma legacy_goBack_shape (w : AppLegacy.world) (entries : gmap nat R)
    (scores : func -> R) :
  LegacyShape w entries scores ->
  LegacyShape (AppLegacy.goBack w) entries scores.
Proof.
  intros Hs. unfold AppLegacy.goBack.
  destruct ((0 <? AppLegacy.currentQuestion (AppLegacy.st w))%nat
            && negb (AppLegacy.isProcessing w)); exact Hs.
Qed.

(** The older [handleAnswer] touches one score and one entry only,
    and, over the reals, replaces a revised answer's contribution. *)
Lemma legacy_revision_and_frame (q : question) (v1 v2 : R)
    (entries : gmap nat R) (scores : func -> R) :
  (forall d,
      legacyScores calculateScore q v2 (legacyEntries q v1 entries)
        (legacyScores calculateScore q v1 entries scores) d
      = legacyScores calculateScore q v2 entries scores d)
  /\ legacyEntries q v2 (legacyEntries q v1 entries) = legacyEntries q v2 entries
  /\ (forall d, d <> Question.type q ->
        legacyScores calculateScore q v1 entries scores d = scores d)
  /\ (forall i, i <> Question.id q ->
        legacyEntries q v1 entries !! i = entries !! i).
Proof.
  unfold legacyScores, legacyEntries. repeat split.
  - intros d. rewrite lookup_insert_eq.
    destruct (decide (Question.type q = d)) as [<- | Hne].
    + rewrite !fn_lookup_insert.
      destruct (entries !! Question.id q); rewrite ?fn_lookup_insert; lra.
    + rewrite !fn_lookup_insert_ne by exact Hne.
      destruct (entries !! Question.id q);
        rewrite ?fn_lookup_insert_ne by exact Hne; reflexivity.
  - apply insert_insert_eq.
  - intros d Hd. rewrite fn_lookup_insert_ne by congruence.
    destruct (entries !! Question.id q);
      [rewrite fn_lookup_insert_ne by congruence |]; reflexivity.
  - intros i Hi. now rewrite lookup_insert_ne by congruence.
Qed.

End Legacy.

(** C5, on the older [app.js].  Answer the first question of the sample
    bank with 5, let the transition run, and reset: the position is back
    at 0, but the state reads the same two objects as before, so the
    answer is still recorded and the score of [Ni] is still [2 ^ 1.2],
    not 0. *)
Theorem C5_legacy_reset_keeps_scores :
  let w :=
    AppLegacy.run sampleBank scoreCore
      [AppLegacy.Answer 5; AppLegacy.TimerFires; AppLegacy.Reset] in
  AppLegacy.currentQuestion (AppLegacy.st w) = 0%nat
  /\ AppLegacy.answersOf (AppLegacy.objects w) (AppLegacy.st w)
     = Some (<[1%nat := 5]> ∅)
  /\ exists scores : func -> R,
       AppLegacy.scoresOf (AppLegacy.objects w) (AppLegacy.st w) = Some scores
       /\ scores Ni = Rpower 2 (12 / 10)
       /\ scores Ni <> 0.
Proof.
  intros w. subst w. unfold AppLegacy.run. simpl fold_left.
  pose proof (legacy_handleAnswer_shape scoreCore sampleBank 5
                AppLegacy.initial _ _ legacy_initial_shape) as H1.
  cbn zeta in H1. simpl in H1.
  apply legacy_timerFires_shape in H1.
  apply legacy_reset_shape in H1 as (_ & Ha & Hs & Hc).
  split; [exact Hc |]. split; [exact Ha |].
  eexists. split; [exact Hs |].
  unfold legacyScores. simpl. rewrite lookup_empty, fn_lookup_insert.
  assert (E : scoreCore 5 false = Rpower 2 (12 / 10)).
  { unfold scoreCore.
    destruct (core_calculateScore_cases 5 false) as [[Hb _] | [[Hb _] | [_ ->]]];
      [lra | lra |]. f_equal. lra. }
  rewrite E. split; [lra |].
  rewrite Rplus_0_l. apply Rgt_not_eq, exp_pos.
Qed.

(** * Further properties of the code *)

(** ** Item scorer: shape of the score function *)

(** The score as a function of the deviation [base]: odd and strictly
    increasing. *)
Lemma emphasis_cases (b : R) :
  let g := Math.sign b * Math.pow (Math.abs b) (12 / 10) in
  (b < 0 /\ g = - Rpower (- b) (12 / 10))
  \/ (b = 0 /\ g = 0)
  \/ (0 < b /\ g = Rpower b (12 / 10)).
Proof.
  intros g. subst g.
  destruct (sign_values b) as [[Hb Hs] | [[Hb Hs] | [Hb Hs]]]; rewrite Hs.
  - left. split; [assumption |].
    unfold Math.abs. rewrite Rabs_left by assumption.
    destruct (pow_pos (- b) (12 / 10)) as [-> _]; lra.
  - right; left. split; [assumption |]. lra.
  - right; right. split; [assumption |].
    unfold Math.abs. rewrite Rabs_right by lra.
    destruct (pow_pos b (12 / 10)) as [-> _]; lra.
Qed.

Lemma emphasis_odd (b : R) :
  Math.sign (- b) * Math.pow (Math.abs (- b)) (12 / 10)
  = - (Math.sign b * Math.pow (Math.abs b) (12 / 10)).
Proof.
  destruct (emphasis_cases b) as [[Hb E] | [[Hb E] | [Hb E]]];
    destruct (emphasis_cases (- b)) as [[Hb' E'] | [[Hb' E'] | [Hb' E']]];
    cbv zeta in *; try lra; rewrite E, E'; rewrite ?Ropp_involutive; lra.
Qed.

Lemma emphasis_increasing (b1 b2 : R) :
  b1 < b2 ->
  Math.sign b1 * Math.pow (Math.abs b1) (12 / 10)
  < Math.sign b2 * Math.pow (Math.abs b2) (12 / 10).
Proof.
  intros Hlt.
  assert (Hpos : forall x, 0 < Rpower x (12 / 10)) by (intros x; apply exp_pos).
  destruct (emphasis_cases b1) as [[Hb1 E1] | [[Hb1 E1] | [Hb1 E1]]];
    destruct (emphasis_cases b2) as [[Hb2 E2] | [[Hb2 E2] | [Hb2 E2]]];
    cbv zeta in *; try lra; rewrite E1, E2.
  - assert (H : Rpower (- b2) (12 / 10) < Rpower (- b1) (12 / 10))
      by (apply Rlt_Rpower_l; lra).
    lra.
  - pose proof (Hpos (- b1)). lra.
  - pose proof (Hpos (- b1)). pose proof (Hpos b2). lra.
  - apply Hpos.
  - apply Rlt_Rpower_l; lra.
Qed.

(** X1.  The refactored scorer on every real and flag: either the value
    is an integer from 1 to 5, nothing is logged and the score is the
    formula's; or it is not, the error is logged once and the score is
    exactly 0. *)
Theorem X1_refactored_scorer_validates (value : R) (isReverse : bool) :
  (exists z : Z,
      value = IZR z /\ (1 <= z <= 5)%Z
      /\ CoreRefactored.isValidLikertValue value = true
      /\ CoreRefactored.calculateScore value isReverse
         = (ItemScore_spec z isReverse, []))
  \/ ((~ exists z : Z, value = IZR z /\ (1 <= z <= 5)%Z)
      /\ CoreRefactored.isValidLikertValue value = false
      /\ CoreRefactored.calculateScore value isReverse
         = (0, [InvalidLikertValue value])).
Proof.
  destruct (CoreRefactored.isValidLikertValue value) eqn:Hv.
  - left. destruct (isValidLikertValue_true value Hv) as (z & -> & Hz).
    exists z. split; [reflexivity |]. split; [exact Hz |].
    split; [reflexivity |].
    rewrite refactored_valid by exact Hz.
    now rewrite core_matches_spec by exact Hz.
  - right.
    assert (Hn : ~ exists z : Z, value = IZR z /\ (1 <= z <= 5)%Z).
    { intros (z & -> & Hz). rewrite isValidLikertValue_IZR in Hv by exact Hz.
      discriminate. }
    split; [exact Hn |]. split; [reflexivity |].
    now apply refactored_invalid_value.
Qed.

Lemma core_score_odd (v : R) (r : bool) :
  Core.calculateScore (6 - v) r = - Core.calculateScore v r.
Proof.
  unfold Core.calculateScore. cbv zeta.
  rewrite <- emphasis_odd. destruct r.
  - replace (6 - (6 - v) - 3) with (- (6 - v - 3)) by lra. reflexivity.
  - replace (6 - v - 3) with (- (v - 3)) by lra. reflexivity.
Qed.

Lemma core_score_flag (v : R) :
  Core.calculateScore v true = - Core.calculateScore v false.
Proof. rewrite <- core_score_odd. reflexivity. Qed.

Lemma core_score_increasing (v1 v2 : R) :
  v1 < v2 -> Core.calculateScore v1 false < Core.calculateScore v2 false.
Proof.
  intros Hlt. unfold Core.calculateScore. cbv zeta.
  apply emphasis_increasing. lra.
Qed.

(** X2.  The scorer of [core.js] on all reals: mirroring the value
    around 3 negates the score, the reversal flag negates it, the plain
    score is strictly increasing in the value and the reversed one
    strictly decreasing. *)
Theorem X2_core_score_odd_monotone :
  (forall (v : R) (r : bool),
      Core.calculateScore (6 - v) r = - Core.calculateScore v r)
  /\ (forall v : R, Core.calculateScore v true = - Core.calculateScore v false)
  /\ (forall v1 v2 : R, v1 < v2 ->
        Core.calculateScore v1 false < Core.calculateScore v2 false)
  /\ (forall v1 v2 : R, v1 < v2 ->
        Core.calculateScore v2 true < Core.calculateScore v1 true).
Proof.
  split; [exact core_score_odd |]. split; [exact core_score_flag |].
  split; [exact core_score_increasing |].
  intros v1 v2 Hlt. rewrite !core_score_flag.
  apply Ropp_lt_contravar. now apply core_score_increasing.
Qed.

Lemma refactored_score_abs (value : R) (isReverse : bool) :
  Rabs (scoreRefactored value isReverse) <= Rpower 2 (12 / 10).
Proof.
  assert (Hc : 0 < Rpower 2 (12 / 10)) by apply exp_pos.
  destruct core_calculateScore_table as (T1 & _ & T3 & _ & T5 & _).
  unfold scoreRefactored.
  destruct (CoreRefactored.isValidLikertValue value) eqn:Hv.
  - destruct (isValidLikertValue_true value Hv) as (z & -> & Hz).
    rewrite refactored_valid by exact Hz. unfold value_of, ret. simpl.
    assert (Hr : 1 <= IZR z <= 5) by (split; apply IZR_le; lia).
    assert (Hmono : forall a b, a <= b ->
               Core.calculateScore a false <= Core.calculateScore b false).
    { intros a b [Hab | ->]; [left; now apply core_score_increasing | lra]. }
    pose proof (Hmono 1 (IZR z) (proj1 Hr)) as L.
    pose proof (Hmono (IZR z) 5 (proj2 Hr)) as U.
    rewrite T1 in L. rewrite T5 in U.
    apply Rabs_le. destruct isReverse; [rewrite core_score_flag |]; lra.
  - unfold CoreRefactored.calculateScore. rewrite Hv. simpl.
    rewrite Rabs_R0. lra.
Qed.

(** X3.  Whatever it is given, the refactored scorer returns a score
    between [- 2 ^ 1.2] and [2 ^ 1.2], less than 2.298 in size; the
    bound is met at 5 and at 1. *)
Theorem X3_refactored_score_bounded :
  (forall (value : R) (isReverse : bool),
      Rabs (value_of (CoreRefactored.calculateScore value isReverse))
      <= Rpower 2 (12 / 10))
  /\ Rpower 2 (12 / 10) < 2298 / 1000
  /\ value_of (CoreRefactored.calculateScore 5 false) = Rpower 2 (12 / 10)
  /\ value_of (CoreRefactored.calculateScore 1 false) = - Rpower 2 (12 / 10).
Proof.
  destruct core_calculateScore_table as (T1 & _ & _ & _ & T5 & _).
  split; [exact refactored_score_abs |].
  split; [apply Rpower_two_bounds | split].
  - replace 5 with (IZR 5) by reflexivity.
    rewrite refactored_valid by lia. exact T5.
  - replace 1 with (IZR 1) by reflexivity.
    rewrite refactored_valid by lia. exact T1.
Qed.

(** ** Session of the current [app.js]: position and pending transition *)

Section SessionShape.

Variable calculateScore : R -> bool -> R.
Variable questions : list question.

Lemma step_position (w : App.world) (e : App.event) :
  PositionInvariant questions w ->
  PositionInvariant questions (App.step questions calculateScore w e).
Proof.
  intros [Hc Ht]. unfold PositionInvariant.
  destruct e as [value | | |]; simpl.
  - unfold App.handleAnswer.
    destruct (Bool.bool_dec (App.isProcessing w) true) as [Hp | Hp];
      [rewrite Hp | apply not_true_is_false in Hp; rewrite Hp].
    + now split.
    + assert (Hnil : App.timers w = []).
      { destruct Ht as [Hnil | (cb & _ & Hp' & _)]; [exact Hnil | congruence]. }
      destruct (questions !! App.currentQuestion (App.st w)) as [q |] eqn:Hq.
      * split; [exact Hc |]. right. rewrite Hnil. simpl.
        eexists. split; [reflexivity |]. split; [reflexivity |].
        destruct (Nat.ltb_spec (App.currentQuestion (App.st w))
                    (length questions - 1)); [intros _; lia | discriminate].
      * split; [exact Hc |]. left. exact Hnil.
  - unfold App.timerFires.
    destruct Ht as [Hnil | (cb & Hcb & Hp & Hroom)].
    + rewrite Hnil. split; [exact Hc | now left].
    + rewrite Hcb. simpl. split; [| now left].
      destruct cb; simpl; [now apply Hroom | exact Hc].
  - unfold App.goBack.
    destruct ((0 <? App.currentQuestion (App.st w))%nat) eqn:H0; simpl;
      [| now split].
    destruct (Bool.bool_dec (App.isProcessing w) true) as [Hp | Hp];
      [rewrite Hp | apply not_true_is_false in Hp; rewrite Hp]; simpl;
      [now split |].
    split; [simpl; lia |]. simpl.
    destruct Ht as [Hnil | (cb & _ & Hp' & _)]; [now left | congruence].
  - unfold App.reset. simpl. split; [lia |].
    destruct Ht as [Hnil | (cb & Hcb & Hp & Hroom)]; [now left |].
    right. exists cb. split; [exact Hcb |]. split; [exact Hp |].
    intros E. specialize (Hroom E). lia.
Qed.

Lemma run_position (es : list App.event) :
  questions <> [] ->
  PositionInvariant questions (App.run questions calculateScore es).
Proof.
  intros Hne. induction es as [| e es IH] using rev_ind.
  - split; [| now left]. simpl. destruct questions; [congruence | simpl; lia].
  - rewrite run_snoc. now apply step_position.
Qed.

End SessionShape.

(** X4.  In every reachable state of a session over a non-empty bank,
    [state.currentQuestion] is the index of a question, so
    [handleAnswer] always finds its question; at most one transition is
    pending, and only while [isProcessing] is set. *)
Theorem X4_position_always_valid (calculateScore : R -> bool -> R)
    (questions : list question) (es : list App.event) :
  questions <> [] ->
  let w := App.run questions calculateScore es in
  (App.currentQuestion (App.st w) < length questions)%nat
  /\ is_Some (questions !! App.currentQuestion (App.st w))
  /\ (length (App.timers w) <= 1)%nat
  /\ (App.timers w <> [] -> App.isProcessing w = true).
Proof.
  intros Hne w.
  destruct (run_position calculateScore questions es Hne) as [Hc Ht].
  fold w in Hc, Ht.
  split; [exact Hc |]. split; [now apply lookup_lt_is_Some_2 |].
  destruct Ht as [-> | (cb & -> & Hp & _)].
  - split; [simpl; lia | congruence].
  - split; [simpl; lia | intros _; exact Hp].
Qed.

Lemma X4_position_always_valid_witness :
  sampleBank <> []
  /\ is_Some (sampleBank
              !! App.currentQuestion
                   (App.st (App.run sampleBank scoreCore
                              [App.Answer 5; App.Reset; App.TimerFires;
                               App.Answer 1; App.TimerFires; App.Answer 3;
                               App.TimerFires; App.GoBack]))).
Proof.
  assert (Hne : sampleBank <> []) by discriminate.
  split; [exact Hne |].
  apply (X4_position_always_valid scoreCore sampleBank _ Hne).
Defined.

(** X5.  The guard against repeated clicks: once [handleAnswer] has
    run, [isProcessing] is set, and until the transition fires a second
    [handleAnswer] and a [goBack] change nothing at all. *)
Theorem X5_reentry_ignored (calculateScore : R -> bool -> R)
    (questions : list question) (v1 v2 : R) (w : App.world) :
  let w1 := App.handleAnswer questions calculateScore v1 w in
  App.isProcessing w1 = true
  /\ App.handleAnswer questions calculateScore v2 w1 = w1
  /\ App.goBack w1 = w1.
Proof.
  intros w1.
  assert (Hp : App.isProcessing w1 = true).
  { subst w1. unfold App.handleAnswer.
    destruct (App.isProcessing w) eqn:Hp; [exact Hp |].
    destruct (questions !! App.currentQuestion (App.st w)); reflexivity. }
  split; [exact Hp |]. split.
  - unfold App.handleAnswer at 1. now rewrite Hp.
  - unfold App.goBack. rewrite Hp. now rewrite andb_false_r.
Qed.

(** ** Accumulated scores, question by question *)

Section BankTotal.

Variable calculateScore : R -> bool -> R.

Let entryScore (a : App.answer) : R :=
  calculateScore (App.value a) (App.isReverse a).

(** The total with any assignment of dimensions to ids. *)
Let totalWith (dim : nat -> option func) (m : gmap nat App.answer) (d : func) : R :=
  map_fold
    (fun i a acc => if decide (dim i = Some d) then acc + entryScore a else acc)
    0 m.

Lemma totalWith_insert (dim : nat -> option func) (m : gmap nat App.answer)
    (i : nat) (a : App.answer) (d : func) :
  m !! i = None ->
  totalWith dim (<[i := a]> m) d
  = (if decide (dim i = Some d) then totalWith dim m d + entryScore a
     else totalWith dim m d).
Proof.
  intros Hnone. unfold totalWith.
  rewrite map_fold_insert_L; [reflexivity | | exact Hnone].
  intros j1 j2 z1 z2 y _ _ _. repeat case_decide; lra.
Qed.

Lemma totalWith_ext (dim dim' : nat -> option func) (m : gmap nat App.answer)
    (d : func) :
  (forall i, is_Some (m !! i) -> dim i = dim' i) ->
  totalWith dim m d = totalWith dim' m d.
Proof.
  induction m as [| i a m Hnone IH] using map_ind; intros Hext.
  - unfold totalWith. now rewrite !map_fold_empty.
  - rewrite !totalWith_insert by exact Hnone.
    rewrite <- (Hext i) by (rewrite lookup_insert_eq; eauto).
    rewrite IH; [reflexivity |].
    intros j Hj. apply Hext. rewrite lookup_insert_ne; [exact Hj |].
    intros ->. rewrite Hnone in Hj. now destruct Hj.
Qed.

Lemma bankTotal_ext (questions : list question) (m m' : gmap nat App.answer)
    (d : func) :
  (forall q, In q questions -> m !! Question.id q = m' !! Question.id q) ->
  bankTotal calculateScore questions m d = bankTotal calculateScore questions m' d.
Proof.
  induction questions as [| q qs IH]; intros Hext; simpl; [reflexivity |].
  rewrite (Hext q) by now left.
  rewrite IH; [reflexivity |]. intros q' Hq'. apply Hext. now right.
Qed.

(** With distinct ids and answers keyed by ids of the bank, the sum over
    the recorded answers is the sum over the bank. *)
Lemma answersTotal_bankTotal (questions : list question)
    (m : gmap nat App.answer) (d : func) :
  NoDup (map Question.id questions) ->
  (forall i, is_Some (m !! i) -> In i (map Question.id questions)) ->
  answersTotal calculateScore questions m d
  = bankTotal calculateScore questions m d.
Proof.
  change (answersTotal calculateScore questions m d)
    with (totalWith (dimensionOf questions) m d).
  revert m. induction questions as [| q qs IH]; intros m Hnd Hkeys.
  - assert (m = ∅) as ->.
    { apply map_empty. intros i. destruct (m !! i) eqn:E; [| reflexivity].
      destruct (Hkeys i); eauto. }
    unfold totalWith. now rewrite map_fold_empty.
  - simpl in Hnd. pose proof (NoDup_cons_1_1 _ _ Hnd) as Hnotin.
    pose proof (NoDup_cons_1_2 _ _ Hnd) as Hnd'.
    assert (Hrest : forall i, is_Some (delete (Question.id q) m !! i) ->
                       In i (map Question.id qs)).
    { intros i Hi. destruct (decide (Question.id q = i)) as [<- | Hne].
      - rewrite lookup_delete_eq in Hi. now destruct Hi.
      - rewrite lookup_delete_ne in Hi by exact Hne.
        destruct (Hkeys i Hi) as [E | Hin]; [contradiction | exact Hin]. }
    assert (Hdim : forall i, is_Some (delete (Question.id q) m !! i) ->
                      dimensionOf (q :: qs) i = dimensionOf qs i).
    { intros i Hi. unfold dimensionOf. simpl.
      destruct (Nat.eqb_spec (Question.id q) i) as [<- | Hne]; [| reflexivity].
      rewrite lookup_delete_eq in Hi. now destruct Hi. }
    assert (Hbank : bankTotal calculateScore qs m d
                    = bankTotal calculateScore qs (delete (Question.id q) m) d).
    { apply bankTotal_ext. intros q' Hq'. rewrite lookup_delete_ne; [reflexivity |].
      intros E. apply Hnotin. rewrite E. apply list_elem_of_In. now apply in_map. }
    assert (Hq : dimensionOf (q :: qs) (Question.id q) = Some (Question.type q)).
    { unfold dimensionOf. simpl. now rewrite Nat.eqb_refl. }
    simpl. rewrite Hbank, <- (IH _ Hnd' Hrest), <- (totalWith_ext _ _ _ _ Hdim).
    destruct (m !! Question.id q) as [a |] eqn:Ha.
    + rewrite <- (insert_delete_id _ _ _ Ha) at 1.
      rewrite totalWith_insert by apply lookup_delete_eq.
      rewrite Hq. unfold entryScore.
      destruct (decide (Question.type q = d)) as [-> | Hne].
      * rewrite decide_True by reflexivity. lra.
      * rewrite decide_False by congruence. lra.
    + rewrite (delete_id _ _ Ha).
      destruct (decide (Question.type q = d)); lra.
Qed.

Lemma bankTotal_bound (questions : list question) (m : gmap nat App.answer)
    (d : func) (B : R) :
  (forall v r, Rabs (calculateScore v r) <= B) ->
  Rabs (bankTotal calculateScore questions m d) <= B * INR (questionsOf questions d).
Proof.
  intros HB. assert (H0 : 0 <= B) by (pose proof (HB 0 false); pose proof (Rabs_pos (calculateScore 0 false)); lra).
  unfold questionsOf.
  induction questions as [| q qs IH]; simpl.
  - rewrite Rabs_R0. lra.
  - destruct (decide (Question.type q = d)) as [E | NE].
    + rewrite filter_cons_True by exact E.
      change (length (q :: filter (fun q0 => Question.type q0 = d) qs))
        with (S (length (filter (fun q0 => Question.type q0 = d) qs))).
      rewrite S_INR.
      eapply Rle_trans; [apply Rabs_triang |].
      assert (Hq : Rabs (match m !! Question.id q with
                         | Some a => calculateScore (App.value a) (App.isReverse a)
                         | None => 0
                         end) <= B).
      { destruct (m !! Question.id q); [apply HB | rewrite Rabs_R0; exact H0]. }
      lra.
    + rewrite filter_cons_False by exact NE. rewrite Rplus_0_l. exact IH.
Qed.

End BankTotal.

Lemma run_scores_bankTotal (calculateScore : R -> bool -> R)
    (questions : list question) (es : list App.event) (d : func) :
  NoDup (map Question.id questions) ->
  App.functionScores (App.st (App.run questions calculateScore es)) d
  = bankTotal calculateScore questions
      (App.answers (App.st (App.run questions calculateScore es))) d.
Proof.
  intros Hnd.
  destruct (run_invariant calculateScore questions Hnd es) as [Hwf Hinv].
  rewrite (Hinv d). apply answersTotal_bankTotal; [exact Hnd |].
  intros i [a Ha]. destruct (Hwf i a Ha) as (q & Hq & <- & _).
  now apply in_map.
Qed.

Lemma normalize_unclamped (s : R) :
  -20 <= s <= 20 ->
  App.normalizeScore s = Math.round ((s + 20) / 40 * 100).
Proof.
  intros Hs. rewrite app_normalizeScore_eq.
  destruct (clamp_cases ((s + 20) / 40 * 100) 0 100)
    as [[H E] | [[H E] | [H E]]]; try lra; rewrite E; try reflexivity;
    f_equal; lra.
Qed.

(** X7.  With the refactored scorer and at most eight questions per
    function, as the comment on [SCORE_MIN] and [SCORE_MAX] assumes,
    every score a session can reach lies within 18.4 of zero, inside
    the range the normalizer maps: [normalizeScore] never clamps it,
    and the displayed value is between 4 and 96. *)
Theorem X7_reachable_scores_never_clamped (questions : list question)
    (es : list App.event) (d : func) :
  NoDup (map Question.id questions) ->
  (questionsOf questions d <= 8)%nat ->
  let s := App.functionScores (App.st (App.run questions scoreRefactored es)) d in
  Rabs s <= 184 / 10
  /\ App.normalizeScore s = Math.round ((s + 20) / 40 * 100)
  /\ 4 <= App.normalizeScore s <= 96.
Proof.
  intros Hnd H8 s.
  assert (Hs : Rabs s <= 184 / 10).
  { subst s. rewrite (run_scores_bankTotal scoreRefactored questions es d Hnd).
    eapply Rle_trans; [apply bankTotal_bound; exact refactored_score_abs |].
    pose proof Rpower_two_bounds as [Hc1 Hc2].
    assert (H8' : INR (questionsOf questions d) <= 8).
    { replace 8 with (INR 8) by (simpl; lra). now apply le_INR. }
    pose proof (pos_INR (questionsOf questions d)). nra. }
  assert (Hs' : - (184 / 10) <= s <= 184 / 10)
    by (revert Hs; unfold Rabs; destruct (Rcase_abs s); lra).
  split; [exact Hs |].
  rewrite normalize_unclamped by lra. split; [reflexivity |].
  unfold Math.round.
  assert (L : (4 <= Math.roundZ ((s + 20) / 40 * 100))%Z).
  { rewrite <- (roundZ_IZR 4). apply roundZ_mono. simpl. lra. }
  assert (U : (Math.roundZ ((s + 20) / 40 * 100) <= 96)%Z).
  { rewrite <- (roundZ_IZR 96). apply roundZ_mono. simpl. lra. }
  apply IZR_le in L, U. simpl in L, U. lra.
Qed.

Lemma X7_reachable_scores_never_clamped_witness :
  NoDup (map Question.id sampleBank)
  /\ (questionsOf sampleBank Ni <= 8)%nat
  /\ 4 <= App.normalizeScore
            (App.functionScores
               (App.st (App.run sampleBank scoreRefactored
                          [App.Answer 5; App.TimerFires; App.Answer 5;
                           App.TimerFires; App.Answer 5])) Ni) <= 96.
Proof.
  assert (Hids : NoDup (map Question.id sampleBank))
    by (apply (bool_decide_unpack _); vm_compute; reflexivity).
  assert (H8 : (questionsOf sampleBank Ni <= 8)%nat) by (vm_compute; lia).
  split; [exact Hids |]. split; [exact H8 |].
  apply (X7_reachable_scores_never_clamped sampleBank _ Ni Hids H8).
Defined.

(** ** A whole session, question by question *)

Section RunThrough.

Variable calculateScore : R -> bool -> R.
Variable questions : list question.
Variable values : list R.

Hypothesis ids_unique : NoDup (map Question.id questions).
Hypothesis all_answered : length values = length questions.

Lemma answerInTurn_snoc (vs : list R) (v : R) :
  answerInTurn (vs ++ [v]) = answerInTurn vs ++ [App.Answer v; App.TimerFires].
Proof. unfold answerInTurn. rewrite flat_map_app. simpl. reflexivity. Qed.

Lemma run_round (es : list App.event) (v : R) :
  App.run questions calculateScore (es ++ [App.Answer v; App.TimerFires])
  = App.timerFires
      (App.handleAnswer questions calculateScore v
         (App.run questions calculateScore es)).
Proof. unfold App.run. rewrite fold_left_app. reflexivity. Qed.

Lemma recordAnswer_fields (q : question) (v : R) (s : App.state) :
  App.currentQuestion (App.recordAnswer calculateScore q v s)
  = App.currentQuestion s
  /\ App.showResult (App.recordAnswer calculateScore q v s) = App.showResult s
  /\ App.answers (App.recordAnswer calculateScore q v s)
     = <[Question.id q := {| App.value := v;
                             App.isReverse :=
                               default false (Question.reverse q) |}]>
         (App.answers s).
Proof. repeat split. Qed.

(** After the first [k] answers: the position, the flags, and exactly
    the first [k] questions answered with the first [k] values. *)
Lemma after_k_answers (k : nat) :
  (k <= length questions)%nat ->
  let w := App.run questions calculateScore (answerInTurn (take k values)) in
  App.isProcessing w = false
  /\ App.timers w = []
  /\ ((k < length questions)%nat ->
      App.currentQuestion (App.st w) = k /\ App.showResult (App.st w) = false)
  /\ ((0 < k)%nat -> k = length questions ->
      App.currentQuestion (App.st w) = (k - 1)%nat
      /\ App.showResult (App.st w) = true)
  /\ size (App.answers (App.st w)) = k
  /\ (forall j a, App.answers (App.st w) !! j = Some a ->
        exists i q v, (i < k)%nat /\ questions !! i = Some q
                      /\ values !! i = Some v /\ Question.id q = j
                      /\ a = {| App.value := v;
                                App.isReverse :=
                                  default false (Question.reverse q) |})
  /\ (forall i q v, (i < k)%nat -> questions !! i = Some q ->
        values !! i = Some v ->
        App.answers (App.st w) !! Question.id q
        = Some {| App.value := v;
                  App.isReverse := default false (Question.reverse q) |}).
Proof.
  induction k as [| k IH]; intros Hk w; subst w.
  - simpl. repeat split; try (intros; lia).
    intros j a. rewrite lookup_empty. discriminate.
  - assert (Hk' : (k < length questions)%nat) by lia.
    specialize (IH ltac:(lia)). cbn zeta in IH.
    destruct IH as (Hp & Ht & Hpos & _ & Hsize & Hkeys & Hvals).
    destruct (Hpos Hk') as [Hcur Hshow].
    destruct (lookup_lt_is_Some_2 values k ltac:(lia)) as [v Hv].
    destruct (lookup_lt_is_Some_2 questions k Hk') as [q Hq].
    rewrite (take_S_r _ _ _ Hv), answerInTurn_snoc, run_round.
    set (w := App.run questions calculateScore (answerInTurn (take k values))) in *.
    assert (Hfresh : App.answers (App.st w) !! Question.id q = None).
    { destruct (App.answers (App.st w) !! Question.id q) as [a |] eqn:Ea;
        [| reflexivity].
      destruct (Hkeys _ _ Ea) as (i & q' & v' & Hi & Hq' & _ & Hid & _).
      assert (i = k); [| lia].
      eapply (NoDup_lookup (map Question.id questions)); [exact ids_unique | |].
      - rewrite list_lookup_fmap, Hq'. simpl. now rewrite Hid.
      - now rewrite list_lookup_fmap, Hq. }
    unfold App.handleAnswer. rewrite Hp, Hcur, Hq, Ht.
    unfold App.timerFires.
    cbn [App.timers App.st App.isProcessing app].
    destruct (recordAnswer_fields q v (App.st w)) as (Ec & Es & Ea).
    rewrite Ec, Hcur.
    split; [reflexivity |]. split; [reflexivity |].
    destruct (Nat.ltb_spec k (length questions - 1)) as [Hlt | Hge].
    + cbn [App.runCallback App.currentQuestion App.showResult App.answers].
      rewrite Ec, Es, Ea, Hcur, Hshow.
      split; [intros _; split; reflexivity |].
      split; [intros _ E; lia |].
      split; [rewrite map_size_insert_None by exact Hfresh; now rewrite Hsize |].
      split.
      * intros j a Hj. destruct (decide (Question.id q = j)) as [<- | Hne].
        -- rewrite lookup_insert_eq in Hj. injection Hj as <-.
           exists k, q, v. repeat split; try assumption; lia.
        -- rewrite lookup_insert_ne in Hj by exact Hne.
           destruct (Hkeys _ _ Hj) as (i & q' & v' & Hi & H).
           exists i, q', v'. split; [lia | exact H].
      * intros i q' v' Hi Hq' Hv'.
        destruct (decide (i = k)) as [-> | Hne].
        -- rewrite Hq in Hq'. rewrite Hv in Hv'.
           injection Hq' as <-. injection Hv' as <-. apply lookup_insert_eq.
        -- rewrite lookup_insert_ne; [apply (Hvals i); [lia | assumption..] |].
           intros E. rewrite E in Hfresh.
           rewrite (Hvals i q' v') in Hfresh by (try lia; assumption).
           discriminate.
    + cbn [App.runCallback App.currentQuestion App.showResult App.answers].
      rewrite Ec, Ea, Hcur.
      split; [intros Hlt; lia |].
      split; [intros _ _; split; [lia | reflexivity] |].
      split; [rewrite map_size_insert_None by exact Hfresh; now rewrite Hsize |].
      split.
      * intros j a Hj. destruct (decide (Question.id q = j)) as [<- | Hne].
        -- rewrite lookup_insert_eq in Hj. injection Hj as <-.
           exists k, q, v. repeat split; try assumption; lia.
        -- rewrite lookup_insert_ne in Hj by exact Hne.
           destruct (Hkeys _ _ Hj) as (i & q' & v' & Hi & H).
           exists i, q', v'. split; [lia | exact H].
      * intros i q' v' Hi Hq' Hv'.
        destruct (decide (i = k)) as [-> | Hne].
        -- rewrite Hq in Hq'. rewrite Hv in Hv'.
           injection Hq' as <-. injection Hv' as <-. apply lookup_insert_eq.
        -- rewrite lookup_insert_ne; [apply (Hvals i); [lia | assumption..] |].
           intros E. rewrite E in Hfresh.
           rewrite (Hvals i q' v') in Hfresh by (try lia; assumption).
           discriminate.
Qed.

End RunThrough.

(** X8.  Answering every question of a non-empty bank in turn, each
    answer followed by its transition, ends on the result screen at the
    last position with nothing pending; every question then holds
    exactly the value given for it with its own reversal flag, and a
    [reset()] from there is the initial session again. *)
Theorem X8_answering_all_ends_on_result (calculateScore : R -> bool -> R)
    (questions : list question) (values : list R) :
  NoDup (map Question.id questions) ->
  length values = length questions ->
  questions <> [] ->
  let w := App.run questions calculateScore (answerInTurn values) in
  App.showResult (App.st w) = true
  /\ App.currentQuestion (App.st w) = (length questions - 1)%nat
  /\ App.isProcessing w = false
  /\ App.timers w = []
  /\ size (App.answers (App.st w)) = length questions
  /\ (forall i q v, questions !! i = Some q -> values !! i = Some v ->
        App.answers (App.st w) !! Question.id q
        = Some {| App.value := v;
                  App.isReverse := default false (Question.reverse q) |})
  /\ App.reset w = App.initial.
Proof.
  intros Hnd Hlen Hne w.
  assert (Hpos : (0 < length questions)%nat)
    by (destruct questions; [congruence | simpl; lia]).
  pose proof (after_k_answers calculateScore questions values Hnd Hlen
                (length questions) (Nat.le_refl _)) as H.
  cbn zeta in H. rewrite <- Hlen, firstn_all in H. fold w in H.
  destruct H as (Hp & Ht & _ & Hend & Hsize & _ & Hvals).
  destruct (Hend ltac:(lia) eq_refl) as [Hcur Hshow].
  split; [exact Hshow |]. split; [now rewrite Hcur, Hlen |].
  split; [exact Hp |]. split; [exact Ht |].
  split; [now rewrite Hsize |]. split.
  - intros i q v Hq Hv. apply (Hvals i); try assumption.
    apply lookup_lt_Some in Hv. exact Hv.
  - unfold App.reset, App.initial. now rewrite Hp, Ht.
Qed.

Lemma X8_answering_all_ends_on_result_witness :
  NoDup (map Question.id sampleBank)
  /\ length [5; 1; 3] = length sampleBank
  /\ sampleBank <> []
  /\ App.showResult
       (App.st (App.run sampleBank scoreCore (answerInTurn [5; 1; 3]))) = true.
Proof.
  assert (Hids : NoDup (map Question.id sampleBank))
    by (apply (bool_decide_unpack _); vm_compute; reflexivity).
  split; [exact Hids |]. split; [reflexivity |]. split; [discriminate |].
  apply (X8_answering_all_ends_on_result scoreCore sampleBank [5; 1; 3] Hids
           eq_refl ltac:(discriminate)).
Defined.

(** ** Type classifier: ties, missing keys, small tables *)




Lemma stackTotal_ext (fs fs' : scores_object) (stack : list func)
    (ws : list R) (acc : R) :
  (forall f, or0 (fs f) = or0 (fs' f)) ->
  stackTotal fs stack ws acc = stackTotal fs' stack ws acc.
Proof.
  intros Hext. revert ws acc.
  induction stack as [| f stack IH]; intros [| w ws] acc; simpl;
    try reflexivity.
  rewrite Hext. apply IH.
Qed.

Lemma typeScoresOf_ext (fs fs' : scores_object) (ws : list R)
    (stacks : list (string * list func)) :
  (forall f, or0 (fs f) = or0 (fs' f)) ->
  typeScoresOf fs ws stacks = typeScoresOf fs' ws stacks.
Proof.
  intros Hext. induction stacks as [| [t stack] stacks IH]; simpl;
    [reflexivity |].
  now rewrite (stackTotal_ext fs fs' stack ws 0 Hext), IH.
Qed.

(** X10.  A function missing from [functionScores] counts exactly as
    a score of 0: on any table, both revisions of the classifier return
    the same result, failure included, for a score object and for the
    one with its missing keys filled in with 0. *)
Theorem X10_missing_key_is_zero (scoreVector : scores_object)
    (stacks : list (string * list func)) :
  let filled : scores_object := fun f => Some (default 0 (scoreVector f)) in
  Core.determineMBTIType scoreVector stacks
  = Core.determineMBTIType filled stacks
  /\ CoreRefactored.determineMBTIType scoreVector stacks
     = CoreRefactored.determineMBTIType filled stacks.
Proof.
  intros filled.
  assert (Hext : forall f, or0 (scoreVector f) = or0 (filled f)).
  { intros f. subst filled. cbv beta. rewrite !or0_id. reflexivity. }
  unfold Core.determineMBTIType, CoreRefactored.determineMBTIType.
  now rewrite !(typeScoresOf_ext scoreVector filled _ stacks Hext).
Qed.

(** X11.  Tables too small to rank.  On an empty table both revisions
    throw.  On a table of one type [core.js] throws at [second[1]],
    while the refactored classifier returns that type with a [null]
    runner-up, the missing second score taken as 0: confidence 0 when
    the only total is not positive, 100 when it is at least 1. *)
Theorem X11_small_tables (scoreVector : scores_object) :
  Core.determineMBTIType scoreVector [] = None
  /\ CoreRefactored.determineMBTIType scoreVector [] = None
  /\ forall (t : string) (stack : list func),
       (length stack <= 4)%nat ->
       Core.determineMBTIType scoreVector [(t, stack)] = None
       /\ exists total conf : R,
            totalsOf scoreVector [(t, stack)] = [(t, total)]
            /\ CoreRefactored.determineMBTIType scoreVector [(t, stack)]
               = Some {| CoreRefactored.type := t;
                         CoreRefactored.confidence := conf;
                         CoreRefactored.top2 := (t, None);
                         CoreRefactored.typeScores := [(t, total)] |}
            /\ (total <= 0 -> conf = 0)
            /\ (1 <= total -> conf = 100).
Proof.
  split; [reflexivity |]. split; [reflexivity |].
  intros t stack Hlen.
  assert (Hf : Forall (fun e : string * list func => (length (snd e) <= 4)%nat)
                 [(t, stack)]) by (constructor; [exact Hlen | constructor]).
  pose proof (typeScoresOf_totalsOf scoreVector [(t, stack)] Hf) as Hts.
  unfold Core.determineMBTIType, CoreRefactored.determineMBTIType.
  change CoreRefactored.stackWeights with Core.weights. rewrite Hts.
  set (total := weightedSum (fun f => default 0 (scoreVector f)) stack specWeights).
  change (totalsOf scoreVector [(t, stack)]) with [(t, total)].
  split; [reflexivity |].
  eexists total, _. split; [reflexivity |]. split; [reflexivity |].
  unfold CoreRefactored.CONFIDENCE_BOUNDS_MIN, CoreRefactored.CONFIDENCE_BOUNDS_MAX,
    CoreRefactored.CONFIDENCE_CALCULATION_EPSILON, Math.abs, Math.max, Math.min.
  rewrite Rabs_R0, Rminus_0_r.
  set (raw := 100 * (total / (Rabs total + 0 + 1 / 1000000))).
  assert (Hden : 0 < Rabs total + 0 + 1 / 1000000)
    by (pose proof (Rabs_pos total); lra).
  change (Rmax 0 (Rmin 100 (Math.round raw))) with (clamp (Math.round raw) 0 100).
  rewrite (round_clamp raw 0 100) by lia.
  split.
  - intros Hle.
    assert (Hraw : raw <= 0).
    { unfold raw.
      assert (Hinv : 0 < / (Rabs total + 0 + 1 / 1000000))
        by now apply Rinv_0_lt_compat.
      unfold Rdiv. nra. }
    destruct (clamp_cases raw 0 100) as [[_ ->] | [[H ->] | [H _]]]; try lra.
    + apply (round_IZR 0).
    + replace raw with 0 by lra. apply (round_IZR 0).
  - intros Hge.
    assert (Hraw : 995 / 10 <= raw < 100).
    { unfold raw. rewrite Rabs_right in * by lra.
      set (den := total + 0 + 1 / 1000000) in *.
      set (q := total / den).
      assert (Hq : q * den = total) by (unfold q; field; lra).
      split.
      - destruct (Rle_lt_dec (995 / 1000) q) as [H | H]; [lra | exfalso].
        assert (0 < (995 / 1000 - q) * den) by (apply Rmult_lt_0_compat; lra).
        unfold den in *. lra.
      - destruct (Rlt_le_dec q 1) as [H | H]; [lra | exfalso].
        assert (0 <= (q - 1) * den) by (apply Rmult_le_pos; lra).
        unfold den in *. lra. }
    destruct (clamp_cases raw 0 100) as [[H _] | [[_ ->] | [H _]]]; try lra.
    unfold Math.round, Math.roundZ.
    rewrite (floorZ_unique _ 100); [reflexivity |]. simpl. lra.
Qed.

(** ** [generateMockScores] *)

Lemma stackOf_in (t : string) (stack : list func) :
  In (t, stack) COGNITIVE_STACKS -> CoreTools.stackOf t = Some stack.
Proof.
  intros Hin. simpl in Hin.
  repeat (destruct Hin as [E | Hin]; [inversion E; subst; reflexivity |]).
  contradiction.
Qed.

Lemma stackOf_some (t : string) (stack : list func) :
  CoreTools.stackOf t = Some stack -> In (t, stack) COGNITIVE_STACKS.
Proof.
  unfold CoreTools.stackOf. intros H.
  destruct (find _ COGNITIVE_STACKS) as [[t' stack'] |] eqn:Hf; [| discriminate].
  simpl in H. injection H as ->.
  apply find_some in Hf as [Hin Ht]. simpl in Ht.
  apply bool_decide_eq_true in Ht. now subst.
Qed.

(** The mock vector of one type against the table: that type's total is
    strictly the greatest. *)
Ltac mock_wins :=
  match goal with
  | |- forall t' x, In (t', x) ?l -> _ =>
      let Hin := fresh in let Hne := fresh in let E := fresh in
      intros ? ? Hin Hne; simpl in Hin;
      repeat (destruct Hin as [E | Hin];
              [inversion E; subst; clear E;
               first [ congruence
                     | unfold scoresObject, CoreTools.assignAt, insert, fn_insert;
                       simpl; lra ] |]);
      contradiction
  end.

Lemma mock_total_strictly_greatest (t : string) (stack : list func)
    (scores : func -> R) :
  In (t, stack) COGNITIVE_STACKS ->
  CoreTools.generateMockScores t = (Some scores, []) ->
  In (t, 825 / 10) (totalsOf (scoresObject scores) COGNITIVE_STACKS)
  /\ forall t' x, In (t', x) (totalsOf (scoresObject scores) COGNITIVE_STACKS) ->
                  t' <> t -> x < 825 / 10.
Proof.
  intros Hin Hgen. simpl in Hin.
  repeat (destruct Hin as [E | Hin];
          [inversion E; subst; clear E;
           unfold CoreTools.generateMockScores in Hgen;
           simpl in Hgen; injection Hgen as <-;
           split;
           [ simpl;
             repeat (first [ left; apply f_equal;
                             unfold scoresObject, CoreTools.assignAt, insert,
                               fn_insert; simpl; lra
                           | right ])
           | mock_wins ] |]).
  contradiction.
Qed.

Lemma propertyOf_own (t : string) (stack : list func) :
  In (t, stack) COGNITIVE_STACKS -> CoreTools.propertyOf t = Some stack.
Proof.
  intros Hin. unfold CoreTools.propertyOf. now rewrite (stackOf_in _ _ Hin).
Qed.

Lemma stackOf_none (t : string) :
  (forall stack, ~ In (t, stack) COGNITIVE_STACKS) -> CoreTools.stackOf t = None.
Proof.
  intros Hnot.
  destruct (CoreTools.stackOf t) as [stack |] eqn:Hs; [| reflexivity].
  exfalso. apply (Hnot stack). now apply stackOf_some.
Qed.

(** X12.  [generateMockScores] and the classifier are a round trip: for
    each of the sixteen types of the table the mock vector is built
    without error, its own type has the total 82.5, strictly above every
    other, and both revisions of [determineMBTIType] return that type.
    A name that is not a type but is inherited from [Object.prototype],
    such as [toString], passes the test [in] too: the result is then an
    object with all eight functions at 0 and nothing is logged.  For
    every other name the result is [null] with one error. *)
Theorem X12_mock_scores_round_trip (targetType : string) :
  (forall stack : list func,
      In (targetType, stack) COGNITIVE_STACKS ->
      exists (scores : func -> R) (r : Core.classification)
             (r' : CoreRefactored.classification),
        CoreTools.generateMockScores targetType = (Some scores, [])
        /\ Core.determineMBTIType (scoresObject scores) COGNITIVE_STACKS = Some r
        /\ CoreRefactored.determineMBTIType (scoresObject scores) COGNITIVE_STACKS
           = Some r'
        /\ Core.type r = targetType
        /\ CoreRefactored.type r' = targetType
        /\ In (targetType, 825 / 10) (Core.typeScores r)
        /\ (forall t x, In (t, x) (Core.typeScores r) -> t <> targetType ->
                        x < 825 / 10))
  /\ ((forall stack, ~ In (targetType, stack) COGNITIVE_STACKS) ->
      (In targetType CoreTools.ObjectPrototype ->
       CoreTools.generateMockScores targetType = (Some (fun _ => 0), []))
      /\ (~ In targetType CoreTools.ObjectPrototype ->
          CoreTools.generateMockScores targetType
          = (None, [CoreTools.InvalidType targetType])))
  /\ CoreTools.generateMockScores "toString" = (Some (fun _ => 0), []).
Proof.
  split; [| split].
  - intros stack Hin.
    assert (Hgen : exists scores,
               CoreTools.generateMockScores targetType = (Some scores, [])).
    { unfold CoreTools.generateMockScores. rewrite (propertyOf_own _ _ Hin). eauto. }
    destruct Hgen as [scores Hgen].
    destruct (mock_total_strictly_greatest _ _ _ Hin Hgen) as [Hown Hothers].
    destruct COGNITIVE_STACKS_wf as (Hnd & Hlen & H2).
    destruct (determineMBTIType_ranked (scoresObject scores) COGNITIVE_STACKS
                Hlen H2) as (best & second & rest & Hsort & Hcore & Hrefactored).
    rewrite <- (totalsOf_names (scoresObject scores)) in Hnd.
    destruct (ranked_order _ _ _ _ Hnd Hsort) as (Hbest & _ & _ & Htop & _).
    assert (Eb : fst best = targetType).
    { destruct (decide (fst best = targetType)) as [E | NE]; [exact E |].
      exfalso. pose proof (Htop _ Hown) as H1. simpl in H1.
      pose proof (Hothers (fst best) (snd best)) as H3.
      rewrite <- surjective_pairing in H3. specialize (H3 Hbest NE). lra. }
    eexists scores, _, _. split; [exact Hgen |].
    split; [exact Hcore |]. split; [exact Hrefactored |]. simpl.
    split; [exact Eb |]. split; [exact Eb |]. split; [exact Hown | exact Hothers].
  - intros Hnot. unfold CoreTools.generateMockScores, CoreTools.propertyOf.
    rewrite (stackOf_none _ Hnot). split; intros Hin.
    + rewrite bool_decide_eq_true_2 by now apply list_elem_of_In.
      reflexivity.
    + rewrite bool_decide_eq_false_2; [reflexivity |].
      intros H. now apply list_elem_of_In in H.
  - reflexivity.
Qed.

(** ** [validateFunctionScores] *)

Lemma requiredFunctions_all (f : func) : In f CoreTools.requiredFunctions.
Proof. destruct f; simpl; tauto. Qed.

Lemma checkFunction_cases (fields : func -> option CoreTools.jsval) (f : func)
    (e : CoreTools.validation_error) :
  In e (CoreTools.checkFunction fields f) <->
  (e = CoreTools.MissingFunction f /\ fields f = None)
  \/ (e = CoreTools.NotANumber f CoreTools.JsNotNumber
      /\ fields f = Some CoreTools.JsNotNumber)
  \/ (exists v, e = CoreTools.NotFinite f v /\ fields f = Some v
                /\ (v = CoreTools.JsNaN \/ exists s, v = CoreTools.JsInfinity s)).
Proof.
  unfold CoreTools.checkFunction.
  destruct (fields f) as [[x | | s |] |]; simpl;
    (split; [intros [<- | []] || intros []; eauto 8 |]);
    intros [[? ?] | [[? ?] | (? & ? & ? & [? | [? ?]])]];
    subst; auto; try discriminate; try (left; congruence).
Qed.

Lemma validate_errors_in (fields : func -> option CoreTools.jsval)
    (e : CoreTools.validation_error) :
  In e (CoreTools.errors (CoreTools.validateFunctionScores (Some fields)))
  <-> exists f, In e (CoreTools.checkFunction fields f).
Proof.
  unfold CoreTools.validateFunctionScores. cbn [CoreTools.errors].
  rewrite in_flat_map. split.
  - intros (f & _ & H). eauto.
  - intros (f & H). exists f. split; [apply requiredFunctions_all | exact H].
Qed.

(** X13.  [validateFunctionScores] accepts exactly the objects in which
    each of the eight functions holds a finite number.  Otherwise it
    lists one error per offending function and none for the others: a
    missing key, a value that is not a number, or a number that is not
    finite; an argument that is not an object gets the single error for
    that. *)
Theorem X13_validateFunctionScores
    (functionScores : option (func -> option CoreTools.jsval)) :
  let v := CoreTools.validateFunctionScores functionScores in
  (CoreTools.isValid v = true <-> CoreTools.errors v = [])
  /\ (CoreTools.isValid v = true <->
      exists fields, functionScores = Some fields
                     /\ forall f, exists x, fields f = Some (CoreTools.JsNumber x))
  /\ (functionScores = None -> CoreTools.errors v = [CoreTools.NotAnObject])
  /\ (forall fields, functionScores = Some fields ->
        (length (CoreTools.errors v) <= 8)%nat
        /\ (forall f, In (CoreTools.MissingFunction f) (CoreTools.errors v)
                      <-> fields f = None)
        /\ (forall f u, In (CoreTools.NotANumber f u) (CoreTools.errors v)
                        <-> fields f = Some u /\ u = CoreTools.JsNotNumber)
        /\ (forall f u, In (CoreTools.NotFinite f u) (CoreTools.errors v)
                        <-> fields f = Some u
                            /\ (u = CoreTools.JsNaN
                                \/ exists s, u = CoreTools.JsInfinity s))
        /\ ~ In CoreTools.NotAnObject (CoreTools.errors v)).
Proof.
  intros v. subst v.
  assert (Hvalid : CoreTools.isValid (CoreTools.validateFunctionScores functionScores)
                   = true
                   <-> CoreTools.errors
                         (CoreTools.validateFunctionScores functionScores) = []).
  { destruct functionScores as [fields |]; simpl; [| split; discriminate].
    rewrite Nat.eqb_eq. split; [apply length_zero_iff_nil | intros ->; reflexivity]. }
  split; [exact Hvalid |]. split; [| split].
  - rewrite Hvalid. destruct functionScores as [fields |]; [| split].
    + split.
      * intros Hnil. exists fields. split; [reflexivity |]. intros f.
        assert (Hf : CoreTools.checkFunction fields f = []).
        { destruct (CoreTools.checkFunction fields f) as [| e l] eqn:E;
            [reflexivity | exfalso].
          assert (Hin : In e (CoreTools.errors
                                (CoreTools.validateFunctionScores (Some fields)))).
          { apply validate_errors_in. exists f. rewrite E. now left. }
          rewrite Hnil in Hin. destruct Hin. }
        unfold CoreTools.checkFunction in Hf.
        destruct (fields f) as [[x | | s |] |]; try discriminate. eauto.
      * intros (fields' & [= <-] & Hall).
        destruct (CoreTools.errors _) as [| e l] eqn:E; [reflexivity | exfalso].
        assert (Hin : In e (CoreTools.errors
                              (CoreTools.validateFunctionScores (Some fields))))
          by (rewrite E; now left).
        apply validate_errors_in in Hin as (f & Hin).
        destruct (Hall f) as [x Hx].
        unfold CoreTools.checkFunction in Hin. rewrite Hx in Hin. destruct Hin.
    + discriminate.
    + intros (fields & H & _). discriminate.
  - intros ->. reflexivity.
  - intros fields ->. split; [| split; [| split; [| split]]].
    + unfold CoreTools.validateFunctionScores. cbn [CoreTools.errors].
      change 8%nat with (length CoreTools.requiredFunctions).
      induction CoreTools.requiredFunctions as [| f l IH]; simpl; [lia |].
      rewrite length_app.
      assert (length (CoreTools.checkFunction fields f) <= 1)%nat; [| lia].
      unfold CoreTools.checkFunction.
      destruct (fields f) as [[? | | ? |] |]; simpl; lia.
    + intros f. rewrite validate_errors_in. split.
      * intros (g & Hg). apply checkFunction_cases in Hg
          as [[E H] | [[E _] | (u & E & _)]]; try discriminate.
        injection E as <-. exact H.
      * intros H. exists f. apply checkFunction_cases. left. auto.
    + intros f u. rewrite validate_errors_in. split.
      * intros (g & Hg). apply checkFunction_cases in Hg
          as [[E _] | [[E H] | (u' & E & _)]]; try discriminate.
        injection E as <- ->. auto.
      * intros [H ->]. exists f. apply checkFunction_cases. right; left. auto.
    + intros f u. rewrite validate_errors_in. split.
      * intros (g & Hg). apply checkFunction_cases in Hg
          as [[E _] | [[E _] | (u' & E & H & Hu)]]; try discriminate.
        injection E as <- <-. auto.
      * intros [H Hu]. exists f. apply checkFunction_cases. right; right. eauto.
    + rewrite validate_errors_in. intros (g & Hg).
      apply checkFunction_cases in Hg
        as [[E _] | [[E _] | (u' & E & _)]]; discriminate.
Qed.

(** ** [getDetailedFunctionScores] *)

(** A descending sort by a score: sorted, whatever the entries are. *)
Lemma sort_desc_sorted {A} (score : A -> R) (l : list A) :
  StronglySorted (fun a b => score b <= score a)
    (Array_sort (fun a b => score b - score a) l).
Proof.
  induction l as [| x l IH]; simpl; [constructor |].
  fold (Array_sort (fun a b => score b - score a) l).
  induction IH as [| y t Hs IHt Hy]; simpl.
  - repeat constructor.
  - destruct (Rlt_dec 0 (score y - score x)) as [Hlt | Hge].
    + constructor; [exact IHt |].
      eapply Permutation_Forall; [symmetry; apply sort_insert_perm |].
      constructor; [lra | exact Hy].
    + constructor; [now constructor |].
      constructor; [lra |].
      eapply Forall_impl; [| exact Hy]. intros z Hz. simpl in Hz. lra.
Qed.

Lemma floorZ_ge (y : R) (n : Z) : (n <= Math.floorZ y)%Z <-> IZR n <= y.
Proof.
  destruct (floorZ_spec y) as [H1 H2]. split.
  - intros H. apply IZR_le in H. lra.
  - intros H.
    assert (Hlt : IZR n < IZR (Math.floorZ y + 1)) by (rewrite plus_IZR; lra).
    apply lt_IZR in Hlt. lia.
Qed.

(** The displayed value reaches [n] exactly from the raw score that
    maps to [n - 0.5]. *)
Lemma normalized_ge (raw : R) (n : Z) :
  (1 <= n <= 100)%Z ->
  IZR n <= CoreRefactored.normalizeScore raw
  <-> (IZR n - / 2) * 40 / 100 - 20 <= raw.
Proof.
  intros [H1 H100]. apply IZR_le in H1, H100.
  rewrite refactored_normalizeScore_eq. unfold Math.round, Math.roundZ.
  split.
  - intros H. apply le_IZR, floorZ_ge in H.
    destruct (clamp_cases ((raw + 20) / 40 * 100) 0 100 ltac:(lra))
      as [[Hx E] | [[Hx E] | [Hx E]]]; rewrite E in H; lra.
  - intros H. apply IZR_le, floorZ_ge.
    destruct (clamp_cases ((raw + 20) / 40 * 100) 0 100 ltac:(lra))
      as [[Hx E] | [[Hx E] | [Hx E]]]; rewrite E; lra.
Qed.

Lemma toFixed2_close (x : R) : Rabs (CoreTools.toFixed2 x - x) <= 5 / 1000.
Proof.
  unfold CoreTools.toFixed2, Math.abs.
  destruct (floorZ_spec (Rabs x * 100 + / 2)) as [H1 H2].
  set (n := IZR (Math.floorZ (Rabs x * 100 + / 2))) in *.
  apply Rabs_le.
  destruct (sign_values x) as [[Hx ->] | [[Hx ->] | [Hx ->]]].
  - rewrite Rabs_left in H1, H2 by exact Hx. lra.
  - subst x. rewrite Rabs_R0 in H1, H2. lra.
  - rewrite Rabs_right in H1, H2 by lra. lra.
Qed.

Lemma detail_label (f : func) (raw : R) :
  CoreTools.interpretation (CoreTools.detailOf (f, raw))
  = (if Rle_dec (98 / 10) raw then "非常に強い"
     else if Rle_dec (38 / 10) raw then "強い"
     else if Rle_dec (-42 / 10) raw then "平均的"
     else if Rle_dec (-102 / 10) raw then "弱い"
     else "非常に弱い")%string.
Proof.
  unfold CoreTools.detailOf. cbn [CoreTools.interpretation].
  pose proof (normalized_ge raw 75 ltac:(lia)) as H75.
  pose proof (normalized_ge raw 60 ltac:(lia)) as H60.
  pose proof (normalized_ge raw 40 ltac:(lia)) as H40.
  pose proof (normalized_ge raw 25 ltac:(lia)) as H25.
  replace ((IZR 75 - / 2) * 40 / 100 - 20) with (98 / 10) in H75 by (simpl; lra).
  replace ((IZR 60 - / 2) * 40 / 100 - 20) with (38 / 10) in H60 by (simpl; lra).
  replace ((IZR 40 - / 2) * 40 / 100 - 20) with (-42 / 10) in H40 by (simpl; lra).
  replace ((IZR 25 - / 2) * 40 / 100 - 20) with (-102 / 10) in H25 by (simpl; lra).
  change (IZR 75) with 75 in H75. change (IZR 60) with 60 in H60.
  change (IZR 40) with 40 in H40. change (IZR 25) with 25 in H25.
  destruct (Rle_dec 75 (CoreRefactored.normalizeScore raw)) as [L | L];
    destruct (Rle_dec (98 / 10) raw) as [L' | L'];
    try (exfalso; tauto); [reflexivity |].
  destruct (Rle_dec 60 (CoreRefactored.normalizeScore raw)) as [M | M];
    destruct (Rle_dec (38 / 10) raw) as [M' | M'];
    try (exfalso; tauto); [reflexivity |].
  destruct (Rle_dec 40 (CoreRefactored.normalizeScore raw)) as [N | N];
    destruct (Rle_dec (-42 / 10) raw) as [N' | N'];
    try (exfalso; tauto); [reflexivity |].
  destruct (Rle_dec 25 (CoreRefactored.normalizeScore raw)) as [P | P];
    destruct (Rle_dec (-102 / 10) raw) as [P' | P'];
    try (exfalso; tauto); reflexivity.
Qed.

(** X14.  [getDetailedFunctionScores] returns one record per entry of
    the object, ordered by displayed value, greatest first; the label
    of a record depends on the raw score alone, with the cut points 9.8,
    3.8, -4.2 and -10.2; the reported raw score is within 0.005 of the
    true one.  An argument that is not an object gives the empty list
    and one error. *)
Theorem X14_detailed_scores (entries : list (func * R)) :
  let out := fst (CoreTools.getDetailedFunctionScores (Some entries)) in
  Permutation out (map CoreTools.detailOf entries)
  /\ StronglySorted
       (fun a b => CoreTools.normalizedScore b <= CoreTools.normalizedScore a) out
  /\ snd (CoreTools.getDetailedFunctionScores (Some entries)) = []
  /\ CoreTools.getDetailedFunctionScores None = ([], [CoreTools.InvalidInput])
  /\ forall (f : func) (raw : R),
       let d := CoreTools.detailOf (f, raw) in
       (CoreTools.interpretation d = "非常に強い"%string <-> 98 / 10 <= raw)
       /\ (CoreTools.interpretation d = "強い"%string
           <-> 38 / 10 <= raw < 98 / 10)
       /\ (CoreTools.interpretation d = "平均的"%string
           <-> -42 / 10 <= raw < 38 / 10)
       /\ (CoreTools.interpretation d = "弱い"%string
           <-> -102 / 10 <= raw < -42 / 10)
       /\ (CoreTools.interpretation d = "非常に弱い"%string
           <-> raw < -102 / 10)
       /\ Rabs (CoreTools.rawScore d - raw) <= 5 / 1000
       /\ CoreTools.normalizedScore d = CoreRefactored.normalizeScore raw.
Proof.
  intros out. subst out. simpl fst. simpl snd.
  split; [apply Array_sort_perm |].
  split; [apply (sort_desc_sorted CoreTools.normalizedScore) |].
  split; [reflexivity |]. split; [reflexivity |].
  intros f raw d. subst d. rewrite detail_label.
  split; [| split; [| split; [| split; [| split; [| split]]]]];
    try apply toFixed2_close; try reflexivity;
    destruct (Rle_dec (98 / 10) raw); destruct (Rle_dec (38 / 10) raw);
    destruct (Rle_dec (-42 / 10) raw); destruct (Rle_dec (-102 / 10) raw);
    (split; [intros E; try discriminate E; lra | intros Hr; try reflexivity; lra]).
Qed.

(** ** Display data of the current [app.js] *)

Lemma round_range (x : R) (lo hi : Z) :
  IZR lo <= x <= IZR hi -> (lo <= Math.roundZ x <= hi)%Z.
Proof.
  intros [H1 H2]. apply roundZ_mono in H1, H2.
  rewrite roundZ_IZR in H1, H2. lia.
Qed.

Lemma progress_ratio (c n : nat) :
  (c < n)%nat -> (2 <= n)%nat ->
  0 <= INR c / (INR n - 1) * 100 <= 100.
Proof.
  intros Hc Hn.
  assert (Hn1 : INR n - 1 = INR (n - 1)) by (rewrite minus_INR by lia; simpl; lra).
  assert (Hpos : 0 < INR (n - 1)) by (apply lt_0_INR; lia).
  assert (Hle : INR c <= INR (n - 1)) by (apply le_INR; lia).
  pose proof (pos_INR c) as H0. rewrite Hn1.
  set (q := INR c / INR (n - 1)).
  assert (Hq : q * INR (n - 1) = INR c) by (unfold q; field; lra).
  assert (0 <= q).
  { unfold q, Rdiv. apply Rmult_le_pos; [lra | left; now apply Rinv_0_lt_compat]. }
  assert (q <= 1).
  { destruct (Rle_lt_dec q 1) as [H1 | H1]; [exact H1 | exfalso].
    assert (0 < (q - 1) * INR (n - 1)) by (apply Rmult_lt_0_compat; lra). lra. }
  lra.
Qed.

(** X15.  At every point of a session over a non-empty bank
    [progressPercent()] is a whole number from 0 to 100: 100 on the last
    question, 0 on the first of a bank of two or more, and never
    smaller for a later position. *)
Theorem X15_progress_percent (calculateScore : R -> bool -> R)
    (questions : list question) (es : list App.event) :
  questions <> [] ->
  let s := App.st (App.run questions calculateScore es) in
  (exists z : Z, AppView.progressPercent questions s = IZR z /\ (0 <= z <= 100)%Z)
  /\ (App.currentQuestion s = (length questions - 1)%nat ->
      AppView.progressPercent questions s = 100)
  /\ (App.currentQuestion s = 0%nat -> (2 <= length questions)%nat ->
      AppView.progressPercent questions s = 0)
  /\ (forall s' : App.state,
        (App.currentQuestion s <= App.currentQuestion s')%nat ->
        (App.currentQuestion s' < length questions)%nat ->
        AppView.progressPercent questions s
        <= AppView.progressPercent questions s').
Proof.
  intros Hne s.
  destruct (run_position calculateScore questions es Hne) as [Hc _].
  fold s in Hc. unfold AppView.progressPercent.
  destruct (Nat.leb_spec (length questions) 1) as [H1 | H2].
  - split; [exists 100%Z; split; [reflexivity | lia] |].
    split; [reflexivity |]. split; [intros _ H; lia |]. intros; lra.
  - pose proof (progress_ratio _ _ Hc ltac:(lia)) as Hr.
    split; [| split; [| split]].
    + eexists. split; [reflexivity |]. apply (round_range _ 0 100). exact Hr.
    + intros E. rewrite E.
      replace (INR (length questions - 1) / (INR (length questions) - 1) * 100)
        with (IZR 100); [apply round_IZR |].
      rewrite minus_INR by lia. simpl. field.
      assert (1 < INR (length questions)); [| lra].
      replace 1 with (INR 1) by reflexivity. apply lt_INR. lia.
    + intros E _. rewrite E. simpl INR.
      replace (0 / (INR (length questions) - 1) * 100) with (IZR 0);
        [apply round_IZR |].
      unfold Rdiv. simpl. lra.
    + intros s' Hle Hlt. unfold Math.round. apply IZR_le, roundZ_mono.
      assert (Hpos : 0 < / (INR (length questions) - 1)).
      { apply Rinv_0_lt_compat.
        assert (1 < INR (length questions)); [| lra].
        replace 1 with (INR 1) by reflexivity. apply lt_INR. lia. }
      apply le_INR in Hle. unfold Rdiv. nra.
Qed.

Lemma X15_progress_percent_witness :
  sampleBank <> []
  /\ exists z : Z,
       AppView.progressPercent sampleBank
         (App.st (App.run sampleBank scoreCore
                    [App.Answer 5; App.TimerFires; App.Answer 2])) = IZR z
       /\ (0 <= z <= 100)%Z.
Proof.
  assert (Hne : sampleBank <> []) by discriminate.
  split; [exact Hne |].
  apply (X15_progress_percent scoreCore sampleBank
           [App.Answer 5; App.TimerFires; App.Answer 2] Hne).
Defined.

Lemma descriptionOf_table (t : string) :
  In t (map fst COGNITIVE_STACKS) ->
  exists name desc,
    AppView.descriptionOf t = Some (name, desc)
    /\ In (t, (name, desc)) AppView.mbtiDescriptions.
Proof.
  intros Hin. simpl in Hin.
  repeat (destruct Hin as [<- | Hin];
          [eexists _, _; split; [reflexivity | simpl; tauto] |]).
  contradiction.
Qed.

Lemma answers_size_le (questions : list question) (s : App.state) :
  AnswersWellFormed questions s ->
  (size (App.answers s) <= length questions)%nat.
Proof.
  intros Hwf.
  rewrite <- (length_map Question.id questions).
  rewrite <- length_map_to_list, <- (length_map fst (map_to_list _)).
  apply submseteq_length, NoDup_submseteq; [apply NoDup_fst_map_to_list |].
  intros i Hi. apply list_elem_of_fmap in Hi as [[i' a] [-> Hia]].
  apply elem_of_map_to_list in Hia. simpl.
  destruct (Hwf _ _ Hia) as (q & Hq & <- & _).
  apply list_elem_of_In. now apply in_map.
Qed.

Lemma sortedScores_shape (s : App.state) :
  Permutation (map fst (AppView.sortedScores s)) [Ni; Ne; Si; Se; Ti; Te; Fi; Fe]
  /\ StronglySorted (fun a b => snd b <= snd a) (AppView.sortedScores s)
  /\ Forall (fun e => snd e = App.normalizeScore (App.functionScores s (fst e))
                      /\ exists z : Z, snd e = IZR z /\ (0 <= z <= 100)%Z)
       (AppView.sortedScores s).
Proof.
  unfold AppView.sortedScores. split; [| split].
  - rewrite Array_sort_perm. unfold AppView.scoreEntries.
    rewrite !map_map. simpl. reflexivity.
  - apply (sort_desc_sorted snd).
  - eapply Permutation_Forall; [symmetry; apply Array_sort_perm |].
    unfold AppView.scoreEntries. rewrite map_map. simpl.
    repeat constructor; simpl;
      rewrite app_normalizeScore_eq;
      (eexists; split; [reflexivity | apply (round_clamp_range _ 0 100); lia]).
Qed.

(** X16.  At every point of a session (distinct ids, non-empty bank)
    [updateSidePanel] has something to show and never throws.  Below
    eight recorded answers it shows no type, and the count it shows is
    at most the number of questions; from eight on it shows the type
    the classifier returns for the current scores, with that type's
    name from [mbtiDescriptions].  In both cases the score list holds
    each of the eight functions once, with its normalized score, a
    whole number from 0 to 100, greatest first, and the progress is a
    whole number from 0 to 100. *)
Theorem X16_side_panel (calculateScore : R -> bool -> R)
    (questions : list question) (es : list App.event) :
  NoDup (map Question.id questions) ->
  questions <> [] ->
  let s := App.st (App.run questions calculateScore es) in
  exists (p : AppView.panel) (progress : R) (scores : list (func * R)),
    AppView.updateSidePanel questions s = Some p
    /\ match p with
       | AppView.AwaitingAnswers pr sc n total =>
           pr = progress /\ sc = scores
           /\ n = size (App.answers s) /\ (n < 8)%nat
           /\ total = length questions /\ (n <= total)%nat
       | AppView.Provisional t name pr sc =>
           pr = progress /\ sc = scores
           /\ (8 <= size (App.answers s))%nat
           /\ (exists r, Core.determineMBTIType
                           (scoresObject (App.functionScores s))
                           COGNITIVE_STACKS = Some r
                         /\ Core.type r = t)
           /\ exists desc, In (t, (name, desc)) AppView.mbtiDescriptions
       end
    /\ (exists z : Z, progress = IZR z /\ (0 <= z <= 100)%Z)
    /\ Permutation (map fst scores) [Ni; Ne; Si; Se; Ti; Te; Fi; Fe]
    /\ StronglySorted (fun a b => snd b <= snd a) scores
    /\ Forall (fun e => snd e = App.normalizeScore (App.functionScores s (fst e))
                        /\ exists z : Z, snd e = IZR z /\ (0 <= z <= 100)%Z)
         scores.
Proof.
  intros Hnd Hne s.
  destruct (run_position calculateScore questions es Hne) as [Hc _].
  destruct (run_invariant calculateScore questions Hnd es) as [Hwf _].
  fold s in Hc, Hwf.
  pose proof (answers_size_le questions s Hwf) as Hsize.
  destruct (sortedScores_shape s) as (Hperm & Hsorted & Hall).
  set (progress :=
         Math.round
           (INR (App.currentQuestion s)
            / Math.max 1 (INR (length questions) - 1) * 100)).
  assert (Hprog : exists z : Z, progress = IZR z /\ (0 <= z <= 100)%Z).
  { eexists. split; [reflexivity |]. apply (round_range _ 0 100).
    unfold Math.max.
    destruct (Nat.le_gt_cases (length questions) 1) as [H1 | H2].
    - assert (E : App.currentQuestion s = 0%nat) by lia. rewrite E.
      unfold Rdiv. simpl. lra.
    - rewrite Rmax_right.
      + apply progress_ratio; [exact Hc | lia].
      + assert (INR 2 <= INR (length questions)) by (apply le_INR; lia).
        simpl in *. lra. }
  unfold AppView.updateSidePanel. fold progress.
  unfold AppView.MIN_ANSWERS_FOR_PROVISIONAL.
  destruct (Nat.ltb_spec (size (App.answers s)) 8) as [Hlt | Hge].
  - eexists _, progress, (AppView.sortedScores s).
    split; [reflexivity |]. simpl. repeat split; auto.
  - destruct COGNITIVE_STACKS_wf as (HndT & Hlen & H2).
    destruct (determineMBTIType_ranked (scoresObject (App.functionScores s))
                COGNITIVE_STACKS Hlen H2)
      as (best & second & rest & Hsort & Hcore & _).
    rewrite Hcore. cbn [Core.type].
    assert (Hin : In (fst best) (map fst COGNITIVE_STACKS)).
    { rewrite <- (totalsOf_names (scoresObject (App.functionScores s))).
      apply in_map. eapply Permutation_in; [apply Array_sort_perm |].
      rewrite Hsort. now left. }
    destruct (descriptionOf_table _ Hin) as (name & desc & Hd & Hdin).
    rewrite Hd.
    eexists _, progress, (AppView.sortedScores s).
    split; [reflexivity |]. simpl.
    split; [| auto].
    split; [reflexivity |]. split; [reflexivity |]. split; [exact Hge |].
    split; [eexists; split; [reflexivity | reflexivity] |].
    exists desc. exact Hdin.
Qed.

Lemma X16_side_panel_witness :
  NoDup (map Question.id sampleBank)
  /\ sampleBank <> []
  /\ exists p, AppView.updateSidePanel sampleBank
                 (App.st (App.run sampleBank scoreCore
                            [App.Answer 5; App.TimerFires; App.Answer 2]))
               = Some p.
Proof.
  assert (Hids : NoDup (map Question.id sampleBank))
    by (apply (bool_decide_unpack _); vm_compute; reflexivity).
  assert (Hne : sampleBank <> []) by discriminate.
  split; [exact Hids |]. split; [exact Hne |].
  destruct (X16_side_panel scoreCore sampleBank
              [App.Answer 5; App.TimerFires; App.Answer 2] Hids Hne)
    as (p & _ & _ & Hp & _).
  exists p. exact Hp.
Defined.

(** ** Normalizer and confidence: order and steps *)

Lemma clamp_mono (x y lo hi : R) :
  lo <= hi -> x <= y -> clamp x lo hi <= clamp y lo hi.
Proof.
  intros Hlh Hxy.
  destruct (clamp_cases x lo hi Hlh) as [[? ->] | [[? ->] | [? ->]]];
    destruct (clamp_cases y lo hi Hlh) as [[? ->] | [[? ->] | [? ->]]]; lra.
Qed.

(** X17.  Both normalizers keep the order of raw scores: a greater
    raw score never shows a smaller value, so a strictly greater
    displayed value means a strictly greater raw score, and a list
    sorted by displayed value is in the order of the raw scores up to
    display ties. *)
Theorem X17_normalize_monotone :
  (forall a b : R, a <= b ->
      App.normalizeScore a <= App.normalizeScore b
      /\ CoreRefactored.normalizeScore a <= CoreRefactored.normalizeScore b)
  /\ (forall a b : R, App.normalizeScore a < App.normalizeScore b -> a < b)
  /\ (forall a b : R,
        CoreRefactored.normalizeScore a < CoreRefactored.normalizeScore b ->
        a < b).
Proof.
  assert (Hmono : forall a b : R, a <= b ->
             App.normalizeScore a <= App.normalizeScore b).
  { intros a b Hab. rewrite !app_normalizeScore_eq. unfold Math.round.
    apply IZR_le, roundZ_mono, clamp_mono; lra. }
  assert (Hmono' : forall a b : R, a <= b ->
             CoreRefactored.normalizeScore a <= CoreRefactored.normalizeScore b).
  { intros a b Hab.
    rewrite !refactored_normalizeScore_eq, <- !app_normalizeScore_eq.
    now apply Hmono. }
  split; [| split].
  - intros a b Hab. split; [now apply Hmono | now apply Hmono'].
  - intros a b Hlt. destruct (Rlt_le_dec a b) as [H | H]; [exact H |].
    apply Hmono in H. lra.
  - intros a b Hlt. destruct (Rlt_le_dec a b) as [H | H]; [exact H |].
    apply Hmono' in H. lra.
Qed.

Lemma roundZ_ge (y : R) (n : Z) : (n <= Math.roundZ y)%Z <-> IZR n - / 2 <= y.
Proof.
  unfold Math.roundZ. rewrite floorZ_ge. split; intros; lra.
Qed.

(** X18.  The runner-up's total never exceeds the winner's, so the
    ratio behind the confidence lies from 0 up to, not including, 100,
    and the clamp of [determineMBTIType] never changes anything: the
    confidence is the rounded ratio.  It reaches the 30 that the result
    screen tests exactly when the ratio is at least 29.5, and it is 0
    exactly when the ratio is below 0.5. *)
Theorem X18_confidence_is_rounded_ratio (scoreVector : scores_object)
    (stacks : list (string * list func)) :
  NoDup (map fst stacks) ->
  Forall (fun e => (length (snd e) <= 4)%nat) stacks ->
  (2 <= length stacks)%nat ->
  exists (r : Core.classification) (r' : CoreRefactored.classification)
         (top second : R),
    Core.determineMBTIType scoreVector stacks = Some r
    /\ CoreRefactored.determineMBTIType scoreVector stacks = Some r'
    /\ In (Core.type r, top) (totalsOf scoreVector stacks)
    /\ In (snd (Core.top2 r), second) (totalsOf scoreVector stacks)
    /\ second <= top
    /\ 0 <= rawConfidence top second < 100
    /\ Core.confidence r = Math.round (rawConfidence top second)
    /\ CoreRefactored.confidence r' = Math.round (rawConfidence top second)
    /\ (30 <= Core.confidence r <-> 295 / 10 <= rawConfidence top second)
    /\ (Core.confidence r = 0 <-> rawConfidence top second < 5 / 10).
Proof.
  intros Hnd Hlen H2.
  destruct (determineMBTIType_ranked scoreVector stacks Hlen H2)
    as (best & second & rest & Hsort & Hcore & Hrefactored).
  rewrite <- (totalsOf_names scoreVector) in Hnd.
  destruct (ranked_order _ _ _ _ Hnd Hsort)
    as (Hbest & Hsecond & Hne & Htop & Hrunner).
  pose proof (Htop second Hsecond) as Hle.
  pose proof (rawConfidence_range _ _ Hle) as Hraw.
  assert (Hround : clamp (Math.round (rawConfidence (snd best) (snd second))) 0 100
                   = Math.round (rawConfidence (snd best) (snd second))).
  { rewrite (round_clamp _ 0 100) by lia. f_equal.
    destruct (clamp_cases (rawConfidence (snd best) (snd second)) 0 100)
      as [[H E] | [[H E] | [H E]]]; lra. }
  eexists _, _, (snd best), (snd second).
  split; [exact Hcore |]. split; [exact Hrefactored |]. simpl.
  split; [now rewrite <- surjective_pairing |].
  split; [now rewrite <- surjective_pairing |].
  split; [exact Hle |]. split; [exact Hraw |].
  split; [exact Hround |]. split; [exact Hround |].
  rewrite Hround. unfold Math.round. split.
  - split.
    + intros H. apply (le_IZR 30), roundZ_ge in H. simpl in H. lra.
    + intros H. apply (IZR_le 30), roundZ_ge. simpl. lra.
  - split.
    + intros H. apply (eq_IZR _ 0) in H.
      destruct (Rlt_le_dec (rawConfidence (snd best) (snd second)) (5 / 10))
        as [Hlt | Hge]; [exact Hlt | exfalso].
      assert (1 <= Math.roundZ (rawConfidence (snd best) (snd second)))%Z
        by (apply roundZ_ge; simpl; lra).
      lia.
    + intros H. f_equal. unfold Math.roundZ. apply floorZ_unique. simpl. lra.
Qed.

Lemma X18_confidence_is_rounded_ratio_witness :
  NoDup (map fst COGNITIVE_STACKS)
  /\ Forall (fun e => (length (snd e) <= 4)%nat) COGNITIVE_STACKS
  /\ (2 <= length COGNITIVE_STACKS)%nat
  /\ exists (r : Core.classification) (top second : R),
       Core.determineMBTIType mockScores COGNITIVE_STACKS = Some r
       /\ second <= top
       /\ Core.confidence r = Math.round (rawConfidence top second).
Proof.
  assert (Hnd : NoDup (map fst COGNITIVE_STACKS))
    by (apply (bool_decide_unpack _); vm_compute; reflexivity).
  assert (Hlen : Forall (fun e => (length (snd e) <= 4)%nat) COGNITIVE_STACKS)
    by (repeat constructor).
  assert (H2 : (2 <= length COGNITIVE_STACKS)%nat) by (simpl; lia).
  split; [exact Hnd |]. split; [exact Hlen |]. split; [exact H2 |].
  destruct (X18_confidence_is_rounded_ratio mockScores COGNITIVE_STACKS Hnd Hlen H2)
    as (r & r' & top & second & Hr & _ & _ & _ & Hle & _ & Hc & _).
  exists r, top, second. auto.
Defined.

(** ** Older revisions of [app.js] *)

(** X20.  The display value that the older side panel computes inline
    is a whole number that is never negative but has no upper limit:
    it stays within 100 for raw scores up to 10 and exceeds 100 from
    10.1 on. *)
Theorem X20_older_panel_value_uncapped (val : R) :
  (exists z : Z, AppLegacy.sidePanelValue val = IZR z /\ (0 <= z)%Z)
  /\ (val <= 10 -> AppLegacy.sidePanelValue val <= 100)
  /\ (101 / 10 <= val -> 100 < AppLegacy.sidePanelValue val)
  /\ (-10 <= val ->
      AppLegacy.sidePanelValue val = Math.round ((val + 10) * 5)).
Proof.
  unfold AppLegacy.sidePanelValue, Math.max, Math.round.
  set (z := Math.roundZ ((val + 10) * 5)).
  assert (Hmax : Rmax 0 (IZR z) = IZR (Z.max 0 z)).
  { unfold Rmax. destruct (Rle_dec 0 (IZR z)) as [H | H].
    - apply (le_IZR 0) in H. f_equal. lia.
    - assert (z < 0)%Z by (apply lt_IZR; lra). f_equal. lia. }
  rewrite Hmax. split; [| split; [| split]].
  - eexists. split; [reflexivity | lia].
  - intros Hv. apply IZR_le.
    assert (z <= 100)%Z.
    { destruct (Z_le_gt_dec z 100) as [H | H]; [exact H | exfalso].
      assert (H' : (101 <= z)%Z) by lia.
      apply roundZ_ge in H'. simpl in H'. lra. }
    lia.
  - intros Hv. apply IZR_lt.
    assert (101 <= z)%Z by (apply roundZ_ge; simpl; lra). lia.
  - intros Hv. f_equal.
    assert (0 <= z)%Z by (apply roundZ_ge; simpl; lra). lia.
Qed.

Lemma X20_older_panel_value_uncapped_witness :
  101 / 10 <= 12 /\ 100 < AppLegacy.sidePanelValue 12.
Proof.
  assert (H : 101 / 10 <= 12) by lra.
  split; [exact H |].
  exact (proj1 (proj2 (proj2 (X20_older_panel_value_uncapped 12))) H).
Defined.

(** ** Question sequencer: which candidate is returned *)

Section SequencerRun.

Import Sequencer.

Variable rng : random_source.
Variable questions : list question.

Lemma candidateAt_shuffle (n : nat) :
  fisherYatesShuffle rng questions (n * (length questions - 1))
  = (candidateAt rng questions n, (S n * (length questions - 1))%nat).
Proof.
  unfold candidateAt.
  pose proof (fisherYatesShuffle_perm rng questions
                (n * (length questions - 1))) as [_ Hk].
  destruct (fisherYatesShuffle rng questions (n * (length questions - 1)))
    as [c k'].
  simpl in *. f_equal. lia.
Qed.

Lemma attemptLoop_all_fail (remaining attempt : nat) :
  (forall m, (attempt <= m < attempt + remaining)%nat ->
             hasConsecutive (candidateAt rng questions m) = true) ->
  attemptLoop rng questions remaining attempt
    (attempt * (length questions - 1))
  = console_warn ShuffleBudgetExhausted
      {| shuffled := candidateAt rng questions (attempt + remaining);
         attempts := attempt + remaining;
         usedFallback := true;
         randomCalls := S (attempt + remaining) * (length questions - 1) |}.
Proof.
  revert attempt. induction remaining as [| remaining IH]; intros attempt Hall.
  - cbn [attemptLoop]. rewrite candidateAt_shuffle.
    now rewrite Nat.add_0_r.
  - cbn [attemptLoop]. rewrite candidateAt_shuffle.
    rewrite (Hall attempt) by lia.
    rewrite IH by (intros m Hm; apply Hall; lia).
    now replace (S attempt + remaining)%nat with (attempt + S remaining)%nat
      by lia.
Qed.

Lemma attemptLoop_first_pass (remaining attempt n : nat) :
  (attempt <= n < attempt + remaining)%nat ->
  (forall m, (attempt <= m < n)%nat ->
             hasConsecutive (candidateAt rng questions m) = true) ->
  hasConsecutive (candidateAt rng questions n) = false ->
  attemptLoop rng questions remaining attempt
    (attempt * (length questions - 1))
  = ret {| shuffled := candidateAt rng questions n;
           attempts := S n;
           usedFallback := false;
           randomCalls := S n * (length questions - 1) |}.
Proof.
  revert attempt. induction remaining as [| remaining IH];
    intros attempt Hn Hbefore Hpass; [lia |].
  cbn [attemptLoop]. rewrite candidateAt_shuffle.
  destruct (Nat.eq_dec attempt n) as [-> | Hne].
  - now rewrite Hpass.
  - rewrite (Hbefore attempt) by lia.
    apply IH; [lia | | exact Hpass].
    intros m Hm. apply Hbefore. lia.
Qed.

End SequencerRun.

Lemma hasConsecutive_false (l : list question) :
  Sequencer.hasConsecutive l = false <-> NoAdjacentSameType l.
Proof.
  unfold NoAdjacentSameType. induction l as [| prev rest IH].
  - split; [intros _ i a b Hi; discriminate | reflexivity].
  - destruct rest as [| cur rest'].
    + split; [intros _ [| i] a b Hi Hj; discriminate | reflexivity].
    + cbn [Sequencer.hasConsecutive].
      destruct (decide (Question.type cur = Question.type prev)) as [E | NE].
      * split; [discriminate |]. intros H. exfalso.
        exact (H 0%nat prev cur eq_refl eq_refl E).
      * rewrite IH. split.
        -- intros H [| i] a b Ha Hb.
           ++ injection Ha as <-. injection Hb as <-. exact NE.
           ++ exact (H i a b Ha Hb).
        -- intros H i a b Ha Hb. exact (H (S i) a b Ha Hb).
Qed.

(** X21.  The sequencer returns the first of its first 1000 shuffles
    that has no two neighbouring questions of one function, after
    exactly that many attempts and without a warning; when all 1000
    have such neighbours it warns once and returns a further, 1001st
    shuffle unchecked. *)
Theorem X21_first_acceptable_shuffle (rng : Sequencer.random_source)
    (questions : list question) :
  let c := Sequencer.shuffleQuestionsWithConstraints rng questions in
  let r := value_of c in
  (forall n : nat,
      (n < 1000)%nat ->
      (forall m, (m < n)%nat ->
                 Sequencer.hasConsecutive (candidateAt rng questions m) = true) ->
      Sequencer.hasConsecutive (candidateAt rng questions n) = false ->
      Sequencer.shuffled r = candidateAt rng questions n
      /\ Sequencer.attempts r = S n
      /\ Sequencer.usedFallback r = false
      /\ Sequencer.randomCalls r = (S n * (length questions - 1))%nat
      /\ logged c = [])
  /\ ((forall m, (m < 1000)%nat ->
                 Sequencer.hasConsecutive (candidateAt rng questions m) = true) ->
      Sequencer.shuffled r = candidateAt rng questions 1000
      /\ Sequencer.attempts r = 1000%nat
      /\ Sequencer.usedFallback r = true
      /\ Sequencer.randomCalls r = (1001 * (length questions - 1))%nat
      /\ logged c = [ShuffleBudgetExhausted]).
Proof.
  intros c r. subst r c. unfold Sequencer.shuffleQuestionsWithConstraints.
  change (Sequencer.attemptLoop rng questions Sequencer.maxAttempts 0 0)
    with (Sequencer.attemptLoop rng questions Sequencer.maxAttempts 0
            (0 * (length questions - 1))).
  split.
  - intros n Hn Hbefore Hpass.
    rewrite (attemptLoop_first_pass rng questions Sequencer.maxAttempts 0 n);
      [repeat split | unfold Sequencer.maxAttempts; lia | | exact Hpass].
    intros m Hm. apply Hbefore. lia.
  - intros Hall.
    rewrite (attemptLoop_all_fail rng questions Sequencer.maxAttempts 0);
      [repeat split |].
    intros m Hm. apply Hall. unfold Sequencer.maxAttempts in Hm. lia.
Qed.

(** X22.  The check inside the sequencer is false exactly when no
    question of the list has the same function as the one before it; so
    an order returned without the fallback never asks two questions of
    one function in a row, and a bank of at most one question is
    accepted at the first attempt without a random number. *)
Theorem X22_no_neighbours_of_one_function (rng : Sequencer.random_source)
    (questions : list question) :
  let r := value_of (Sequencer.shuffleQuestionsWithConstraints rng questions) in
  (forall l : list question,
      Sequencer.hasConsecutive l = false <-> NoAdjacentSameType l)
  /\ (Sequencer.usedFallback r = false ->
      NoAdjacentSameType (Sequencer.shuffled r))
  /\ ((length questions <= 1)%nat ->
      Sequencer.shuffled r = questions
      /\ Sequencer.attempts r = 1%nat
      /\ Sequencer.usedFallback r = false
      /\ Sequencer.randomCalls r = 0%nat).
Proof.
  intros r. split; [exact hasConsecutive_false |]. split.
  - intros Hu. apply hasConsecutive_false.
    pose proof (attemptLoop_spec rng questions Sequencer.maxAttempts 0 0) as H.
    cbn zeta in H. destruct H as (_ & _ & _ & Hn).
    exact (proj1 (Hn Hu)).
  - intros Hlen. subst r.
    destruct questions as [| q [| q' rest]]; [| | simpl in Hlen; lia];
      repeat split.
Qed.

(** ** Question sequencer: every order can come out *)

Section ShuffleReach.

Import Sequencer.

Context {A : Type}.

Lemma fisherYatesLoop_ext (rng1 rng2 : random_source) (i : nat) (l : list A)
    (k : nat) :
  (forall k', (k <= k')%nat -> rng1 k' = rng2 k') ->
  fisherYatesLoop rng1 i l k = fisherYatesLoop rng2 i l k.
Proof.
  revert l k. induction i as [| i IH]; intros l k Hext; [reflexivity |].
  cbn [fisherYatesLoop]. rewrite (Hext k) by lia.
  apply IH. intros k' Hk'. apply Hext. lia.
Qed.

(** A random number that makes step [i] draw the index [j]. *)
Lemma draw_index (i j : nat) :
  (j <= i)%nat ->
  let r := (INR j + / 2) / INR (i + 1) in
  0 <= r < 1 /\ Z.to_nat (Math.floorZ (r * INR (i + 1))) = j.
Proof.
  intros Hji r.
  assert (Hi : 0 < INR (i + 1)) by (apply lt_0_INR; lia).
  assert (Hj : 0 <= INR j) by apply pos_INR.
  assert (Hle : INR j + 1 <= INR (i + 1)).
  { rewrite <- (S_INR j). apply le_INR. lia. }
  assert (Hr : r * INR (i + 1) = INR j + / 2).
  { unfold r. field. lra. }
  split.
  - unfold r. split.
    + apply Rmult_le_pos; [lra | left; now apply Rinv_0_lt_compat].
    + apply (Rmult_lt_reg_r (INR (i + 1))); [exact Hi |].
      fold r. rewrite Hr. lra.
  - rewrite Hr.
    rewrite (floorZ_unique (INR j + / 2) (Z.of_nat j)).
    + apply Nat2Z.id.
    + rewrite <- INR_IZR_INZ. lra.
Qed.

Lemma swap_fixes_target (l : list A) (i j : nat) (x : A) :
  (i < length l)%nat -> (j <= i)%nat -> l !! j = Some x ->
  swap l i j !! i = Some x
  /\ drop (S i) (swap l i j) = drop (S i) l.
Proof.
  intros Hi Hji Hj.
  destruct (lookup_lt_is_Some_2 l i Hi) as [y Hy].
  unfold swap. rewrite Hy, Hj. split.
  - destruct (decide (j = i)) as [-> | Hne].
    + rewrite list_lookup_insert_eq by now rewrite length_insert.
      congruence.
    + rewrite list_lookup_insert_ne by exact Hne.
      now apply list_lookup_insert_eq.
  - rewrite !drop_insert_lt by lia. reflexivity.
Qed.

Lemma fisherYatesLoop_reaches (i : nat) (l t : list A) (k : nat) :
  (i < length l)%nat ->
  Permutation (take (S i) l) (take (S i) t) ->
  drop (S i) l = drop (S i) t ->
  exists rng : random_source,
    (forall k', 0 <= rng k' < 1)
    /\ fst (fisherYatesLoop rng i l k) = t.
Proof.
  revert l t k. induction i as [| i IH]; intros l t k Hi Hperm Hdrop.
  - exists (fun _ => 0). split; [intros _; lra |]. simpl.
    rewrite <- (take_drop 1 l), <- (take_drop 1 t), Hdrop. f_equal.
    destruct l as [| a l]; [simpl in Hi; lia |].
    destruct t as [| b t]; simpl in *.
    + now apply Permutation_nil_r in Hperm.
    + apply Permutation_singleton_l in Hperm.
      rewrite take_0 in *. exact Hperm.
  - assert (Hlen : length l = length t).
    { rewrite <- (take_drop (S (S i)) l), <- (take_drop (S (S i)) t).
      rewrite !length_app, Hdrop. f_equal. now apply Permutation_length. }
    assert (Hit : (S i < length t)%nat) by lia.
    destruct (lookup_lt_is_Some_2 t (S i) Hit) as [x Hx].
    assert (Hxl : x ∈ take (S (S i)) l).
    { rewrite Hperm. apply list_elem_of_lookup. exists (S i).
      rewrite lookup_take_lt by lia. exact Hx. }
    apply list_elem_of_lookup in Hxl as [j Hj].
    assert (Hjlt : (j < S (S i))%nat).
    { apply lookup_lt_Some in Hj. rewrite length_take in Hj. lia. }
    rewrite lookup_take_lt in Hj by exact Hjlt.
    assert (Hji : (j <= S i)%nat) by lia.
    destruct (swap_fixes_target l (S i) j x Hi Hji Hj) as [Hsx Hsd].
    set (l' := swap l (S i) j) in *.
    assert (Hl'len : length l' = length l)
      by (apply Permutation_length, swap_perm).
    assert (Hperm' : Permutation (take (S i) l') (take (S i) t)).
    { apply (Permutation_app_inv_r [x]).
      rewrite <- (take_S_r l' (S i) x Hsx), <- (take_S_r t (S i) x Hx).
      rewrite <- Hperm.
      apply (Permutation_app_inv_r (drop (S (S i)) l)).
      rewrite <- Hsd at 1. rewrite !take_drop. apply swap_perm. }
    assert (Hdrop' : drop (S i) l' = drop (S i) t).
    { rewrite (drop_S l' x (S i) Hsx), (drop_S t x (S i) Hx).
      now rewrite Hsd, Hdrop. }
    destruct (IH l' t (S k) ltac:(lia) Hperm' Hdrop') as (rng' & Hc & Hres).
    destruct (draw_index (S i) j Hji) as [Hr Hfloor]. cbn zeta in Hr, Hfloor.
    exists (fun k' => if Nat.eq_dec k' k
                      then (INR j + / 2) / INR (S i + 1) else rng' k').
    split.
    + intros k'. destruct (Nat.eq_dec k' k); [exact Hr | apply Hc].
    + cbn [fisherYatesLoop]. destruct (Nat.eq_dec k k) as [_ | []]; [| reflexivity].
      rewrite Hfloor. fold l'. rewrite <- Hres. f_equal.
      apply fisherYatesLoop_ext. intros k' Hk'.
      destruct (Nat.eq_dec k' k); [lia | reflexivity].
Qed.

Lemma fisherYatesShuffle_reaches (array t : list A) :
  Permutation t array ->
  exists rng : random_source,
    (forall k, 0 <= rng k < 1)
    /\ fst (fisherYatesShuffle rng array 0) = t.
Proof.
  intros Hperm. unfold fisherYatesShuffle.
  destruct array as [| a array].
  - apply Permutation_nil_r in Hperm. subst t.
    exists (fun _ => 0). split; [intros _; lra | reflexivity].
  - apply fisherYatesLoop_reaches.
    + simpl. lia.
    + pose proof (Permutation_length Hperm) as Hlen.
      rewrite !take_ge by (simpl in *; lia). now symmetry.
    + pose proof (Permutation_length Hperm) as Hlen.
      rewrite !drop_ge by (simpl in *; lia). reflexivity.
Qed.

End ShuffleReach.

(** X23.  Every reordering of the bank can come out of
    [fisherYatesShuffle] with random numbers that keep to the contract
    of [Math.random]; so whenever some order of the bank has no two
    neighbours of one function, the sequencer can return that very
    order, at its first attempt and without the fallback. *)
Theorem X23_every_order_reachable (questions t : list question) :
  Permutation t questions ->
  exists rng : Sequencer.random_source,
    RandomContract rng
    /\ fst (Sequencer.fisherYatesShuffle rng questions 0) = t
    /\ (NoAdjacentSameType t ->
        let c := Sequencer.shuffleQuestionsWithConstraints rng questions in
        Sequencer.shuffled (value_of c) = t
        /\ Sequencer.attempts (value_of c) = 1%nat
        /\ Sequencer.usedFallback (value_of c) = false
        /\ logged c = []).
Proof.
  intros Hperm.
  destruct (fisherYatesShuffle_reaches questions t Hperm) as (rng & Hc & Hres).
  exists rng. split; [exact Hc |]. split; [exact Hres |].
  intros Hok c. subst c. unfold Sequencer.shuffleQuestionsWithConstraints.
  change (Sequencer.attemptLoop rng questions Sequencer.maxAttempts 0 0)
    with (Sequencer.attemptLoop rng questions Sequencer.maxAttempts 0
            (0 * (length questions - 1))).
  assert (Hcand : candidateAt rng questions 0 = t) by exact Hres.
  rewrite (attemptLoop_first_pass rng questions Sequencer.maxAttempts 0 0).
  - rewrite Hcand. repeat split.
  - unfold Sequencer.maxAttempts. lia.
  - intros m Hm. lia.
  - rewrite Hcand. now apply hasConsecutive_false.
Qed.

Lemma X23_every_order_reachable_witness :
  exists t : list question,
    Permutation t sampleBank
    /\ t <> sampleBank
    /\ exists rng : Sequencer.random_source,
         RandomContract rng
         /\ fst (Sequencer.fisherYatesShuffle rng sampleBank 0) = t.
Proof.
  assert (Hperm : Permutation
                    (match sampleBank with
                     | a :: b :: rest => b :: a :: rest
                     | l => l
                     end) sampleBank)
    by (unfold sampleBank; apply perm_swap).
  eexists. split; [exact Hperm |]. split; [discriminate |].
  destruct (X23_every_order_reachable sampleBank _ Hperm)
    as (rng & Hc & Hres & _).
  exists rng. split; [exact Hc | exact Hres].
Defined.

(** ** Result screen, current [app.js] *)

Lemma sort_insert_map {A B : Type} (g : A -> B) (cmpA : A -> A -> R)
    (cmpB : B -> B -> R) (x : A) (l : list A) :
  (forall a b, cmpB (g a) (g b) = cmpA a b) ->
  sort_insert cmpB (g x) (map g l) = map g (sort_insert cmpA x l).
Proof.
  intros Hc. induction l as [| y l IH]; simpl; [reflexivity |].
  rewrite Hc. destruct (Rlt_dec 0 (cmpA x y)); simpl; [now rewrite IH | reflexivity].
Qed.

Lemma Array_sort_map {A B : Type} (g : A -> B) (cmpA : A -> A -> R)
    (cmpB : B -> B -> R) (l : list A) :
  (forall a b, cmpB (g a) (g b) = cmpA a b) ->
  Array_sort cmpB (map g l) = map g (Array_sort cmpA l).
Proof.
  intros Hc. induction l as [| x l IH]; simpl; [reflexivity |].
  rewrite IH. now apply sort_insert_map.
Qed.

Lemma COGNITIVE_STACKS_four (t : string) (stack : list func) :
  In (t, stack) COGNITIVE_STACKS ->
  exists a b c d, stack = [a; b; c; d].
Proof.
  intros Hin. simpl in Hin.
  repeat (destruct Hin as [E | Hin];
          [inversion E; subst; eexists _, _, _, _; reflexivity |]).
  contradiction.
Qed.

Lemma in_names_stack (t : string) :
  In t (map fst COGNITIVE_STACKS) ->
  exists stack, In (t, stack) COGNITIVE_STACKS.
Proof.
  intros Hin. apply in_map_iff in Hin as [[t' stack] [E Hin]].
  simpl in E. subst t'. now exists stack.
Qed.

(** X24.  For every state of the session [renderResult] has a result
    to show and never throws: the type the classifier returns with its
    confidence, that type's name and description from
    [mbtiDescriptions], and its four functions from [COGNITIVE_STACKS]
    labelled Primary, Auxiliary, Tertiary and Inferior in this order.
    The card of the alternative type is shown exactly when the
    confidence is below 30; it then names the runner-up, a different
    type, with its own description.  The score cards are the sorted
    score list of the side panel, each with its entry of [FUNCTIONS]. *)
Theorem X24_result_screen (s : App.state) :
  exists (v : AppView.resultView) (r : Core.classification)
         (a b c d : func),
    AppView.renderResult s = Some v
    /\ Core.determineMBTIType (scoresObject (App.functionScores s))
         COGNITIVE_STACKS = Some r
    /\ AppView.mbtiType v = Core.type r
    /\ AppView.shownConfidence v = Core.confidence r
    /\ In (AppView.mbtiType v, (AppView.typeName v, AppView.typeDescription v))
         AppView.mbtiDescriptions
    /\ In (AppView.mbtiType v, [a; b; c; d]) COGNITIVE_STACKS
    /\ AppView.stackItems v
       = [ (Some "Primary"%string, CoreTools.FUNCTIONS a);
           (Some "Auxiliary"%string, CoreTools.FUNCTIONS b);
           (Some "Tertiary"%string, CoreTools.FUNCTIONS c);
           (Some "Inferior"%string, CoreTools.FUNCTIONS d) ]
    /\ (AppView.secondaryCard v = None <-> 30 <= AppView.shownConfidence v)
    /\ (forall t name desc,
          AppView.secondaryCard v = Some (t, name, desc) ->
          t = snd (Core.top2 r) /\ t <> AppView.mbtiType v
          /\ In (t, (name, desc)) AppView.mbtiDescriptions)
    /\ AppView.scoreCards v
       = map (fun e => (fst e, snd e, CoreTools.FUNCTIONS (fst e)))
           (AppView.sortedScores s).
Proof.
  destruct COGNITIVE_STACKS_wf as (Hnd & Hlen & H2).
  set (fs := scoresObject (App.functionScores s)).
  destruct (determineMBTIType_ranked fs COGNITIVE_STACKS Hlen H2)
    as (best & second & rest & Hsort & Hcore & _).
  pose proof Hnd as Hnd'. rewrite <- (totalsOf_names fs) in Hnd'.
  destruct (ranked_order _ _ _ _ Hnd' Hsort) as (Hbest & Hsecond & Hne & _ & _).
  assert (Hbn : In (fst best) (map fst COGNITIVE_STACKS))
    by (rewrite <- (totalsOf_names fs); now apply in_map).
  assert (Hsn : In (fst second) (map fst COGNITIVE_STACKS))
    by (rewrite <- (totalsOf_names fs); now apply in_map).
  destruct (descriptionOf_table _ Hbn) as (name & desc & Hd & Hdin).
  destruct (descriptionOf_table _ Hsn) as (name2 & desc2 & Hd2 & Hdin2).
  destruct (in_names_stack _ Hbn) as (stack & Hstack).
  destruct (COGNITIVE_STACKS_four _ _ Hstack) as (a & b & c & d & ->).
  pose proof (stackOf_in _ _ Hstack) as Hso.
  assert (Hcards :
            Array_sort (fun a0 b0 : func * R * CoreTools.functionInfo =>
                          snd (fst b0) - snd (fst a0))
              (map (fun e => (fst e, App.normalizeScore (snd e),
                              CoreTools.FUNCTIONS (fst e)))
                 (AppView.scoreEntries s))
            = map (fun e => (fst e, snd e, CoreTools.FUNCTIONS (fst e)))
                (AppView.sortedScores s)).
  { unfold AppView.sortedScores.
    rewrite <- (Array_sort_map
                  (fun e : func * R => (fst e, snd e, CoreTools.FUNCTIONS (fst e)))
                  AppView.byValueDesc
                  (fun a0 b0 : func * R * CoreTools.functionInfo =>
                     snd (fst b0) - snd (fst a0))) by reflexivity.
    now rewrite map_map. }
  unfold AppView.renderResult. fold fs. rewrite Hcore.
  cbn [Core.type Core.confidence Core.top2 snd]. rewrite Hd, Hd2, Hso, Hcards.
  set (conf := clamp (Math.round (rawConfidence (snd best) (snd second))) 0 100).
  destruct (Rlt_dec conf 30) as [Hlt | Hge].
  - eexists _, _, a, b, c, d. split; [reflexivity |]. split; [reflexivity |].
    cbn. split; [reflexivity |]. split; [reflexivity |].
    split; [exact Hdin |]. split; [exact Hstack |]. split; [reflexivity |].
    split; [split; [discriminate | fold conf; lra] |].
    split; [| reflexivity].
    intros t n' d' E. injection E as <- <- <-.
    split; [reflexivity |]. split; [exact Hne | exact Hdin2].
  - eexists _, _, a, b, c, d. split; [reflexivity |]. split; [reflexivity |].
    cbn. split; [reflexivity |]. split; [reflexivity |].
    split; [exact Hdin |]. split; [exact Hstack |]. split; [reflexivity |].
    split; [split; [fold conf; lra | reflexivity] |].
    split; [discriminate | reflexivity].
Qed.

(** ** Keyboard navigation, current [app.js] *)

Lemma findIndexFrom_range {A} (p : A -> bool) (l : list A) (k : Z) :
  let r := AppKeys.findIndexFrom p l k in
  r = (-1)%Z \/ (k <= r < k + Z.of_nat (length l))%Z.
Proof.
  revert k. induction l as [| x l IH]; intros k; simpl; [now left |].
  destruct (p x); [right; lia |].
  destruct (IH (k + 1)%Z) as [H | H]; [now left | right; lia].
Qed.

Lemma findIndexFrom_first {A} (p : A -> bool) (l : list A) (k : Z) (i : nat)
    (x : A) :
  l !! i = Some x -> p x = true ->
  (forall j y, (j < i)%nat -> l !! j = Some y -> p y = false) ->
  AppKeys.findIndexFrom p l k = (k + Z.of_nat i)%Z.
Proof.
  revert k i. induction l as [| a l IH]; intros k i Hi Hp Hbefore;
    [discriminate |].
  destruct i as [| i]; simpl in *.
  - injection Hi as ->. rewrite Hp. lia.
  - rewrite (Hbefore 0%nat a) by (lia || reflexivity).
    rewrite (IH (k + 1)%Z i Hi Hp); [lia |].
    intros j y Hj Hy. apply (Hbefore (S j) y); [lia | exact Hy].
Qed.

Lemma move_in_range (options : list (option Z)) (cur next : Z) (n : nat) :
  AppKeys.move options cur next = AppKeys.FocusMoved n ->
  (n < length options)%nat /\ Z.of_nat n = next /\ next <> cur.
Proof.
  unfold AppKeys.move, AppKeys.at_index.
  destruct (Z.eq_dec next cur) as [| Hne]; [discriminate |].
  destruct (0 <=? next)%Z eqn:H0; [| discriminate].
  destruct (options !! Z.to_nat next) as [b |] eqn:Hb; [| discriminate].
  intros E. injection E as <-. apply lookup_lt_Some in Hb.
  apply Z.leb_le in H0. split; [exact Hb |]. split; [lia | exact Hne].
Qed.

Lemma move_to (options : list (option Z)) (cur : Z) (n : nat) :
  (n < length options)%nat -> Z.of_nat n <> cur ->
  AppKeys.move options cur (Z.of_nat n) = AppKeys.FocusMoved n.
Proof.
  intros Hn Hne. unfold AppKeys.move, AppKeys.at_index.
  destruct (Z.eq_dec (Z.of_nat n) cur) as [| _]; [contradiction |].
  replace (0 <=? Z.of_nat n)%Z with true by (symmetry; apply Z.leb_le; lia).
  rewrite Nat2Z.id.
  destruct (lookup_lt_is_Some_2 options n Hn) as [b ->]. reflexivity.
Qed.

Lemma move_same (options : list (option Z)) (cur : Z) :
  AppKeys.move options cur cur = AppKeys.NoMove.
Proof.
  unfold AppKeys.move. destruct (Z.eq_dec cur cur); [reflexivity | contradiction].
Qed.

(** X25.  Whatever buttons are on the page, a key moves the focus only
    to a button that exists and is not the current one.  With distinct
    button values and the current button at index [i]: the up and left
    arrows go to [i - 1] and the down and right arrows to [i + 1],
    doing nothing at the first and last button (no wrap-around); Home
    and End go to the first and last button; Enter and the space bar
    answer with the current value; every other key is left alone. *)
Theorem X25_keyboard_navigation (options : list (option Z)) (i : nat)
    (currentValue : Z) :
  NoDup options ->
  options !! i = Some (Some currentValue) ->
  let handle k := AppKeys.handleKeyboardNavigation options k currentValue in
  let back := if Nat.eq_dec i 0%nat then AppKeys.NoMove
              else AppKeys.FocusMoved (i - 1)%nat in
  let forth := if Nat.eq_dec (S i) (length options) then AppKeys.NoMove
               else AppKeys.FocusMoved (S i) in
  handle AppKeys.ArrowUp = back /\ handle AppKeys.ArrowLeft = back
  /\ handle AppKeys.ArrowDown = forth /\ handle AppKeys.ArrowRight = forth
  /\ handle AppKeys.Home
     = (if Nat.eq_dec i 0%nat then AppKeys.NoMove else AppKeys.FocusMoved 0%nat)
  /\ handle AppKeys.End_
     = (if Nat.eq_dec (S i) (length options) then AppKeys.NoMove
        else AppKeys.FocusMoved (length options - 1)%nat)
  /\ handle AppKeys.Enter = AppKeys.Answered currentValue
  /\ handle AppKeys.Space = AppKeys.Answered currentValue
  /\ handle AppKeys.OtherKey = AppKeys.NotHandled
  /\ forall (opts : list (option Z)) (k : AppKeys.key) (v : Z) (n : nat),
       AppKeys.handleKeyboardNavigation opts k v = AppKeys.FocusMoved n ->
       (n < length opts)%nat
       /\ Z.of_nat n
          <> AppKeys.findIndex (fun btn => bool_decide (btn = Some v)) opts.
Proof.
  intros Hnd Hi handle back forth.
  pose proof (lookup_lt_Some _ _ _ Hi) as Hlt.
  assert (Hcur : AppKeys.findIndex
                   (fun btn => bool_decide (btn = Some currentValue)) options
                 = Z.of_nat i).
  { unfold AppKeys.findIndex.
    rewrite (findIndexFrom_first _ options 0%Z i (Some currentValue) Hi);
      [lia | now apply bool_decide_eq_true |].
    intros j y Hj Hy. apply bool_decide_eq_false. intros ->.
    pose proof (NoDup_lookup _ _ _ _ Hnd Hy Hi). lia. }
  assert (Hback : AppKeys.move options (Z.of_nat i) (Z.max 0 (Z.of_nat i - 1))
                  = back).
  { subst back. destruct (Nat.eq_dec i 0%nat) as [-> | Hne].
    - apply move_same.
    - replace (Z.max 0 (Z.of_nat i - 1)) with (Z.of_nat (i - 1)%nat) by lia.
      apply move_to; lia. }
  assert (Hforth : AppKeys.move options (Z.of_nat i)
                     (Z.min (Z.of_nat (length options) - 1) (Z.of_nat i + 1))
                   = forth).
  { subst forth. destruct (Nat.eq_dec (S i) (length options)) as [E | Hne].
    - replace (Z.min (Z.of_nat (length options) - 1) (Z.of_nat i + 1))
        with (Z.of_nat i) by lia.
      apply move_same.
    - replace (Z.min (Z.of_nat (length options) - 1) (Z.of_nat i + 1))
        with (Z.of_nat (S i)) by lia.
      apply move_to; lia. }
  subst handle. unfold AppKeys.handleKeyboardNavigation. cbn zeta.
  rewrite Hcur.
  split; [exact Hback |]. split; [exact Hback |].
  split; [exact Hforth |]. split; [exact Hforth |].
  split.
  { destruct (Nat.eq_dec i 0%nat) as [-> | Hne]; [apply move_same |].
    apply (move_to options (Z.of_nat i) 0%nat); lia. }
  split.
  { destruct (Nat.eq_dec (S i) (length options)) as [E | Hne].
    - replace (Z.of_nat (length options) - 1)%Z with (Z.of_nat i) by lia.
      apply move_same.
    - replace (Z.of_nat (length options) - 1)%Z
        with (Z.of_nat (length options - 1)%nat) by lia.
      apply move_to; lia. }
  split; [reflexivity |]. split; [reflexivity |]. split; [reflexivity |].
  intros opts k v n.
  unfold AppKeys.handleKeyboardNavigation.
  destruct k; try discriminate; intros H;
    apply move_in_range in H as (Hn & Hz & Hne); (split; [exact Hn |]);
    rewrite Hz; exact Hne.
Qed.

Lemma X25_keyboard_navigation_witness :
  NoDup AppKeys.renderedOptions
  /\ AppKeys.renderedOptions !! 4%nat = Some (Some 5%Z)
  /\ AppKeys.handleKeyboardNavigation AppKeys.renderedOptions
       AppKeys.ArrowDown 5 = AppKeys.NoMove
  /\ AppKeys.handleKeyboardNavigation AppKeys.renderedOptions
       AppKeys.ArrowUp 5 = AppKeys.FocusMoved 3%nat.
Proof.
  assert (Hnd : NoDup AppKeys.renderedOptions)
    by (apply (bool_decide_unpack _); vm_compute; reflexivity).
  assert (Hi : AppKeys.renderedOptions !! 4%nat = Some (Some 5%Z))
    by reflexivity.
  split; [exact Hnd |]. split; [exact Hi |].
  destruct (X25_keyboard_navigation AppKeys.renderedOptions 4%nat 5%Z Hnd Hi)
    as (Hup & _ & Hdown & _).
  split; [exact Hdown | exact Hup].
Defined.

(** ** Reset, current [app.js] *)

Section ResetSession.

Variable calculateScore : R -> bool -> R.
Variable questions : list question.
Hypothesis bank_not_empty : questions <> [].

Lemma run_app (es1 es2 : list App.event) :
  App.run questions calculateScore (es1 ++ es2)
  = fold_left (App.step questions calculateScore) es2
      (App.run questions calculateScore es1).
Proof. unfold App.run. apply fold_left_app. Qed.

Lemma idle_no_timer (es : list App.event) :
  App.isProcessing (App.run questions calculateScore es) = false ->
  App.timers (App.run questions calculateScore es) = [].
Proof.
  intros Hp.
  destruct (run_position calculateScore questions es bank_not_empty)
    as [_ [Hnil | (cb & _ & Hp' & _)]]; [exact Hnil | congruence].
Qed.

Lemma processing_one_timer (es : list App.event) :
  App.isProcessing (App.run questions calculateScore es) = true ->
  exists cb, App.timers (App.run questions calculateScore es) = [cb].
Proof.
  induction es as [| e es IH] using rev_ind; [discriminate |].
  rewrite run_snoc.
  pose proof (run_position calculateScore questions es bank_not_empty)
    as [Hpos _].
  pose proof (idle_no_timer es) as Hidle.
  set (w := App.run questions calculateScore es) in *.
  destruct e as [value | | |]; simpl.
  - unfold App.handleAnswer.
    destruct (App.isProcessing w) eqn:Hp; [intros _; now apply IH |].
    destruct (lookup_lt_is_Some_2 questions _ Hpos) as [q ->].
    intros _. simpl. rewrite (Hidle eq_refl). simpl. eauto.
  - unfold App.timerFires.
    destruct (App.timers w) as [| cb rest] eqn:Ht;
      [rewrite Ht; exact IH |].
    simpl. discriminate.
  - unfold App.goBack.
    destruct ((0 <? App.currentQuestion (App.st w))%nat
              && negb (App.isProcessing w)); exact IH.
  - exact IH.
Qed.

End ResetSession.

(** X26.  In the current [app.js], a reset while no transition is
    pending puts the whole session back to its start: whatever follows
    behaves as in a fresh session.  A reset while a transition is
    pending does not cancel it: the scheduled callback then runs on the
    fresh state, which leaves a session with no answers at the second
    question or on the result screen. *)
Theorem X26_reset_restarts_session (calculateScore : R -> bool -> R)
    (questions : list question) (es1 es2 : list App.event) :
  questions <> [] ->
  let w := App.run questions calculateScore es1 in
  (App.isProcessing w = false ->
   App.run questions calculateScore (es1 ++ App.Reset :: es2)
   = App.run questions calculateScore es2)
  /\ (App.isProcessing w = true ->
      exists cb,
        App.timers w = [cb]
        /\ App.run questions calculateScore (es1 ++ [App.Reset; App.TimerFires])
           = {| App.st := App.runCallback cb App.createDefaultState;
                App.isProcessing := false; App.timers := [] |}
        /\ App.runCallback cb App.createDefaultState <> App.createDefaultState
        /\ App.answers (App.runCallback cb App.createDefaultState) = ∅).
Proof.
  intros Hne w. subst w. split.
  - intros Hp. rewrite run_app. cbn [fold_left App.step].
    replace (App.reset (App.run questions calculateScore es1))
      with App.initial; [reflexivity |].
    unfold App.reset, App.initial. rewrite Hp.
    now rewrite (idle_no_timer calculateScore questions Hne es1 Hp).
  - intros Hp.
    destruct (processing_one_timer calculateScore questions Hne es1 Hp)
      as [cb Hcb].
    exists cb. split; [exact Hcb |]. split.
    + rewrite run_app. cbn [fold_left App.step].
      unfold App.timerFires, App.reset. cbn [App.timers App.st].
      now rewrite Hcb.
    + split; [| destruct cb; reflexivity].
      destruct cb; discriminate.
Qed.

Lemma X26_reset_restarts_session_witness :
  sampleBank <> []
  /\ App.run sampleBank scoreCore
       ([App.Answer 5; App.TimerFires] ++ App.Reset :: [App.Answer 1])
     = App.run sampleBank scoreCore [App.Answer 1].
Proof.
  assert (Hne : sampleBank <> []) by discriminate.
  split; [exact Hne |].
  exact (proj1 (X26_reset_restarts_session scoreCore sampleBank
                  [App.Answer 5; App.TimerFires] [App.Answer 1] Hne)
           eq_refl).
Defined.

(** ** Diagnostic report, refactored [core.js] *)

Lemma toFixed2_sign (x : R) :
  (0 <= x -> 0 <= CoreTools.toFixed2 x) /\ (x <= 0 -> CoreTools.toFixed2 x <= 0).
Proof.
  unfold CoreTools.toFixed2, Math.abs.
  assert (Hn : 0 <= IZR (Math.floorZ (Rabs x * 100 + / 2)) / 100).
  { assert (0 <= Math.floorZ (Rabs x * 100 + / 2))%Z.
    { apply floorZ_ge. pose proof (Rabs_pos x). simpl. lra. }
    apply (IZR_le 0) in H. lra. }
  destruct (sign_values x) as [[Hx ->] | [[Hx ->] | [Hx ->]]]; split; intros; lra.
Qed.

Lemma toFixed2_mono (x y : R) :
  x <= y -> CoreTools.toFixed2 x <= CoreTools.toFixed2 y.
Proof.
  intros Hxy.
  destruct (Rle_dec 0 x) as [Hx | Hx]; [| destruct (Rle_dec 0 y) as [Hy | Hy]].
  - destruct (Req_dec x 0) as [-> | Hx0].
    + transitivity 0; [apply toFixed2_sign; lra | apply toFixed2_sign; lra].
    + unfold CoreTools.toFixed2, Math.abs.
      rewrite (sign_pos x), (sign_pos y) by lra.
      rewrite (Rabs_pos_eq x), (Rabs_pos_eq y) by lra.
      assert (H : (Math.floorZ (x * 100 + / 2) <= Math.floorZ (y * 100 + / 2))%Z)
        by (apply floorZ_mono; lra).
      apply IZR_le in H. lra.
  - transitivity 0; [apply toFixed2_sign; lra | apply toFixed2_sign; lra].
  - unfold CoreTools.toFixed2, Math.abs.
    rewrite (sign_neg x), (sign_neg y) by lra.
    rewrite (Rabs_left x), (Rabs_left y) by lra.
    assert (H : (Math.floorZ (- y * 100 + / 2) <= Math.floorZ (- x * 100 + / 2))%Z)
      by (apply floorZ_mono; lra).
    apply IZR_le in H. lra.
Qed.

Lemma imap_projection {A B C : Type} (f : nat -> A -> B) (g : B -> C)
    (h : A -> C) (l : list A) :
  (forall i x, g (f i x) = h x) ->
  map g (imap f l) = map h l.
Proof.
  revert f. induction l as [| x l IH]; intros f Hf; [reflexivity |].
  simpl. rewrite Hf. f_equal. apply IH. intros i y. apply Hf.
Qed.

Lemma imap_index {A B : Type} (f : nat -> A -> B) (g : B -> nat) (k : nat)
    (l : list A) :
  (forall i x, g (f i x) = (k + i)%nat) ->
  map g (imap f l) = seq k (length l).
Proof.
  revert f k. induction l as [| x l IH]; intros f k Hf; [reflexivity |].
  simpl. rewrite Hf, Nat.add_0_r. f_equal.
  apply IH. intros i y. unfold compose. rewrite Hf. lia.
Qed.

Lemma sorted_rounded (l : list (string * R)) :
  StronglySorted geScore l ->
  StronglySorted (fun x y : R => y <= x)
    (map (fun e => CoreTools.toFixed2 (snd e)) l).
Proof.
  induction 1 as [| e l Hs IH He]; simpl; constructor; [exact IH |].
  apply Forall_map. eapply Forall_impl; [| exact He].
  intros e' Hle. simpl. apply toFixed2_mono. exact Hle.
Qed.

Lemma lookupName_in {A} (table : list (string * A)) (n : string) (v : A) :
  NoDup (map fst table) -> In (n, v) table ->
  CoreReport.lookupName table (Some n) = Some v.
Proof.
  intros Hnd Hin. unfold CoreReport.lookupName.
  induction table as [| [n' v'] table IH]; [contradiction |].
  simpl in *.
  pose proof (NoDup_cons_1_1 _ _ Hnd) as Hnotin.
  pose proof (NoDup_cons_1_2 _ _ Hnd) as Hnd1.
  destruct Hin as [E | Hin].
  - injection E as -> ->. rewrite bool_decide_eq_true_2 by reflexivity.
    reflexivity.
  - rewrite bool_decide_eq_false_2; [now apply IH |].
    intros ->. apply Hnotin. apply list_elem_of_In.
    change n with (fst (n, v)). now apply in_map.
Qed.

(** X27.  On the sixteen-type table [generateDiagnosticReport] always
    returns a report.  Its ranking lists every type once, numbered from
    1 to 16, with rounded totals that never increase down the list; the
    first two places are the determined type and the runner-up.  The
    reported difference of the two leading totals is their difference
    to within 0.005 and never negative.  The breakdown has one row per
    function of the determined type's stack, with the weights 4, 2, 1
    and 0.5. *)
Theorem X27_diagnostic_report (now : string) (entries : list (func * R)) :
  exists (rep : CoreReport.report) (best second : string * R)
         (r1 r2 : CoreReport.ranked) (others : list CoreReport.ranked) (d : R),
    CoreReport.generateDiagnosticReport now entries COGNITIVE_STACKS = Some rep
    /\ In best (totalsOf (CoreReport.entryOf entries) COGNITIVE_STACKS)
    /\ In second (totalsOf (CoreReport.entryOf entries) COGNITIVE_STACKS)
    /\ fst second <> fst best
    /\ CoreReport.determinedType rep = fst best
    /\ CoreReport.secondBestType rep = Some (fst second)
    /\ map CoreReport.rank (CoreReport.typeScores rep) = seq 1 16
    /\ Permutation (map CoreReport.rankedType (CoreReport.typeScores rep))
         (map fst COGNITIVE_STACKS)
    /\ StronglySorted (fun x y : R => y <= x)
         (map CoreReport.score (CoreReport.typeScores rep))
    /\ CoreReport.typeScores rep = r1 :: r2 :: others
    /\ CoreReport.rankedType r1 = fst best
    /\ CoreReport.score r1 = CoreTools.toFixed2 (snd best)
    /\ CoreReport.rankedType r2 = fst second
    /\ CoreReport.score r2 = CoreTools.toFixed2 (snd second)
    /\ CoreReport.firstTypeScore rep = Some (snd best)
    /\ CoreReport.secondTypeScore rep = Some (snd second)
    /\ CoreReport.scoreDifference rep = Some d
    /\ 0 <= d
    /\ Rabs (d - (snd best - snd second)) <= 5 / 1000
    /\ In (CoreReport.determinedType rep, CoreReport.stack rep) COGNITIVE_STACKS
    /\ map CoreReport.itemFunction (CoreReport.breakdown rep)
       = CoreReport.stack rep
    /\ map CoreReport.weight (CoreReport.breakdown rep)
       = [Some 4; Some 2; Some 1; Some (5 / 10)]
    /\ CoreReport.functionScores rep
       = fst (CoreTools.getDetailedFunctionScores (Some entries)).
Proof.
  destruct COGNITIVE_STACKS_wf as (Hnd & Hlen & H2).
  set (fs := CoreReport.entryOf entries).
  destruct (determineMBTIType_ranked fs COGNITIVE_STACKS Hlen H2)
    as (best & second & rest & Hsort & _ & Hrefactored).
  pose proof Hnd as Hnd'. rewrite <- (totalsOf_names fs) in Hnd'.
  destruct (ranked_order _ _ _ _ Hnd' Hsort) as (Hbest & Hsecond & Hne & Htop & _).
  assert (Hbn : In (fst best) (map fst COGNITIVE_STACKS))
    by (rewrite <- (totalsOf_names fs); now apply in_map).
  destruct (in_names_stack _ Hbn) as (stack & Hstack).
  destruct (COGNITIVE_STACKS_four _ _ Hstack) as (a & b & c & d0 & ->).
  pose proof (lookupName_in COGNITIVE_STACKS _ _ Hnd Hstack) as Hls.
  assert (Hlb : CoreReport.lookupName (totalsOf fs COGNITIVE_STACKS)
                  (Some (fst best)) = Some (snd best))
    by (apply lookupName_in; [exact Hnd' | now rewrite <- surjective_pairing]).
  assert (Hl2 : CoreReport.lookupName (totalsOf fs COGNITIVE_STACKS)
                  (Some (fst second)) = Some (snd second))
    by (apply lookupName_in; [exact Hnd' | now rewrite <- surjective_pairing]).
  pose proof (Array_sort_sorted (totalsOf fs COGNITIVE_STACKS)) as Hsorted.
  pose proof (Array_sort_perm byScoreDesc (totalsOf fs COGNITIVE_STACKS)) as Hperm.
  unfold CoreReport.generateDiagnosticReport. fold fs. rewrite Hrefactored.
  cbn [CoreRefactored.type CoreRefactored.confidence CoreRefactored.top2
       CoreRefactored.typeScores fst snd].
  rewrite Hls, Hlb, Hl2.
  eexists _, best, second, _, _, _, _.
  split; [reflexivity |].
  cbn [CoreReport.determinedType CoreReport.secondBestType CoreReport.typeScores
       CoreReport.firstTypeScore CoreReport.secondTypeScore
       CoreReport.scoreDifference CoreReport.stack CoreReport.breakdown
       CoreReport.functionScores].
  split; [exact Hbest |]. split; [exact Hsecond |]. split; [exact Hne |].
  split; [reflexivity |]. split; [reflexivity |].
  split.
  { rewrite (imap_index _ CoreReport.rank 1) by (intros; simpl; lia).
    rewrite (Permutation_length Hperm). unfold totalsOf.
    now rewrite length_map. }
  split.
  { rewrite (imap_projection _ CoreReport.rankedType fst) by reflexivity.
    rewrite Hperm. now rewrite totalsOf_names. }
  split.
  { rewrite (imap_projection _ CoreReport.score
               (fun e => CoreTools.toFixed2 (snd e))) by reflexivity.
    now apply sorted_rounded. }
  rewrite Hsort.
  split; [reflexivity |]. cbn [CoreReport.rankedType CoreReport.score].
  split; [reflexivity |]. split; [reflexivity |].
  split; [reflexivity |]. split; [reflexivity |].
  split; [reflexivity |]. split; [reflexivity |].
  split; [reflexivity |].
  split; [apply toFixed2_sign; specialize (Htop second Hsecond); lra |].
  split; [apply toFixed2_close |].
  split; [exact Hstack |].
  split; [reflexivity |].
  split; [| reflexivity].
  cbn. unfold CoreRefactored.JUNG_FUNCTION_WEIGHTS_DOMINANT,
    CoreRefactored.JUNG_FUNCTION_WEIGHTS_AUXILIARY,
    CoreRefactored.JUNG_FUNCTION_WEIGHTS_TERTIARY,
    CoreRefactored.JUNG_FUNCTION_WEIGHTS_INFERIOR.
  repeat f_equal; lra.
Qed.

(** ** What [render] shows, current [app.js] *)

Lemma classifier_defined (fs : scores_object) :
  exists r, Core.determineMBTIType fs COGNITIVE_STACKS = Some r
            /\ In (Core.type r) (map fst COGNITIVE_STACKS)
            /\ In (snd (Core.top2 r)) (map fst COGNITIVE_STACKS).
Proof.
  destruct COGNITIVE_STACKS_wf as (Hnd & Hlen & H2).
  destruct (determineMBTIType_ranked fs COGNITIVE_STACKS Hlen H2)
    as (best & second & rest & Hsort & Hcore & _).
  rewrite <- (totalsOf_names fs) in Hnd.
  destruct (ranked_order _ _ _ _ Hnd Hsort) as (Hbest & Hsecond & _).
  eexists. split; [exact Hcore |].
  cbn [Core.type Core.top2 snd].
  rewrite <- (totalsOf_names fs). split; now apply in_map.
Qed.

Lemma updateSidePanel_defined (questions : list question) (s : App.state) :
  is_Some (AppView.updateSidePanel questions s).
Proof.
  unfold AppView.updateSidePanel.
  destruct (size (App.answers s) <? AppView.MIN_ANSWERS_FOR_PROVISIONAL)%nat;
    [eexists; reflexivity |].
  destruct (classifier_defined (scoresObject (App.functionScores s)))
    as (r & -> & Hin & _).
  destruct (descriptionOf_table _ Hin) as (name & desc & -> & _).
  eexists; reflexivity.
Qed.

Lemma renderResult_defined (s : App.state) :
  is_Some (AppView.renderResult s).
Proof.
  unfold AppView.renderResult.
  destruct (classifier_defined (scoresObject (App.functionScores s)))
    as (r & -> & Hin & Hin2).
  destruct (descriptionOf_table _ Hin) as (name & desc & -> & _).
  destruct (descriptionOf_table _ Hin2) as (name2 & desc2 & -> & _).
  destruct (in_names_stack _ Hin) as (stack & Hstack).
  rewrite (stackOf_in _ _ Hstack).
  destruct (Rlt_dec (Core.confidence r) 30); eexists; reflexivity.
Qed.

Lemma sameValue_IZR (k v : Z) :
  AppScreen.sameValue (Some (IZR k)) v = true <-> v = k.
Proof.
  unfold AppScreen.sameValue.
  destruct (Req_dec_T (IZR k) (IZR v)) as [E | NE].
  - apply eq_IZR in E. split; [congruence | reflexivity].
  - split; [discriminate | intros ->; contradiction].
Qed.

Lemma tab_marks (k v : Z) (index : nat) :
  let sel := AppScreen.sameValue (Some (IZR k)) v in
  let tab := if sel then 0%Z
             else match Some (IZR k), index with
                  | None, O => 0%Z
                  | _, _ => (-1)%Z
                  end in
  (sel = true <-> v = k)
  /\ (tab = 0%Z <-> v = k)
  /\ (tab = 0%Z \/ tab = (-1)%Z).
Proof.
  intros sel tab. subst tab sel.
  pose proof (sameValue_IZR k v) as Hs.
  destruct (AppScreen.sameValue (Some (IZR k)) v).
  - split; [exact Hs |]. split; [| now left].
    split; [intros _; now apply Hs | reflexivity].
  - split; [exact Hs |]. split; [| now right].
    split; [discriminate | intros E; apply Hs in E; discriminate].
Qed.

(** X28.  At every point of a session over a non-empty bank [render]
    has a screen to show and never throws: the result screen once
    [showResult] is set, otherwise the current question with the side
    panel.  The question screen numbers the question from 1 up to the
    size of the bank and offers the Back button exactly from the second
    question on.  Of its five buttons, valued 1 to 5, exactly one can
    be reached with the Tab key: the first when the question has no
    saved answer, in which case none is selected, and otherwise the one
    whose value is the saved answer, which is the selected one. *)
Theorem X28_render_question_screen (calculateScore : R -> bool -> R)
    (questions : list question) (es : list App.event) :
  questions <> [] ->
  let s := App.st (App.run questions calculateScore es) in
  exists scr : AppScreen.screen,
    AppScreen.render questions s = Some scr
    /\ match scr with
       | AppScreen.ResultScreen v =>
           App.showResult s = true /\ AppView.renderResult s = Some v
       | AppScreen.QuestionScreen qv p =>
           App.showResult s = false
           /\ AppView.updateSidePanel questions s = Some p
           /\ exists q,
                questions !! App.currentQuestion s = Some q
                /\ AppScreen.questionText qv = Question.text q
                /\ AppScreen.questionNumber qv = S (App.currentQuestion s)
                /\ (AppScreen.questionNumber qv <= AppScreen.questionCount qv)%nat
                /\ AppScreen.questionCount qv = length questions
                /\ (AppScreen.backButton qv = true
                    <-> (0 < App.currentQuestion s)%nat)
                /\ map AppScreen.optionValue (AppScreen.options qv)
                   = [1; 2; 3; 4; 5]%Z
                /\ Forall (fun o => is_Some (AppScreen.label o))
                     (AppScreen.options qv)
                /\ (App.answers s !! Question.id q = None ->
                    map AppScreen.selected (AppScreen.options qv)
                    = [false; false; false; false; false]
                    /\ map AppScreen.tabindex (AppScreen.options qv)
                       = [0; -1; -1; -1; -1]%Z)
                /\ (forall (a : App.answer) (k : Z),
                      App.answers s !! Question.id q = Some a ->
                      App.value a = IZR k ->
                      Forall (fun o =>
                                (AppScreen.selected o = true
                                 <-> AppScreen.optionValue o = k)
                                /\ (AppScreen.tabindex o = 0%Z
                                    <-> AppScreen.optionValue o = k)
                                /\ (AppScreen.tabindex o = 0%Z
                                    \/ AppScreen.tabindex o = (-1)%Z))
                        (AppScreen.options qv))
       end.
Proof.
  intros Hne s.
  destruct (run_position calculateScore questions es Hne) as [Hpos _].
  fold s in Hpos.
  unfold AppScreen.render.
  destruct (App.showResult s) eqn:Hshow.
  - destruct (renderResult_defined s) as [v Hv]. rewrite Hv.
    exists (AppScreen.ResultScreen v). simpl. auto.
  - destruct (updateSidePanel_defined questions s) as [p Hp].
    destruct (lookup_lt_is_Some_2 questions _ Hpos) as [q Hq].
    unfold AppScreen.renderQuestion. rewrite Hq, Hp.
    eexists. split; [reflexivity |].
    split; [reflexivity |]. split; [reflexivity |].
    exists q. split; [reflexivity |].
    cbn [AppScreen.questionText AppScreen.questionNumber
         AppScreen.questionCount AppScreen.backButton AppScreen.options].
    split; [reflexivity |]. split; [lia |]. split; [lia |].
    split; [reflexivity |].
    split; [apply Nat.ltb_lt |].
    split; [reflexivity |].
    split; [repeat constructor; eexists; reflexivity |].
    split.
    + intros Hnone. rewrite Hnone. split; reflexivity.
    + intros a k Ha Hk. rewrite Ha. cbn [fmap option_fmap option_map].
      rewrite Hk.
      repeat (constructor; [exact (tab_marks k _ 0%nat) |]). constructor.
Qed.

Lemma X28_render_question_screen_witness :
  sampleBank <> []
  /\ exists scr : AppScreen.screen,
       AppScreen.render sampleBank
         (App.st (App.run sampleBank scoreCore
                    [App.Answer 4; App.TimerFires; App.GoBack]))
       = Some scr.
Proof.
  assert (Hne : sampleBank <> []) by discriminate.
  split; [exact Hne |].
  destruct (X28_render_question_screen scoreCore sampleBank
              [App.Answer 4; App.TimerFires; App.GoBack] Hne)
    as (scr & Hscr & _).
  exists scr. exact Hscr.
Defined.

(** ** The session over the shuffled bank *)

Lemma questionsOf_perm (l l' : list question) (d : func) :
  Permutation l l' -> questionsOf l d = questionsOf l' d.
Proof.
  intros Hperm. unfold questionsOf. now rewrite Hperm.
Qed.

Lemma reachable_score_within (questions : list question) (es : list App.event)
    (d : func) :
  NoDup (map Question.id questions) ->
  (questionsOf questions d <= 8)%nat ->
  Rabs (App.functionScores (App.st (App.run questions scoreRefactored es)) d)
  <= 184 / 10.
Proof.
  intros Hnd H8.
  rewrite (run_scores_bankTotal scoreRefactored questions es d Hnd).
  eapply Rle_trans; [apply bankTotal_bound; exact refactored_score_abs |].
  pose proof Rpower_two_bounds as [Hc1 Hc2].
  assert (H8' : INR (questionsOf questions d) <= 8).
  { replace 8 with (INR 8) by (simpl; lra). now apply le_INR. }
  pose proof (pos_INR (questionsOf questions d)). nra.
Qed.

(** * The scores under rounding *)

(** ** The scorer on doubles *)

Lemma two_to_261 : 64 * (2 ^ 51) ^ 5 = IZR (2 ^ 261).
Proof.
  rewrite <- pow_mult.
  replace 64 with (2 ^ 6) by (simpl; lra).
  rewrite <- pow_add. rewrite pow_IZR. reflexivity.
Qed.

Lemma scaled_fifth_power (z : Z) :
  (IZR z / 2 ^ 51) ^ 5 * (2 ^ 51) ^ 5 = IZR (z ^ 5).
Proof.
  rewrite <- Rpow_mult_distr.
  replace (IZR z / 2 ^ 51 * 2 ^ 51) with (IZR z).
  - rewrite pow_IZR. reflexivity.
  - field; try (apply pow_nonzero; lra).
Qed.

Lemma fifth_root_above (z : Z) (r : R) :
  0 < r -> r ^ 5 = 64 -> (z ^ 5 < 2 ^ 261)%Z -> IZR z / 2 ^ 51 < r.
Proof.
  intros Hr Hr5 Hlt.
  destruct (Rlt_le_dec (IZR z / 2 ^ 51) r) as [H | H]; [exact H | exfalso].
  assert (Hp : r ^ 5 <= (IZR z / 2 ^ 51) ^ 5) by (apply pow_incr; lra).
  assert (H255 : 0 < (2 ^ 51) ^ 5) by (repeat apply pow_lt; lra).
  apply (Rmult_le_compat_r ((2 ^ 51) ^ 5)) in Hp; [| lra].
  rewrite Hr5, two_to_261, scaled_fifth_power in Hp.
  apply le_IZR in Hp. lia.
Qed.

Lemma fifth_root_below (z : Z) (r : R) :
  0 < r -> r ^ 5 = 64 -> (0 <= z)%Z -> (2 ^ 261 < z ^ 5)%Z ->
  r < IZR z / 2 ^ 51.
Proof.
  intros Hr Hr5 Hz Hlt.
  destruct (Rlt_le_dec r (IZR z / 2 ^ 51)) as [H | H]; [exact H | exfalso].
  assert (Hq : 0 <= IZR z / 2 ^ 51).
  { apply Rmult_le_pos; [now apply IZR_le |].
    left. apply Rinv_0_lt_compat, pow_lt. lra. }
  assert (Hp : (IZR z / 2 ^ 51) ^ 5 <= r ^ 5) by (apply pow_incr; lra).
  assert (H255 : 0 < (2 ^ 51) ^ 5) by (repeat apply pow_lt; lra).
  apply (Rmult_le_compat_r ((2 ^ 51) ^ 5)) in Hp; [| lra].
  rewrite Hr5, two_to_261, scaled_fifth_power in Hp.
  apply le_IZR in Hp. lia.
Qed.

(** The double that [Math.pow(2, 1.2)] returns is [m * 2 ^ -51] for
    the integer [m] below, and the real [2 ^ 1.2] lies between it and
    the next double. *)
Lemma pow_1_2_two_brackets :
  Prim2SF (Math64.pow_1_2 2) = S754_finite false 5173277483525748 (-51)
  /\ IZR 5173277483525748 / 2 ^ 51 < Rpower 2 (12 / 10)
     < IZR 5173277483525749 / 2 ^ 51.
Proof.
  split; [vm_compute; reflexivity |].
  assert (Hr : 0 < Rpower 2 (12 / 10)) by apply exp_pos.
  assert (Hr5 : Rpower 2 (12 / 10) ^ 5 = 64).
  { rewrite <- (Rpower_pow 5 _ Hr), Rpower_mult.
    replace (12 / 10 * INR 5) with (INR 6) by (simpl; lra).
    rewrite Rpower_pow by lra. simpl. lra. }
  split.
  - apply (fifth_root_above _ _ Hr Hr5). vm_compute. reflexivity.
  - apply (fifth_root_below _ _ Hr Hr5); [lia |]. vm_compute. reflexivity.
Qed.

(** ** Rounded operations: how far a result can drift *)

Lemma roundingError_nonneg (u : R) (k : nat) (M : R) :
  0 <= u -> 0 <= M -> 0 <= roundingError u k M.
Proof.
  intros Hu HM. unfold roundingError.
  assert (1 <= (1 + u) ^ k) by (apply pow_R1_Rle; lra).
  apply Rmult_le_pos; lra.
Qed.

Lemma roundingError_mono (u : R) (k k' : nat) (M : R) :
  0 <= u -> 0 <= M -> (k <= k')%nat ->
  roundingError u k M <= roundingError u k' M.
Proof.
  intros Hu HM Hk. unfold roundingError.
  assert ((1 + u) ^ k <= (1 + u) ^ k') by (apply Rle_pow; [lra | exact Hk]).
  apply Rmult_le_compat_r; lra.
Qed.

Lemma roundingError_succ (u : R) (k : nat) (M : R) :
  (1 + u) * roundingError u k M + u * M = roundingError u (S k) M.
Proof. unfold roundingError. simpl. ring. Qed.

Lemma roundingError_zero (k : nat) (M : R) : roundingError 0 k M = 0.
Proof.
  unfold roundingError. rewrite Rplus_0_r, pow1. ring.
Qed.

(** One rounded operation: if the operand is within [E] of a quantity
    of size at most [M], the rounded result is within
    [(1 + u) * E + u * M] of it. *)
Lemma round_step (rnd : R -> R) (u x y E M : R) :
  RoundsWithin u rnd -> 0 <= u ->
  Rabs (x - y) <= E -> Rabs y <= M ->
  Rabs (rnd x - y) <= (1 + u) * E + u * M.
Proof.
  intros Hrnd Hu Hxy Hy.
  pose proof (Hrnd x) as Hx.
  assert (Hax : Rabs x <= M + E).
  { replace x with (y + (x - y)) by ring.
    eapply Rle_trans; [apply Rabs_triang | lra]. }
  replace (rnd x - y) with ((rnd x - x) + (x - y)) by ring.
  eapply Rle_trans; [apply Rabs_triang |].
  assert (u * Rabs x <= u * (M + E)) by (apply Rmult_le_compat_l; lra).
  lra.
Qed.

Lemma Rabs_difference (a c : R) : Rabs (a - c) <= Rabs a + Rabs c.
Proof.
  unfold Rminus. eapply Rle_trans; [apply Rabs_triang |].
  rewrite Rabs_Ropp. lra.
Qed.


(** ** The session over rounded reals against the exact session *)

Section RoundedSession.

Variable rnd : R -> R.
Variable calculateScore : R -> bool -> R.
Variable questions : list question.

Lemma shape_recordAnswer (q : question) (v : R)
    (ss : Session.state (Arith.rounded rnd)) (sa : App.state) :
  toAppAnswer <$> Session.answers ss = App.answers sa ->
  Session.currentQuestion ss = App.currentQuestion sa ->
  Session.showResult ss = App.showResult sa ->
  let ss' := Session.recordAnswer (Arith.rounded rnd) calculateScore q v ss in
  let sa' := App.recordAnswer calculateScore q v sa in
  toAppAnswer <$> Session.answers ss' = App.answers sa'
  /\ Session.currentQuestion ss' = App.currentQuestion sa'
  /\ Session.showResult ss' = App.showResult sa'.
Proof.
  intros Ha Hc Hs ss' sa'. subst ss' sa'.
  unfold Session.recordAnswer, App.recordAnswer. simpl.
  rewrite fmap_insert, Ha. auto.
Qed.

Lemma shape_step (ws : Session.world (Arith.rounded rnd)) (wa : App.world)
    (e : Session.event (Arith.rounded rnd)) :
  ShapeAgrees ws wa ->
  ShapeAgrees (Session.step (Arith.rounded rnd) calculateScore questions ws e)
    (App.step questions calculateScore wa (toAppEvent e)).
Proof.
  intros (Hc & Hs & Ha & Hp & Ht).
  destruct e as [v | | |]; simpl.
  - unfold Session.handleAnswer, App.handleAnswer. rewrite <- Hp, <- Hc.
    destruct (Session.isProcessing ws) eqn:Ep;
      [unfold ShapeAgrees; rewrite Ep; repeat split; assumption |].
    destruct (questions !! Session.currentQuestion (Session.st ws)) as [q |].
    + destruct (shape_recordAnswer q v _ _ Ha Hc Hs) as (Ha' & Hc' & Hs').
      cbn zeta in Ha', Hc', Hs'.
      unfold ShapeAgrees.
      cbn [Session.st Session.isProcessing Session.timers
           App.st App.isProcessing App.timers].
      rewrite Hc', Ht. repeat split; assumption.
    + unfold ShapeAgrees. simpl. repeat split; assumption.
  - unfold Session.timerFires, App.timerFires. rewrite <- Ht.
    destruct (Session.timers ws) as [| cb rest] eqn:Et;
      [unfold ShapeAgrees; rewrite Et; repeat split; assumption |].
    unfold ShapeAgrees. destruct cb; simpl; repeat split; congruence.
  - unfold Session.goBack, App.goBack. rewrite <- Hp, <- Hc.
    destruct ((0 <? Session.currentQuestion (Session.st ws))%nat
              && negb (Session.isProcessing ws));
      [| repeat split; assumption].
    unfold ShapeAgrees. simpl. repeat split; congruence.
  - unfold ShapeAgrees. simpl. rewrite fmap_empty. repeat split; assumption.
Qed.

Lemma rounded_run_snoc (es : list (Session.event (Arith.rounded rnd)))
    (e : Session.event (Arith.rounded rnd)) :
  Session.run (Arith.rounded rnd) calculateScore questions (es ++ [e])
  = Session.step (Arith.rounded rnd) calculateScore questions
      (Session.run (Arith.rounded rnd) calculateScore questions es) e.
Proof. unfold Session.run. now rewrite fold_left_app. Qed.

Lemma shape_run (es : list (Session.event (Arith.rounded rnd))) :
  ShapeAgrees (Session.run (Arith.rounded rnd) calculateScore questions es)
    (App.run questions calculateScore (map toAppEvent es)).
Proof.
  induction es as [| e es IH] using rev_ind.
  - unfold ShapeAgrees. simpl. rewrite fmap_empty. repeat split.
  - rewrite rounded_run_snoc, map_app. simpl map.
    rewrite run_snoc. now apply shape_step.
Qed.

End RoundedSession.

Section RoundingError.

Variable rnd : R -> R.
Variable u : R.
Hypothesis u_nonneg : 0 <= u.
Hypothesis rnd_within : RoundsWithin u rnd.

Variable calculateScore : R -> bool -> R.
Variable questions : list question.
Hypothesis ids_unique : NoDup (map Question.id questions).

Variable B : R.
Hypothesis score_bound : forall v r, Rabs (calculateScore v r) <= B.

Lemma bound_nonneg : 0 <= B.
Proof.
  pose proof (score_bound 0 false).
  pose proof (Rabs_pos (calculateScore 0 false)). lra.
Qed.

Lemma exact_score_bound (es : list App.event) (d : func) :
  Rabs (App.functionScores (App.st (App.run questions calculateScore es)) d)
  <= B * INR (questionsOf questions d).
Proof.
  rewrite (run_scores_bankTotal calculateScore questions es d ids_unique).
  now apply bankTotal_bound.
Qed.

(** One answer: the rounded update stays within two more roundings of
    the exact one. *)
Lemma record_error (q : question) (v : R)
    (ss : Session.state (Arith.rounded rnd)) (sa : App.state)
    (d : func) (k : nat) (M : R) :
  toAppAnswer <$> Session.answers ss = App.answers sa ->
  Rabs (Session.functionScores ss d - App.functionScores sa d)
  <= roundingError u k M ->
  Rabs (App.functionScores sa d) + B <= M ->
  Rabs (App.functionScores (App.recordAnswer calculateScore q v sa) d) <= M ->
  Rabs (Session.functionScores
          (Session.recordAnswer (Arith.rounded rnd) calculateScore q v ss) d
        - App.functionScores (App.recordAnswer calculateScore q v sa) d)
  <= roundingError u (S (S k)) M.
Proof.
  intros Ha Herr Hold Hnew.
  assert (HM : 0 <= M).
  { pose proof (Rabs_pos (App.functionScores sa d)). pose proof bound_nonneg. lra. }
  assert (Hlookup : App.answers sa !! Question.id q
                    = toAppAnswer <$> (Session.answers ss !! Question.id q))
    by (rewrite <- Ha; apply lookup_fmap).
  revert Hnew. unfold Session.recordAnswer, App.recordAnswer.
  cbn [Session.functionScores App.functionScores]. rewrite Hlookup.
  destruct (decide (Question.type q = d)) as [<- | Hne].
  - destruct (Session.answers ss !! Question.id q) as [a0 |];
      cbn [fmap option_fmap option_map]; rewrite !fn_lookup_insert; intros Hnew.
    + cbn [Arith.add Arith.sub Arith.rounded].
      change (App.value (toAppAnswer a0)) with (Session.stored a0) in *.
      set (c0 := calculateScore (Session.stored a0)
                   (default false (Question.reverse q))) in *.
      set (delta := calculateScore v (default false (Question.reverse q))) in *.
      assert (H1 : Rabs (rnd (Session.functionScores ss (Question.type q) - c0)
                         - (App.functionScores sa (Question.type q) - c0))
                   <= roundingError u (S k) M).
      { rewrite <- roundingError_succ.
        apply (round_step rnd u); [exact rnd_within | exact u_nonneg | |].
        - replace (Session.functionScores ss (Question.type q) - c0
                   - (App.functionScores sa (Question.type q) - c0))
            with (Session.functionScores ss (Question.type q)
                  - App.functionScores sa (Question.type q)) by ring.
          exact Herr.
        - eapply Rle_trans; [apply Rabs_difference |].
          pose proof (score_bound (Session.stored a0)
                        (default false (Question.reverse q))).
          fold c0 in H. lra. }
      rewrite <- roundingError_succ.
      apply (round_step rnd u); [exact rnd_within | exact u_nonneg | | exact Hnew].
      match goal with
      | |- Rabs (?x + delta - (?y + delta)) <= _ =>
          replace (x + delta - (y + delta)) with (x - y) by ring
      end.
      exact H1.
    + cbn [Arith.add Arith.rounded].
      eapply Rle_trans;
        [| apply (roundingError_mono u (S k) (S (S k)) M u_nonneg HM); lia].
      rewrite <- roundingError_succ.
      apply (round_step rnd u); [exact rnd_within | exact u_nonneg | | exact Hnew].
      match goal with
      | |- Rabs (?x + ?c - (?y + ?c)) <= _ =>
          replace (x + c - (y + c)) with (x - y) by ring
      end.
      exact Herr.
  - intros _.
    rewrite !fn_lookup_insert_ne by exact Hne.
    eapply Rle_trans;
      [| apply (roundingError_mono u k (S (S k)) M u_nonneg HM); lia].
    destruct (Session.answers ss !! Question.id q);
      cbn [fmap option_fmap option_map];
      rewrite ?fn_lookup_insert_ne by exact Hne; exact Herr.
Qed.

(** Every score of the rounded session is within the rounding error
    of the score of the exact session. *)
Lemma rounded_run_error (es : list (Session.event (Arith.rounded rnd)))
    (d : func) :
  Rabs (Session.functionScores
          (Session.st (Session.run (Arith.rounded rnd) calculateScore
                         questions es)) d
        - App.functionScores
            (App.st (App.run questions calculateScore (map toAppEvent es))) d)
  <= roundingError u (2 * length es) (B * (INR (questionsOf questions d) + 1)).
Proof.
  set (M := B * (INR (questionsOf questions d) + 1)).
  assert (HM : 0 <= M).
  { pose proof bound_nonneg. pose proof (pos_INR (questionsOf questions d)).
    apply Rmult_le_pos; lra. }
  induction es as [| e es IH] using rev_ind.
  - simpl. rewrite Rminus_diag, Rabs_R0.
    now apply roundingError_nonneg.
  - pose proof (shape_run rnd calculateScore questions es)
      as (Hc & Hs & Ha & Hp & Ht).
    pose proof (exact_score_bound (map toAppEvent es) d) as Hold.
    pose proof (exact_score_bound (map toAppEvent (es ++ [e])) d) as Hnew.
    rewrite map_app in Hnew |- *. simpl map in Hnew |- *.
    rewrite run_snoc in Hnew |- *. rewrite rounded_run_snoc.
    rewrite length_app. simpl length.
    replace (2 * (length es + 1))%nat with (S (S (2 * length es))) by lia.
    assert (Hkeep : Rabs (Session.functionScores
                            (Session.st (Session.run (Arith.rounded rnd)
                                           calculateScore questions es)) d
                          - App.functionScores
                              (App.st (App.run questions calculateScore
                                         (map toAppEvent es))) d)
                    <= roundingError u (S (S (2 * length es))) M).
    { eapply Rle_trans; [exact IH |].
      apply roundingError_mono; [exact u_nonneg | exact HM | lia]. }
    set (ws := Session.run (Arith.rounded rnd) calculateScore questions es) in *.
    set (wa := App.run questions calculateScore (map toAppEvent es)) in *.
    destruct e as [v | | |]; simpl in Hnew |- *.
    + revert Hnew. unfold Session.handleAnswer, App.handleAnswer.
      rewrite <- Hp, <- Hc.
      destruct (Session.isProcessing ws); [intros _; exact Hkeep |].
      destruct (questions !! Session.currentQuestion (Session.st ws)) as [q |];
        [| intros _; exact Hkeep].
      cbn [Session.st App.st]. intros Hnew.
      apply record_error; [exact Ha | exact IH | | ].
      * unfold M. rewrite Rmult_plus_distr_l, Rmult_1_r.
        apply Rplus_le_compat_r. exact Hold.
      * eapply Rle_trans; [exact Hnew |]. unfold M.
        pose proof bound_nonneg. rewrite Rmult_plus_distr_l. lra.
    + unfold Session.timerFires, App.timerFires. rewrite <- Ht.
      destruct (Session.timers ws) as [| [|] rest]; exact Hkeep.
    + unfold Session.goBack, App.goBack. rewrite <- Hp, <- Hc.
      destruct ((0 <? Session.currentQuestion (Session.st ws))%nat
                && negb (Session.isProcessing ws)); exact Hkeep.
    + rewrite Rminus_diag, Rabs_R0. now apply roundingError_nonneg.
Qed.

End RoundingError.

(** ** Without rounding the two sessions coincide *)

Section ExactSession.

Variable rnd : R -> R.
Hypothesis rnd_exact : forall x, rnd x = x.

Variable calculateScore : R -> bool -> R.
Variable questions : list question.



End ExactSession.

Lemma recordedTotal_exact (rnd : R -> R) (calculateScore : R -> bool -> R)
    (questions : list question)
    (es : list (Session.event (Arith.rounded rnd))) (d : func) :
  NoDup (map Question.id questions) ->
  recordedTotal calculateScore questions
    (Session.answers
       (Session.st (Session.run (Arith.rounded rnd) calculateScore questions es)))
    d
  = App.functionScores
      (App.st (App.run questions calculateScore (map toAppEvent es))) d.
Proof.
  intros Hnd.
  destruct (shape_run rnd calculateScore questions es) as (_ & _ & Ha & _).
  destruct (run_invariant calculateScore questions Hnd (map toAppEvent es))
    as [_ Hinv].
  unfold recordedTotal. rewrite Ha. symmetry. apply Hinv.
Qed.

Lemma inflate_rounds : RoundsWithin (/ 8) inflate.
Proof.
  intros x. unfold inflate.
  replace (x + x / 8 - x) with (/ 8 * x) by lra.
  rewrite Rabs_mult, (Rabs_pos_eq (/ 8)) by lra. lra.
Qed.

(** ** Answers in turn, in any arithmetic *)

Section InTurn.

Context (A : Arith.t).
Variable calculateScore : Arith.num A -> bool -> Arith.num A.
Variable questions : list question.

Hypothesis ids_unique : NoDup (map Question.id questions).







End InTurn.

(** On doubles, on the bank of eight questions: after every session of
    at most seven answers in turn, recording a value twice, for the
    question reached or for the first one, leaves the score that
    recording it once leaves. *)
Lemma same_answer_twice_on_doubles :
  forallb sameTwiceAfter (seq 0 8) = true.
Proof. vm_compute. reflexivity. Qed.

(** ** The accumulator invariant *)




(** ** Revising an answer *)


Section Revision.

Variable rnd : R -> R.
Variable u : R.
Hypothesis u_nonneg : 0 <= u.
Hypothesis rnd_within : RoundsWithin u rnd.



Variable calculateScore : R -> bool -> R.


End Revision.



(** ** Bounds on the scores under rounding *)

(** X6.  With distinct ids and a scorer bounded by [B] in size, the
    exact sum of the item scores recorded for a function is at most [B]
    times the number of questions of that function, at any point of a
    session.  The score kept for the function, computed with operations
    rounded with a relative error of at most [u], is within the
    rounding error of that sum, and so at most
    [(1 + u) ^ k * B * (n + 1)] in size, [k] being twice the number of
    events and [n] the number of questions of the function. *)
Theorem X6_scores_bounded_by_bank (rnd : R -> R) (u : R)
    (calculateScore : R -> bool -> R) (questions : list question)
    (es : list (Session.event (Arith.rounded rnd))) (d : func) (B : R) :
  0 <= u ->
  RoundsWithin u rnd ->
  NoDup (map Question.id questions) ->
  (forall v r, Rabs (calculateScore v r) <= B) ->
  let s := Session.st (Session.run (Arith.rounded rnd) calculateScore
                         questions es) in
  let total := recordedTotal calculateScore questions (Session.answers s) d in
  Rabs total <= B * INR (questionsOf questions d)
  /\ Rabs (Session.functionScores s d)
     <= (1 + u) ^ (2 * length es) * (B * (INR (questionsOf questions d) + 1)).
Proof.
  intros Hu Hrnd Hnd HB s total. subst s total.
  rewrite (recordedTotal_exact rnd calculateScore questions es d Hnd).
  pose proof (exact_score_bound calculateScore questions Hnd B HB
                (map toAppEvent es) d) as Hexact.
  pose proof (rounded_run_error rnd u Hu Hrnd calculateScore questions Hnd B HB
                es d) as Herr.
  split; [exact Hexact |].
  pose proof (bound_nonneg calculateScore B HB) as HB0.
  set (x := Session.functionScores _ d) in *.
  set (y := App.functionScores _ d) in *.
  replace x with (y + (x - y)) by ring.
  eapply Rle_trans; [apply Rabs_triang |].
  unfold roundingError in Herr. lra.
Qed.

Lemma X6_scores_bounded_by_bank_witness :
  0 <= / 8
  /\ RoundsWithin (/ 8) inflate
  /\ NoDup (map Question.id sampleBank)
  /\ (forall v r, Rabs (scoreRefactored v r) <= Rpower 2 (12 / 10))
  /\ let es := [Session.Answer (A := Arith.rounded inflate) 5;
                Session.TimerFires;
                Session.Answer (A := Arith.rounded inflate) 9] in
     Rabs (Session.functionScores
             (Session.st (Session.run (Arith.rounded inflate) scoreRefactored
                            sampleBank es)) Ni)
     <= (1 + / 8) ^ 6
        * (Rpower 2 (12 / 10) * (INR (questionsOf sampleBank Ni) + 1)).
Proof.
  assert (Hu : 0 <= / 8) by lra.
  split; [exact Hu |]. split; [exact inflate_rounds |].
  split; [exact sampleBank_ids_unique |]. split; [exact refactored_score_abs |].
  intros es.
  exact (proj2 (X6_scores_bounded_by_bank inflate (/ 8) scoreRefactored
                  sampleBank es Ni (Rpower 2 (12 / 10)) Hu inflate_rounds
                  sampleBank_ids_unique refactored_score_abs)).
Defined.



(** ** The older sessions step by step *)

Section OlderAgainstCurrent.

Variable calculateScore : R -> bool -> R.
Variable questions : list question.

Lemma withoutFlags_lookup (i : nat) :
  withoutFlags questions !! i = withoutFlag <$> questions !! i.
Proof. unfold withoutFlags. apply list_lookup_fmap. Qed.

Lemma withoutFlags_length :
  length (withoutFlags questions) = length questions.
Proof. unfold withoutFlags. apply length_fmap. Qed.

Lemma initial_same_point : SamePoint AppLegacy.initial App.initial.
Proof.
  unfold SamePoint. do 4 (split; [reflexivity |]).
  exists (fun _ => 0). split; [| reflexivity].
  cbn [App.initial App.st App.createDefaultState App.answers].
  rewrite fmap_empty. exact legacy_initial_shape.
Qed.

(** The older [handleAnswer] and the current one on the question
    without its flag make the same two updates. *)
Lemma record_same_point (q : question) (value : R) (s : App.state)
    (scores : func -> R) :
  (forall d, scores d = App.functionScores s d) ->
  let s' := App.recordAnswer calculateScore (withoutFlag q) value s in
  legacyEntries q value (App.value <$> App.answers s)
  = App.value <$> App.answers s'
  /\ (forall d,
        legacyScores calculateScore q value (App.value <$> App.answers s)
          scores d
        = App.functionScores s' d)
  /\ App.currentQuestion s' = App.currentQuestion s
  /\ App.showResult s' = App.showResult s.
Proof.
  intros Hscores s'. subst s'.
  unfold App.recordAnswer, legacyEntries, legacyScores.
  cbn [App.answers App.functionScores App.currentQuestion App.showResult
       withoutFlag Question.id Question.type Question.reverse default].
  split; [now rewrite fmap_insert |].
  split; [| split; reflexivity].
  intros d. rewrite lookup_fmap.
  destruct (App.answers s !! Question.id q) as [old |]; cbn [fmap option_fmap option_map].
  - destruct (decide (Question.type q = d)) as [-> | Hne].
    + rewrite !fn_lookup_insert. now rewrite Hscores.
    + rewrite !fn_lookup_insert_ne by exact Hne. apply Hscores.
  - destruct (decide (Question.type q = d)) as [-> | Hne].
    + rewrite !fn_lookup_insert. now rewrite Hscores.
    + rewrite !fn_lookup_insert_ne by exact Hne. apply Hscores.
Qed.

Lemma step_same_point (wl : AppLegacy.world) (wa : App.world)
    (e : AppLegacy.event) :
  e <> AppLegacy.Reset ->
  SamePoint wl wa ->
  SamePoint (AppLegacy.step questions calculateScore wl e)
    (App.step (withoutFlags questions) calculateScore wa (currentEvent e)).
Proof.
  intros Hreset (Hpos & Hshow & Hproc & Htimers & scores & Hshape & Hscores).
  destruct e as [value | | |]; [| | | contradiction];
    cbn [AppLegacy.step App.step currentEvent].
  - (* handleAnswer *)
    pose proof (legacy_handleAnswer_shape calculateScore questions value wl
                  _ scores Hshape) as Hnew.
    cbn zeta in Hnew.
    unfold AppLegacy.handleAnswer, App.handleAnswer in *.
    rewrite <- Hproc, <- Hpos, withoutFlags_lookup, withoutFlags_length.
    destruct (AppLegacy.isProcessing wl) eqn:Ep.
    { destruct (questions !! AppLegacy.currentQuestion (AppLegacy.st wl));
        unfold SamePoint; rewrite Ep;
        (do 4 (split; [assumption |])); exists scores; split; assumption. }
    destruct (questions !! AppLegacy.currentQuestion (AppLegacy.st wl))
      as [q |] eqn:Eq; cbn [fmap option_fmap option_map].
    + destruct (record_same_point q value (App.st wa) scores Hscores)
        as (Hentries & Hnewscores & Hposition & Hresult).
      unfold SamePoint.
      cbn [AppLegacy.st AppLegacy.isProcessing AppLegacy.timers
           App.st App.isProcessing App.timers].
      rewrite Hposition, Hresult.
      split; [exact Hpos |]. split; [exact Hshow |]. split; [reflexivity |].
      split.
      { rewrite map_app, Htimers, Hpos. f_equal.
        now destruct (App.currentQuestion (App.st wa)
                      <? length questions - 1)%nat. }
      exists (legacyScores calculateScore q value
                (App.value <$> App.answers (App.st wa)) scores).
      split; [| exact Hnewscores].
      rewrite <- Hentries. exact Hnew.
    + unfold SamePoint.
      cbn [AppLegacy.st AppLegacy.isProcessing AppLegacy.timers
           App.st App.isProcessing App.timers].
      do 4 (split; [assumption || reflexivity |]).
      exists scores. split; assumption.
  - (* the pending transition runs *)
    pose proof (legacy_timerFires_shape wl _ scores Hshape) as Hnew.
    unfold AppLegacy.timerFires, App.timerFires in *.
    destruct (AppLegacy.timers wl) as [| cb rest] eqn:Et;
      cbn [map] in Htimers; rewrite <- Htimers.
    + unfold SamePoint. rewrite Et, <- Htimers.
      do 4 (split; [assumption || reflexivity |]).
      exists scores. split; assumption.
    + unfold SamePoint.
      cbn [AppLegacy.st AppLegacy.isProcessing AppLegacy.timers
           App.st App.isProcessing App.timers].
      destruct cb;
        cbn [currentCallback AppLegacy.runCallback App.runCallback
             AppLegacy.currentQuestion AppLegacy.showResult
             App.currentQuestion App.showResult App.answers
             App.functionScores];
        (split; [congruence |]); (split; [congruence |]);
        (split; [reflexivity |]); (split; [reflexivity |]);
        exists scores; (split; [exact Hnew | exact Hscores]).
  - (* goBack *)
    pose proof (legacy_goBack_shape wl _ scores Hshape) as Hnew.
    unfold AppLegacy.goBack, App.goBack in *.
    rewrite <- Hproc, <- Hpos.
    destruct ((0 <? AppLegacy.currentQuestion (AppLegacy.st wl))%nat
              && negb (AppLegacy.isProcessing wl)).
    + unfold SamePoint.
      cbn [AppLegacy.st AppLegacy.isProcessing AppLegacy.timers
           App.st App.isProcessing App.timers
           AppLegacy.currentQuestion AppLegacy.showResult
           App.currentQuestion App.showResult App.answers App.functionScores].
      do 4 (split; [assumption || reflexivity |]).
      exists scores. split; [exact Hnew | exact Hscores].
    + unfold SamePoint.
      do 4 (split; [assumption |]). exists scores. split; assumption.
Qed.

Lemma run_same_point (es : list AppLegacy.event) :
  Forall (fun e => e <> AppLegacy.Reset) es ->
  SamePoint (AppLegacy.run questions calculateScore es)
    (App.run (withoutFlags questions) calculateScore (map currentEvent es)).
Proof.
  unfold AppLegacy.run, App.run.
  induction es as [| e es IH] using rev_ind; intros Hes.
  - exact initial_same_point.
  - apply Forall_app in Hes. destruct Hes as [Hes He].
    rewrite map_app, !fold_left_app. cbn [map fold_left].
    apply step_same_point; [now inversion He | now apply IH].
Qed.

End OlderAgainstCurrent.

(** X19.  The older sessions and the current one differ in the reversal
    flag and in [reset] only.  After any sequence of answers, timer
    callbacks and returns, with no reset, the older session is where
    the current one is on the same bank without reversal flags: same
    position, same result flag, same guard, and its two objects hold
    the values and the scores of the current state.  Both revisions
    make the same subtractions and additions in the same order, so the
    scores agree operation by operation. *)
Theorem X19_older_session_agrees (calculateScore : R -> bool -> R)
    (questions : list question) (es : list AppLegacy.event) :
  Forall (fun e => e <> AppLegacy.Reset) es ->
  let wl := AppLegacy.run questions calculateScore es in
  let wa := App.run (withoutFlags questions) calculateScore
              (map currentEvent es) in
  AppLegacy.currentQuestion (AppLegacy.st wl) = App.currentQuestion (App.st wa)
  /\ AppLegacy.showResult (AppLegacy.st wl) = App.showResult (App.st wa)
  /\ AppLegacy.isProcessing wl = App.isProcessing wa
  /\ AppLegacy.answersOf (AppLegacy.objects wl) (AppLegacy.st wl)
     = Some (App.value <$> App.answers (App.st wa))
  /\ exists scores,
       AppLegacy.scoresOf (AppLegacy.objects wl) (AppLegacy.st wl) = Some scores
       /\ forall d, scores d = App.functionScores (App.st wa) d.
Proof.
  intros Hes wl wa.
  destruct (run_same_point calculateScore questions es Hes)
    as (Hpos & Hshow & Hproc & _ & scores & (Ha & Hf & Hma & Hms) & Hscores).
  fold wl wa in Hpos, Hshow, Hproc, Ha, Hf, Hma, Hms, Hscores.
  split; [exact Hpos |]. split; [exact Hshow |]. split; [exact Hproc |].
  unfold AppLegacy.answersOf, AppLegacy.scoresOf.
  rewrite Ha, Hf, Hma, Hms.
  split; [reflexivity |]. exists scores. split; [reflexivity | exact Hscores].
Qed.

Lemma X19_older_session_agrees_witness :
  let es := [AppLegacy.Answer 5; AppLegacy.TimerFires; AppLegacy.GoBack;
             AppLegacy.Answer 2] in
  let wl := AppLegacy.run sampleBank scoreCore es in
  let wa := App.run (withoutFlags sampleBank) scoreCore (map currentEvent es) in
  Forall (fun e => e <> AppLegacy.Reset) es
  /\ AppLegacy.currentQuestion (AppLegacy.st wl) = App.currentQuestion (App.st wa)
  /\ AppLegacy.answersOf (AppLegacy.objects wl) (AppLegacy.st wl)
     = Some (App.value <$> App.answers (App.st wa)).
Proof.
  intros es wl wa.
  assert (Hes : Forall (fun e => e <> AppLegacy.Reset) es)
    by (repeat constructor; discriminate).
  split; [exact Hes |].
  destruct (X19_older_session_agrees scoreCore sampleBank es Hes)
    as (Hpos & _ & _ & Hanswers & _).
  split; [exact Hpos | exact Hanswers].
Defined.

(** ** The session over the bank the sequencer returns *)

(** A score within 18.4 of zero is shown as a value between 4 and 96. *)
Lemma normalize_band (s : R) :
  Rabs s <= 184 / 10 -> 4 <= App.normalizeScore s <= 96.
Proof.
  intros Hs.
  assert (Hs' : - (184 / 10) <= s <= 184 / 10)
    by (revert Hs; unfold Rabs; destruct (Rcase_abs s); lra).
  rewrite normalize_unclamped by lra.
  unfold Math.round.
  assert (L : (4 <= Math.roundZ ((s + 20) / 40 * 100))%Z).
  { rewrite <- (roundZ_IZR 4). apply roundZ_mono. simpl. lra. }
  assert (U : (Math.roundZ ((s + 20) / 40 * 100) <= 96)%Z).
  { rewrite <- (roundZ_IZR 96). apply roundZ_mono. simpl. lra. }
  apply IZR_le in L, U. simpl in L, U. lra.
Qed.

(** X30.  The module as a whole: [app.js] runs its session over the
    bank that the sequencer returns.  Whatever the random numbers, with
    or without the fallback, that bank has the size of the original
    one, the same distinct ids and the same number of questions for each
    function; so in every session over it the position stays on a
    question, and with the refactored scorer and at most eight
    questions for a function that function's score stays within 18.4 of
    zero and is shown as a value between 4 and 96, never a clamped
    one. *)
Theorem X30_session_over_shuffled_bank (rng : Sequencer.random_source)
    (originalQuestions : list question) (es : list App.event) :
  NoDup (map Question.id originalQuestions) ->
  originalQuestions <> [] ->
  let questions :=
    Sequencer.shuffled
      (value_of (Sequencer.shuffleQuestionsWithConstraints rng originalQuestions)) in
  let s := App.st (App.run questions scoreRefactored es) in
  length questions = length originalQuestions
  /\ NoDup (map Question.id questions)
  /\ (forall d, questionsOf questions d = questionsOf originalQuestions d)
  /\ (App.currentQuestion s < length originalQuestions)%nat
  /\ is_Some (questions !! App.currentQuestion s)
  /\ (forall d, (questionsOf originalQuestions d <= 8)%nat ->
        Rabs (App.functionScores s d) <= 184 / 10
        /\ 4 <= App.normalizeScore (App.functionScores s d) <= 96).
Proof.
  intros Hnd Hne questions s.
  pose proof (attemptLoop_spec rng originalQuestions Sequencer.maxAttempts 0 0)
    as Hspec.
  cbn zeta in Hspec. destruct Hspec as (Hperm & _).
  change (Permutation questions originalQuestions) in Hperm.
  assert (Hlen : length questions = length originalQuestions)
    by now apply Permutation_length.
  assert (Hnd' : NoDup (map Question.id questions)) by now rewrite Hperm.
  assert (Hne' : questions <> []).
  { intros E. rewrite E in Hlen. destruct originalQuestions; [congruence |].
    discriminate. }
  assert (Hcount : forall d, questionsOf questions d
                             = questionsOf originalQuestions d)
    by (intros d; now apply questionsOf_perm).
  destruct (run_position scoreRefactored questions es Hne') as [Hpos _].
  fold s in Hpos.
  split; [exact Hlen |]. split; [exact Hnd' |]. split; [exact Hcount |].
  split; [now rewrite <- Hlen |].
  split; [now apply lookup_lt_is_Some_2 |].
  intros d H8. rewrite <- Hcount in H8.
  pose proof (reachable_score_within questions es d Hnd' H8) as Hs.
  fold s in Hs. split; [exact Hs |].
  now apply normalize_band.
Qed.

Lemma X30_session_over_shuffled_bank_witness :
  NoDup (map Question.id sampleBank)
  /\ sampleBank <> []
  /\ length (Sequencer.shuffled
                (value_of (Sequencer.shuffleQuestionsWithConstraints
                             (fun _ => 0) sampleBank)))
     = length sampleBank.
Proof.
  assert (Hids : NoDup (map Question.id sampleBank))
    by (apply (bool_decide_unpack _); vm_compute; reflexivity).
  assert (Hne : sampleBank <> []) by discriminate.
  split; [exact Hids |]. split; [exact Hne |].
  exact (proj1 (X30_session_over_shuffled_bank (fun _ => 0) sampleBank []
                  Hids Hne)).
Defined.

(** ** The normalizer on doubles *)

(** On doubles [normalizeScore] returns the five values its comment
    names, as over the reals.  The two readings part on a tie: at a
    score of 3 the exact value [(3 + 20) / 40 * 100] is 57.5, which
    rounds to 58, while the doubles give 57.49999999999999 and 57; so
    the step from 2.6 (the double [0x1.4cccccccccccdp+1]) to 3 leaves
    the displayed value at 57. *)
Lemma normalizeScore_on_doubles :
  App64.normalizeScore (-20) = 0%float
  /\ App64.normalizeScore 0 = 50%float
  /\ App64.normalizeScore 20 = 100%float
  /\ App64.normalizeScore (-25) = 0%float
  /\ App64.normalizeScore 25 = 100%float
  /\ PrimFloat.mul (PrimFloat.div (PrimFloat.sub 3 App64.SCORE_MIN)
                      (PrimFloat.sub App64.SCORE_MAX App64.SCORE_MIN)) 100
     = 0x1.cbfffffffffffp+5%float
  /\ App64.normalizeScore 3 = 57%float
  /\ App64.normalizeScore 0x1.4cccccccccccdp+1 = 57%float
  /\ App.normalizeScore 3 = 58.
Proof.
  repeat (split; [vm_compute; reflexivity |]).
  rewrite normalize_unclamped by lra.
  unfold Math.round, Math.roundZ. f_equal.
  apply floorZ_unique. simpl. lra.
Qed.
